(** * hapi [lib/route.js]: path-template validation, compilation and matching

    A shallow embedding of the route path machinery of hapi:
    the two validation expressions, [_generateRegex], [match] and [test],
    together with the pieces of the JavaScript run time they rest on
    (regular-expression matching with captures, own-property enumeration,
    [decodeURIComponent], [parseInt], [String.prototype.split]), and of the
    checks that the constructor makes on the other options of a route.

    Strings are sequences of 8-bit characters.  A character above 127 stands
    for one octet of the UTF-8 form of the text; no expression of the source
    mentions such a character, so every pattern treats them uniformly. *)

From Stdlib Require Import String Ascii List Arith NArith Lia Bool Permutation
  DecimalString.
Import ListNotations.

Set Implicit Arguments.
Set Warnings "-via-type-mismatch,-via-type-remapping".

(** ** Strings *)

Abbreviation str := (list ascii).

Declare Scope str_scope.
Delimit Scope str_scope with str.
String Notation list string_of_list_byte list_byte_of_string
  (via string mapping [[nil] => EmptyString, [cons] => String]) : str_scope.
Open Scope str_scope.
Open Scope list_scope.

Definition str_eqb (a b : str) : bool :=
  if list_eq_dec ascii_dec a b then true else false.

Definition code (a : ascii) : nat := nat_of_ascii a.

Definition in_range (lo hi a : ascii) : bool :=
  Nat.leb (code lo) (code a) && Nat.leb (code a) (code hi).

Definition is_digit (a : ascii) : bool := in_range "0" "9" a.

(** [\w] is [[A-Za-z0-9_]]. *)
Definition is_word (a : ascii) : bool :=
  in_range "a" "z" a || in_range "A" "Z" a || is_digit a || Ascii.eqb a "_".

Definition toUpper (a : ascii) : ascii :=
  if in_range "a" "z" a then ascii_of_nat (code a - 32) else a.

Definition toLower (a : ascii) : ascii :=
  if in_range "A" "Z" a then ascii_of_nat (code a + 32) else a.

(** [String.prototype.toLowerCase], on the ASCII letters: the literal text of
    a valid template holds no other letters. *)
Definition toLowerCase (s : str) : str := map toLower s.

(** [s.split('/')]: never empty; [''.split('/')] is [['']]. *)
Fixpoint split_slash (s : str) : list str :=
  match s with
  | [] => [[]]
  | a :: r =>
      if Ascii.eqb a "/" then [] :: split_slash r
      else match split_slash r with
           | h :: t => (a :: h) :: t
           | [] => [[a]]
           end
  end.

(** ** Completions: a call returns or throws *)

Inductive js_error : Type :=
| AssertError (message : str)     (* thrown by [Utils.assert] *)
| URIError.                       (* thrown by [decodeURIComponent] *)

Inductive completion (A : Type) : Type :=
| Normal (a : A)
| Throw (e : js_error).
Arguments Normal {A} a.
Arguments Throw {A} e.

Definition bind {A B} (x : completion A) (f : A -> completion B) : completion B :=
  match x with
  | Normal a => f a
  | Throw e => Throw e
  end.

Notation "x <- e1 ;; e2" := (bind e1 (fun x => e2))
  (at level 61, e1 at next level, right associativity).
Notation "e1 ;;; e2" := (bind e1 (fun _ => e2))
  (at level 61, right associativity).

(** [Utils.assert(condition, message)] throws when the condition is falsy. *)
Definition assert (condition : bool) (message : str) : completion unit :=
  if condition then Normal tt else Throw (AssertError message).

(** ** Regular expressions *)

Inductive class_item : Type :=
| CChar (a : ascii)
| CRange (lo hi : ascii)
| CWord                            (* \w inside a class *)
| CDigit.                          (* \d inside a class *)

(** The syntax the source's expressions are written in.  [Rep] is a greedy
    quantifier: [*] is [Rep 0 None], [+] is [Rep 1 None], [?] is
    [Rep 0 (Some 1)] and [{n}] is [Rep n (Some n)]. *)
Inductive regex : Type :=
| Empty
| Chr (a : ascii)
| Class (invert : bool) (items : list class_item)
| Bol                              (* ^ *)
| Eol                              (* $ *)
| Seq (r1 r2 : regex)
| Alt (r1 r2 : regex)
| Group (r : regex)                (* ( ... ) *)
| NonCap (r : regex)               (* (?: ... ) *)
| Rep (min : nat) (max : option nat) (r : regex).

Definition Star := Rep 0 None.
Definition Plus := Rep 1 None.
Definition Opt := Rep 0 (Some 1).
Definition Times (n : nat) := Rep n (Some n).
Definition Word := Class false [CWord].
Definition Digit := Class false [CDigit].

Fixpoint seqs (rs : list regex) : regex :=
  match rs with
  | [] => Empty
  | [r] => r
  | r :: rs' => Seq r (seqs rs')
  end.

(** Number of capturing parentheses. *)
Fixpoint ngroups (r : regex) : nat :=
  match r with
  | Empty | Chr _ | Class _ _ | Bol | Eol => 0
  | Seq r1 r2 | Alt r1 r2 => ngroups r1 + ngroups r2
  | Group r1 => S (ngroups r1)
  | NonCap r1 | Rep _ _ r1 => ngroups r1
  end.

Record RegExp : Type := mkRegExp {
  source : regex;
  ignoreCase : bool;
  global : bool
}.

(** *** Matching (ECMA-262 5.1, 15.10.2) *)

(** Capture [k] is at position [k - 1]; [None] is [undefined]. *)
Definition caps := list (option str).
Definition mstate := (str * caps)%type.
(** A continuation receives the rest of the input and the captures. *)
Definition cont := str -> caps -> option mstate.
Definition matcher := cont -> str -> caps -> option mstate.

Fixpoint set_cap (i : nat) (v : option str) (c : caps) : caps :=
  match c, i with
  | [], _ => []
  | _ :: c', 0 => v :: c'
  | x :: c', S i' => x :: set_cap i' v c'
  end.

Fixpoint clear_caps (i n : nat) (c : caps) : caps :=
  match n with
  | 0 => c
  | S n' => set_cap i None (clear_caps (S i) n' c)
  end.

(** The text between two positions, each given by the input left there. *)
Definition captured (s s' : str) : str := firstn (length s - length s') s.

Definition item_mem (a : ascii) (it : class_item) : bool :=
  match it with
  | CChar b => Ascii.eqb a b
  | CRange lo hi => in_range lo hi a
  | CWord => is_word a
  | CDigit => is_digit a
  end.

Definition char_match (ic : bool) (a ch : ascii) : bool :=
  if ic then Ascii.eqb (toUpper a) (toUpper ch) else Ascii.eqb a ch.

(** Some member of the set has the canonical form of [ch]. *)
Definition class_has (ic : bool) (items : list class_item) (ch : ascii) : bool :=
  if ic then existsb (item_mem (toUpper ch)) items || existsb (item_mem (toLower ch)) items
  else existsb (item_mem ch) items.

Definition class_match (ic invert : bool) (items : list class_item) (ch : ascii) : bool :=
  xorb invert (class_has ic items ch).

(** RepeatMatcher of 15.10.2.5, greedy.  The recursion is on [fuel]; a call
    with [min + length x <= fuel] never reaches the bottom, since an
    iteration either lowers [min] or shortens the input. *)
Fixpoint RepeatMatcher (m : matcher) (parenIndex parenCount : nat) (c : cont)
    (fuel min : nat) (max : option nat) (x : str) (cap : caps) {struct fuel}
    : option mstate :=
  match max with
  | Some 0 => c x cap
  | _ =>
      let d : cont := fun y capy =>
        if (min =? 0) && (length y =? length x) then None
        else match fuel with
             | 0 => None
             | S fuel' =>
                 RepeatMatcher m parenIndex parenCount c fuel'
                   (pred min) (option_map pred max) y capy
             end in
      let capr := clear_caps parenIndex parenCount cap in
      if min =? 0 then
        match m d x capr with
        | Some z => Some z
        | None => c x cap
        end
      else m d x capr
  end.

(** [n0] is the length of the whole input, [parenIndex] the number of
    capturing parentheses to the left of [r]. *)
Fixpoint Matcher (ic : bool) (n0 : nat) (r : regex) (parenIndex : nat) {struct r}
    : matcher :=
  match r with
  | Empty => fun c x cap => c x cap
  | Chr a => fun c x cap =>
      match x with
      | ch :: y => if char_match ic a ch then c y cap else None
      | [] => None
      end
  | Class invert items => fun c x cap =>
      match x with
      | ch :: y => if class_match ic invert items ch then c y cap else None
      | [] => None
      end
  | Bol => fun c x cap => if length x =? n0 then c x cap else None
  | Eol => fun c x cap => match x with [] => c x cap | _ :: _ => None end
  | Seq r1 r2 => fun c x cap =>
      Matcher ic n0 r1 parenIndex
        (fun y capy => Matcher ic n0 r2 (parenIndex + ngroups r1) c y capy) x cap
  | Alt r1 r2 => fun c x cap =>
      match Matcher ic n0 r1 parenIndex c x cap with
      | Some z => Some z
      | None => Matcher ic n0 r2 (parenIndex + ngroups r1) c x cap
      end
  | Group r1 => fun c x cap =>
      Matcher ic n0 r1 (S parenIndex)
        (fun y capy => c y (set_cap parenIndex (Some (captured x y)) capy)) x cap
  | NonCap r1 => Matcher ic n0 r1 parenIndex
  | Rep min max r1 => fun c x cap =>
      RepeatMatcher (Matcher ic n0 r1 parenIndex) parenIndex (ngroups r1) c
        (min + length x) min max x cap
  end.

(** Try every start position, left to right.  The result is the input left
    at the start of the match, the input left at its end, and the captures. *)
Fixpoint exec_from (re : RegExp) (n0 : nat) (x : str) : option (str * str * caps) :=
  match Matcher (ignoreCase re) n0 (source re) 0 (fun y cap => Some (y, cap)) x
          (repeat None (ngroups (source re))) with
  | Some (y, cap) => Some (x, y, cap)
  | None =>
      match x with
      | [] => None
      | _ :: x' => exec_from re n0 x'
      end
  end.

(** [re.exec(input)] for an expression whose [lastIndex] is 0: the array
    [[whole, capture1, ...]], or [None] for [null]. *)
Definition RegExp_exec (re : RegExp) (input : str) : option (list (option str)) :=
  match exec_from re (length input) input with
  | Some (x, y, cap) => Some (Some (captured x y) :: cap)
  | None => None
  end.

(** Every match of a global expression, as [String.prototype.match] collects
    them. *)
Fixpoint match_all (re : RegExp) (n0 fuel : nat) (x : str) : list str :=
  match fuel with
  | 0 => []
  | S fuel' =>
      match exec_from re n0 x with
      | None => []
      | Some (x0, y, _) =>
          captured x0 y ::
            (if length y =? length x0 then
               match y with
               | [] => []
               | _ :: y' => match_all re n0 fuel' y'
               end
             else match_all re n0 fuel' y)
      end
  end.

(** [input.match(re)]; [None] is [null]. *)
Definition String_match (input : str) (re : RegExp) : option (list (option str)) :=
  if global re then
    match match_all re (length input) (S (length input)) input with
    | [] => None
    | l => Some (map Some l)
    end
  else RegExp_exec re input.

(** ** Objects and other built-ins *)

Inductive jsval : Type :=
| JUndefined
| JString (s : str).

(** An object's own properties, in creation order. *)
Definition jsobj (V : Type) := list (str * V).

Fixpoint obj_get {V} (o : jsobj V) (k : str) : option V :=
  match o with
  | [] => None
  | (k', v) :: o' => if str_eqb k' k then Some v else obj_get o' k
  end.

(** [o[k] = v]: an existing property keeps its place. *)
Fixpoint obj_set {V} (o : jsobj V) (k : str) (v : V) : jsobj V :=
  match o with
  | [] => [(k, v)]
  | (k', v') :: o' =>
      if str_eqb k' k then (k', v) :: o' else (k', v') :: obj_set o' k v
  end.

Definition digit_val (a : ascii) : N := N.of_nat (code a - 48).

Definition str_to_N (s : str) : N :=
  fold_left (fun n a => (10 * n + digit_val a)%N) s 0%N.

(** An array index is the canonical decimal form of an integer below
    2^32 - 1. *)
Definition array_index (k : str) : option N :=
  match k with
  | [] => None
  | a :: r =>
      if forallb is_digit k
         && (negb (Ascii.eqb a "0") || (length r =? 0))
         && (length k <=? 10)
         && (str_to_N k <=? 4294967294)%N
      then Some (str_to_N k) else None
  end.

Definition is_array_index (k : str) : bool :=
  match array_index k with Some _ => true | None => false end.

Fixpoint insert_key (x : N * str) (l : list (N * str)) : list (N * str) :=
  match l with
  | [] => [x]
  | y :: l' => if (fst x <=? fst y)%N then x :: l else y :: insert_key x l'
  end.

Definition sort_keys (l : list (N * str)) : list (N * str) :=
  fold_right insert_key [] l.

Definition index_keys (ks : list str) : list (N * str) :=
  flat_map (fun k => match array_index k with
                     | Some n => [(n, k)]
                     | None => []
                     end) ks.

(** [Object.keys(o)]: the array indices in ascending numeric order, then the
    other names in creation order. *)
Definition Object_keys {V} (o : jsobj V) : list str :=
  let ks := map fst o in
  map snd (sort_keys (index_keys ks))
    ++ filter (fun k => negb (is_array_index k)) ks.

(** The names a plain object inherits from [Object.prototype]; a read of
    one of them on [{}] yields a function or an object. *)
Definition Object_prototype_names : list str :=
  [ "constructor"; "toString"; "toLocaleString"; "valueOf"; "hasOwnProperty";
    "isPrototypeOf"; "propertyIsEnumerable"; "__defineGetter__";
    "__lookupGetter__"; "__defineSetter__"; "__lookupSetter__"; "__proto__" ].

Definition inherited (k : str) : bool :=
  existsb (str_eqb k) Object_prototype_names.

(** Truthiness of [o[k]] for an object literal holding booleans. *)
Definition get_truthy (o : jsobj bool) (k : str) : bool :=
  match obj_get o k with
  | Some v => v
  | None => inherited k
  end.

(** [parseInt(s, 10)] on a string that starts with its digits; [None] is
    [NaN].  Counts are taken as exact integers. *)
Fixpoint leading_digits (s : str) : str :=
  match s with
  | a :: r => if is_digit a then a :: leading_digits r else []
  | [] => []
  end.

Definition parseInt10 (s : str) : option nat :=
  match leading_digits s with
  | [] => None
  | ds => Some (N.to_nat (str_to_N ds))
  end.

(** *** [decodeURIComponent] (ECMA-262 5.1, 15.1.3) *)

Definition hex_val (a : ascii) : option N :=
  if is_digit a then Some (N.of_nat (code a - 48))
  else if in_range "a" "f" a then Some (N.of_nat (code a - 87))
  else if in_range "A" "F" a then Some (N.of_nat (code a - 55))
  else None.

Inductive uri_token : Type :=
| Raw (a : ascii)                  (* a character copied as it is *)
| Octet (b : N).                   (* an escape %XX *)

Fixpoint uri_tokens (s : str) : completion (list uri_token) :=
  match s with
  | [] => Normal []
  | a :: rest =>
      if Ascii.eqb a "%" then
        match rest with
        | h1 :: h2 :: rest' =>
            match hex_val h1, hex_val h2 with
            | Some x, Some y =>
                t <- uri_tokens rest' ;; Normal (Octet (16 * x + y) :: t)
            | _, _ => Throw URIError
            end
        | _ => Throw URIError
        end
      else t <- uri_tokens rest ;; Normal (Raw a :: t)
  end.

Definition octet_char (b : N) : ascii := ascii_of_N b.

(** A decoded code point is kept as the octets of its UTF-8 form.
    [pending] continuation octets are still due for the sequence [seq]
    (kept reversed), whose value so far is [v] and must reach [least]. *)
Fixpoint uri_utf8 (pending : nat) (v least : N) (seq : str)
    (ts : list uri_token) : completion str :=
  match pending, ts with
  | 0, [] => Normal []
  | 0, Raw a :: ts' => out <- uri_utf8 0 0%N 0%N [] ts' ;; Normal (a :: out)
  | 0, Octet b :: ts' =>
      if (b <? 128)%N then
        out <- uri_utf8 0 0%N 0%N [] ts' ;; Normal (octet_char b :: out)
      else if (b <? 192)%N then Throw URIError
      else if (b <? 224)%N then uri_utf8 1 (b - 192)%N 128%N [octet_char b] ts'
      else if (b <? 240)%N then uri_utf8 2 (b - 224)%N 2048%N [octet_char b] ts'
      else if (b <? 248)%N then uri_utf8 3 (b - 240)%N 65536%N [octet_char b] ts'
      else Throw URIError
  | S _, [] => Throw URIError
  | S _, Raw _ :: _ => Throw URIError
  | S p, Octet b :: ts' =>
      if (128 <=? b)%N && (b <? 192)%N then
        let v' := (64 * v + (b - 128))%N in
        match p with
        | 0 =>
            if (least <=? v')%N && (v' <=? 1114111)%N
               && negb ((55296 <=? v')%N && (v' <=? 57343)%N)
            then out <- uri_utf8 0 0%N 0%N [] ts' ;;
                 Normal (rev (octet_char b :: seq) ++ out)
            else Throw URIError
        | S _ => uri_utf8 p v' least (octet_char b :: seq) ts'
        end
      else Throw URIError
  end.

Definition decodeURIComponent (s : str) : completion str :=
  ts <- uri_tokens s ;; uri_utf8 0 0%N 0%N [] ts.

(** ** The route *)

Record RouterSettings : Type := mkRouter {
  isCaseSensitive : bool;
  isTrailingSlashSensitive : bool
}.

Record Route : Type := mkRoute {
  regexp : RegExp;
  params : list str;
  fingerprint : str
}.

Record Request : Type := mkRequest {
  path : str;
  request_params : jsobj jsval;
  request_paramsArray : list jsval
}.

(** [[\w\!\$&'\(\)\*\+\,;\=\:@\-\.~]] *)
Definition legal_items : list class_item :=
  [ CWord; CChar "!"; CChar "$"; CChar "&"; CChar "'"; CChar "("; CChar ")";
    CChar "*"; CChar "+"; CChar ","; CChar ";"; CChar "="; CChar ":";
    CChar "@"; CChar "-"; CChar "."; CChar "~" ].

Definition legal_class : regex := Class false legal_items.

(** [[A-F0-9]], [[1-9]] *)
Definition hex_class : regex := Class false [CRange "A" "F"; CRange "0" "9"].
Definition nonzero_class : regex := Class false [CRange "1" "9"].

(** The letters are those of the comment under the expression in the source.
    a: [(^\/$)] *)
Definition vp_a : regex := Group (seqs [Bol; Chr "/"; Eol]).
(** e: [([legal]|%[A-F0-9]{2})] *)
Definition vp_e : regex :=
  Group (Alt legal_class (Seq (Chr "%") (Times 2 hex_class))).
(** h: [( \* [1-9] \d* )] *)
Definition vp_h : regex := Group (seqs [Chr "*"; nonzero_class; Star Digit]).
(** g: [(\{\w+ h? \})] *)
Definition vp_g : regex := Group (seqs [Chr "{"; Plus Word; Opt vp_h; Chr "}"]).
(** d: [(e+|g)], c: [(\/ d)] *)
Definition vp_d : regex := Group (Alt (Plus vp_e) vp_g).
Definition vp_c : regex := Group (Seq (Chr "/") vp_d).
(** m: [( [1-9] \d* )], l: [( \* m? )], n: [( \? )], k: [( l | n )] *)
Definition vp_m : regex := Group (Seq nonzero_class (Star Digit)).
Definition vp_l : regex := Group (Seq (Chr "*") (Opt vp_m)).
Definition vp_n : regex := Group (Chr "?").
Definition vp_k : regex := Group (Alt vp_l vp_n).
(** j: [(\{\w+ k? \})], i: [(\/ j?)] *)
Definition vp_j : regex := Group (seqs [Chr "{"; Plus Word; Opt vp_k; Chr "}"]).
Definition vp_i : regex := Group (Seq (Chr "/") (Opt vp_j)).
(** b: [( ^ c* i? $ )] *)
Definition vp_b : regex := Group (seqs [Bol; Star vp_c; Opt vp_i; Eol]).

Definition validatePathRegex : RegExp := mkRegExp (Alt vp_a vp_b) false false.

(** [/%(?:2[146-9A-E]|3[\dABD]|4[\dA-F]|5[\dAF]|6[1-9A-F]|7[\dAE])/g] *)
Definition validatePathEncodedRegex : RegExp :=
  mkRegExp
    (Seq (Chr "%")
       (NonCap
          (Alt (Seq (Chr "2") (Class false [CChar "1"; CChar "4"; CRange "6" "9"; CRange "A" "E"]))
          (Alt (Seq (Chr "3") (Class false [CDigit; CChar "A"; CChar "B"; CChar "D"]))
          (Alt (Seq (Chr "4") (Class false [CDigit; CRange "A" "F"]))
          (Alt (Seq (Chr "5") (Class false [CDigit; CChar "A"; CChar "F"]))
          (Alt (Seq (Chr "6") (Class false [CRange "1" "9"; CRange "A" "F"]))
               (Seq (Chr "7") (Class false [CDigit; CChar "A"; CChar "E"])))))))))
    false true.

Definition is_null {A} (v : option A) : bool :=
  match v with None => true | Some _ => false end.

(** The checks the constructor makes on [settings.path] (lines 26 to 28);
    the other options of a route play no part in the path machinery. *)
Definition validatePath (settings_path : str) : completion unit :=
  assert (negb (length settings_path =? 0)) "Route options missing path" ;;;
  assert (negb (is_null (String_match settings_path validatePathRegex)))
    ("Invalid path: " ++ settings_path) ;;;
  assert (is_null (String_match settings_path validatePathEncodedRegex))
    "Path cannot contain encoded non-reserved path characters".

(** [/^\{(\w+)(?:( \* )(\d+)?)?(\?)?\}$/], written here with blanks around the star *)
Definition paramRegex : RegExp :=
  mkRegExp
    (seqs [ Bol; Chr "{"; Group (Plus Word);
            Opt (NonCap (Seq (Group (Chr "*")) (Opt (Group (Plus Digit)))));
            Opt (Group (Chr "?")); Chr "}"; Eol ])
    false false.

(** Modelled from the spec: [Utils.escapeRegex] of [lib/utils.js], which is
    not among the sources.  Every character of a literal segment is escaped
    so that it stands for itself in the pattern. *)
Fixpoint escapeRegex (segment : str) : regex :=
  match segment with
  | [] => Empty
  | a :: rest => Seq (Chr a) (escapeRegex rest)
  end.

(** [(?:[^\/]+)] *)
Definition run : regex := NonCap (Plus (Class true [CChar "/"])).

(** [segmentRX] of lines 188 to 199. *)
Definition truthy_count (multiCount : option nat) : bool :=
  match multiCount with
  | Some (S _) => true
  | _ => false
  end.

Definition count_of (multiCount : option nat) : nat :=
  match multiCount with Some n => n | None => 0 end.

Definition segmentRX (isMulti : bool) (multiCount : option nat) : regex :=
  Seq (Chr "/")
    (if isMulti then
       if truthy_count multiCount then
         (* ( (?:[^\/]+) (?:\/(?:[^\/]+)){multiCount - 1} ) *)
         Group (Seq run (Times (count_of multiCount - 1) (NonCap (Seq (Chr "/") run))))
       else
         (* ( (?:[^\/]+) (?:\/(?:[^\/]+))* ) *)
         Group (Seq run (Star (NonCap (Seq (Chr "/") run))))
     else
       (* ([^\/]+) *)
       Group (Plus (Class true [CChar "/"]))).

(** What lines 201 to 213 append to [pathRX] for a parameter. *)
Definition absence_permitted (isMulti : bool) (multiCount : option nat)
    (isOptional : bool) : bool :=
  isOptional || (isMulti && negb (truthy_count multiCount)).

Definition paramRX (trailingSlashOptional isMulti : bool)
    (multiCount : option nat) (isOptional : bool) : regex :=
  if absence_permitted isMulti multiCount isOptional then
    if trailingSlashOptional then
      (* (?:(?:\/)|(?:segmentRX))? *)
      Opt (NonCap (Alt (NonCap (Chr "/")) (NonCap (segmentRX isMulti multiCount))))
    else
      (* (?:(?:\/)|(?:segmentRX)) *)
      NonCap (Alt (NonCap (Chr "/")) (NonCap (segmentRX isMulti multiCount)))
  else segmentRX isMulti multiCount.

(** What lines 215 to 227 append to [fingerprint] for a parameter. *)
Definition paramFingerprint (isMulti : bool) (multiCount : option nat) : str :=
  if isMulti then
    if truthy_count multiCount then concat (repeat "/?" (count_of multiCount))
    else "/?*"
  else "/?".

(** What lines 233 to 244 append for a literal segment. *)
Definition literalRX (trailingSlashOptional : bool) (segment : str) : regex :=
  match segment with
  | _ :: _ => Seq (Chr "/") (escapeRegex segment)
  | [] => if trailingSlashOptional then Opt (Chr "/") else Chr "/"
  end.

Definition literalFingerprint (segment : str) : str := "/" ++ segment.

Definition truthy_str (v : option str) : bool :=
  match v with
  | Some (_ :: _) => true
  | _ => false
  end.

(** A value used as a property name. *)
Definition property_name (v : option str) : str :=
  match v with
  | Some s => s
  | None => "undefined"
  end.

(** The capture [param[k]] of a match array. *)
Definition index {A} (m : list (option A)) (k : nat) : option A :=
  nth k m None.

(** The fields of a parameter segment, lines 180 to 183. *)
Definition param_isMulti (param : list (option str)) : bool :=
  truthy_str (index param 2).

Definition param_multiCount (param : list (option str)) : option nat :=
  if truthy_str (index param 3) then parseInt10 (property_name (index param 3))
  else None.

Definition param_isOptional (param : list (option str)) : bool :=
  truthy_str (index param 4).

(** The variables of [_generateRegex] that the loop updates. *)
Record locals : Type := mkLocals {
  l_params : jsobj bool;
  l_pathRX : regex;
  l_fingerprint : str
}.

(** One turn of the loop of lines 173 to 246. *)
Definition loop_body (trailingSlashOptional : bool) (st : locals)
    (segment : str) : completion locals :=
  match String_match segment paramRegex with
  | Some param =>
      (* Parameter *)
      let name := property_name (index param 1) in
      let isMulti := param_isMulti param in
      let multiCount := param_multiCount param in
      let isOptional := param_isOptional param in
      assert (negb (get_truthy (l_params st) name))
        "Cannot repeat the same parameter name" ;;;
      Normal (mkLocals (obj_set (l_params st) name true)
                (Seq (l_pathRX st)
                   (paramRX trailingSlashOptional isMulti multiCount isOptional))
                (l_fingerprint st ++ paramFingerprint isMulti multiCount))
  | None =>
      (* Literal *)
      Normal (mkLocals (l_params st)
                (Seq (l_pathRX st) (literalRX trailingSlashOptional segment))
                (l_fingerprint st ++ literalFingerprint segment))
  end.

Fixpoint loop (trailingSlashOptional : bool) (segments : list str) (st : locals)
    : completion locals :=
  match segments with
  | [] => Normal st
  | segment :: rest =>
      st' <- loop_body trailingSlashOptional st segment ;;
      loop trailingSlashOptional rest st'
  end.

Definition _generateRegex (router : RouterSettings) (this_path : str)
    : completion Route :=
  let trailingSlashOptional := negb (isTrailingSlashSensitive router) in
  let segments := split_slash this_path in
  (* the loop starts at 1: the first segment is skipped *)
  st <- loop trailingSlashOptional (tl segments) (mkLocals [] Empty "") ;;
  if isCaseSensitive router then
    Normal (mkRoute (mkRegExp (Seq Bol (Seq (l_pathRX st) Eol)) false false)
              (Object_keys (l_params st))
              (l_fingerprint st))
  else
    Normal (mkRoute (mkRegExp (Seq Bol (Seq (l_pathRX st) Eol)) true false)
              (Object_keys (l_params st))
              (toLowerCase (l_fingerprint st))).

(** The constructor, as far as the path goes (lines 26 to 28 and 72). *)
Definition new_Route (router : RouterSettings) (settings_path : str)
    : completion Route :=
  validatePath settings_path ;;; _generateRegex router settings_path.

(** [match]: the loop of lines 273 to 285 over [match[i]], [n] turns being
    left.  [Some b] is a [return b] taken inside the loop. *)
Fixpoint match_loop (this_params : list str) (mtch : list (option str))
    (n i : nat) (request : Request) : option bool * Request :=
  match n with
  | 0 => (None, request)
  | S n' =>
      match nth_error this_params (i - 1) with
      | Some ((_ :: _) as key) =>
          match (match index mtch i with
                 | Some s => v <- decodeURIComponent s ;; Normal (JString v)
                 | None => Normal JUndefined
                 end) with
          | Normal v =>
              let request1 :=
                mkRequest (path request) (obj_set (request_params request) key v)
                  (request_paramsArray request) in
              let pushed :=
                match obj_get (request_params request1) key with
                | Some w => w
                | None => JUndefined
                end in
              match_loop this_params mtch n' (S i)
                (mkRequest (path request1) (request_params request1)
                   (request_paramsArray request1 ++ [pushed]))
          | Throw _ =>
              (* decodeURIComponent can throw *)
              (Some false, request)
          end
      | _ => match_loop this_params mtch n' (S i) request
      end
  end.

Definition Route_match (this : Route) (request : Request)
    : completion bool * Request :=
  match RegExp_exec (regexp this) (path request) with
  | None => (Normal false, request)
  | Some mtch =>
      let request0 := mkRequest (path request) [] [] in
      if 0 <? length (params this) then
        match match_loop (params this) mtch (length mtch - 1) 1 request0 with
        | (Some b, request') => (Normal b, request')
        | (None, request') => (Normal true, request')
        end
      else (Normal true, request0)
  end.

Definition Route_test (this : Route) (path : str) : bool :=
  negb (is_null (RegExp_exec (regexp this) path)).

(** * The vocabulary of the properties *)

(** ** What an expression can match *)

Section Relations.

Variable ic : bool.
Variable n0 : nat.

(** [Matches r i x cap y capy]: started on the input [x] with the captures
    [cap], the expression [r] (its first group being number [i]) can stop
    with [y] left and the captures [capy]. *)
Inductive Matches : regex -> nat -> str -> caps -> str -> caps -> Prop :=
| M_Empty i x cap : Matches Empty i x cap x cap
| M_Chr a ch i x cap :
    char_match ic a ch = true -> Matches (Chr a) i (ch :: x) cap x cap
| M_Class inv items ch i x cap :
    class_match ic inv items ch = true ->
    Matches (Class inv items) i (ch :: x) cap x cap
| M_Bol i x cap : length x = n0 -> Matches Bol i x cap x cap
| M_Eol i cap : Matches Eol i [] cap [] cap
| M_Seq r1 r2 i x cap y capy z capz :
    Matches r1 i x cap y capy ->
    Matches r2 (i + ngroups r1) y capy z capz ->
    Matches (Seq r1 r2) i x cap z capz
| M_AltL r1 r2 i x cap y capy :
    Matches r1 i x cap y capy -> Matches (Alt r1 r2) i x cap y capy
| M_AltR r1 r2 i x cap y capy :
    Matches r2 (i + ngroups r1) x cap y capy -> Matches (Alt r1 r2) i x cap y capy
| M_Group r i x cap y capy :
    Matches r (S i) x cap y capy ->
    Matches (Group r) i x cap y (set_cap i (Some (captured x y)) capy)
| M_NonCap r i x cap y capy :
    Matches r i x cap y capy -> Matches (NonCap r) i x cap y capy
| M_RepStop min max r i x cap :
    min = 0 \/ max = Some 0 -> Matches (Rep min max r) i x cap x cap
| M_RepStep min max r i x cap y capy z capz :
    max <> Some 0 ->
    Matches r i x (clear_caps i (ngroups r) cap) y capy ->
    (min = 0 -> length y <> length x) ->
    Matches (Rep (pred min) (option_map pred max) r) i y capy z capz ->
    Matches (Rep min max r) i x cap z capz.

(** The same without the captures. *)
Inductive Lang : regex -> str -> str -> Prop :=
| L_Empty x : Lang Empty x x
| L_Chr a ch x : char_match ic a ch = true -> Lang (Chr a) (ch :: x) x
| L_Class inv items ch x :
    class_match ic inv items ch = true -> Lang (Class inv items) (ch :: x) x
| L_Bol x : length x = n0 -> Lang Bol x x
| L_Eol : Lang Eol [] []
| L_Seq r1 r2 x y z : Lang r1 x y -> Lang r2 y z -> Lang (Seq r1 r2) x z
| L_AltL r1 r2 x y : Lang r1 x y -> Lang (Alt r1 r2) x y
| L_AltR r1 r2 x y : Lang r2 x y -> Lang (Alt r1 r2) x y
| L_Group r x y : Lang r x y -> Lang (Group r) x y
| L_NonCap r x y : Lang r x y -> Lang (NonCap r) x y
| L_RepStop min max r x : min = 0 \/ max = Some 0 -> Lang (Rep min max r) x x
| L_RepStep min max r x y z :
    max <> Some 0 ->
    Lang r x y ->
    (min = 0 -> length y <> length x) ->
    Lang (Rep (pred min) (option_map pred max) r) y z ->
    Lang (Rep min max r) x z.

End Relations.

(** ** The route's expression, segment by segment *)

(** The expression [^R$]. *)
Definition anchored (R : regex) : regex := Seq Bol (Seq R Eol).

(** The expression and the fingerprint text that one segment adds. *)
Definition segment_pathRX (trailingSlashOptional : bool) (segment : str) : regex :=
  match String_match segment paramRegex with
  | Some param =>
      paramRX trailingSlashOptional (param_isMulti param)
        (param_multiCount param) (param_isOptional param)
  | None => literalRX trailingSlashOptional segment
  end.

Definition segment_fingerprint (segment : str) : str :=
  match String_match segment paramRegex with
  | Some param => paramFingerprint (param_isMulti param) (param_multiCount param)
  | None => literalFingerprint segment
  end.

(** What the loop keeps true of its variables: the names recorded so far
    are distinct and non-empty, all set to [true], and there is one of them
    per group of [pathRX]. *)
Definition locals_ok (st : locals) : Prop :=
  NoDup (map fst (l_params st)) /\
  Forall (fun kv => fst kv <> [] /\ snd kv = true) (l_params st) /\
  length (l_params st) = ngroups (l_pathRX st).

(** ** Results of [match] *)

(** The value stored for a capture: [undefined] stays, a string is decoded. *)
Definition capture_value (c : option str) (v : jsval) : Prop :=
  match c with
  | None => v = JUndefined
  | Some s => exists d, decodeURIComponent s = Normal d /\ v = JString d
  end.

(** The names of the parameter segments, in the order of the template. *)
Definition declared_names (segments : list str) : list str :=
  flat_map (fun segment =>
              match String_match segment paramRegex with
              | Some param => [property_name (index param 1)]
              | None => []
              end) segments.

(** ** Fingerprints *)

Definition segments_fingerprint (segments : list str) : str :=
  concat (map segment_fingerprint segments).

(** The letter case a route's settings leave in a fingerprint. *)
Definition fold_case (router : RouterSettings) (s : str) : str :=
  if isCaseSensitive router then s else toLowerCase s.

(** Two segments have the same shape when both are literals with the same
    text, or both are parameters that agree on being multi-segment, on
    their count and on being optional; the names play no part. *)
Definition same_shape (s1 s2 : str) : Prop :=
  match String_match s1 paramRegex, String_match s2 paramRegex with
  | Some p1, Some p2 =>
      param_isMulti p1 = param_isMulti p2 /\
      param_multiCount p1 = param_multiCount p2 /\
      param_isOptional p1 = param_isOptional p2
  | None, None => s1 = s2
  | _, _ => False
  end.

Definition no_slash (w : str) : Prop := ~ In "/"%char w.

(** Empty, or starting with the separator. *)
Definition slash_headed (g : str) : Prop :=
  g = [] \/ exists g', g = "/"%char :: g'.

(** The segments the loop of [_generateRegex] visits. *)
Definition template_segments (template : str) : list str :=
  tl (split_slash template).

(** ** Parts of a path *)

(** No [^] and no [$]. *)
Fixpoint anchor_free (r : regex) : bool :=
  match r with
  | Empty | Chr _ | Class _ _ => true
  | Bol | Eol => false
  | Seq r1 r2 | Alt r1 r2 => anchor_free r1 && anchor_free r2
  | Group r1 | NonCap r1 | Rep _ _ r1 => anchor_free r1
  end.

Definition add_segment (tso : bool) (r : regex) (segment : str) : regex :=
  Seq r (segment_pathRX tso segment).

(** [pathRX] after the loop has gone over [segments]. *)
Definition segments_pathRX (tso : bool) (segments : list str) : regex :=
  fold_left (add_segment tso) segments Empty.

(** [spans ic r w]: the expression [^r$] matches [w]. *)
Definition spans (ic : bool) (r : regex) (w : str) : Prop :=
  RegExp_exec (mkRegExp (anchored r) ic false) w <> None.

(** The expression a route would have for the segments [segments] alone
    accepts [a]. *)
Definition accepts_segments (router : RouterSettings) (segments : list str)
    (a : str) : Prop :=
  spans (negb (isCaseSensitive router))
    (segments_pathRX (negb (isTrailingSlashSensitive router)) segments) a.

(** ** Runs *)

Definition not_slash (a : ascii) : bool := negb (Ascii.eqb a "/").

(** A run: one or more characters, none of them the separator. *)
Definition is_run (w : str) : bool :=
  negb (length w =? 0) && forallb not_slash w.

(** Runs put together with one separator between neighbours. *)
Fixpoint join_slash (runs : list str) : str :=
  match runs with
  | [] => []
  | [r] => r
  | r :: rest => r ++ "/" ++ join_slash rest
  end.


(** ** The text of an expression *)

(** The characters that the source writes with a backslash. *)
Definition is_syntax (a : ascii) : bool :=
  existsb (Ascii.eqb a) "^$.*+-?=!:|\/()[]{},".

Definition show_char (a : ascii) : str :=
  if is_syntax a then ["\"%char; a] else [a].

Definition show_item (it : class_item) : str :=
  match it with
  | CChar a => show_char a
  | CRange lo hi => [lo; "-"%char; hi]
  | CWord => "\w"
  | CDigit => "\d"
  end.

(** A number in decimal, as string concatenation writes it. *)
Definition decimal (n : nat) : str :=
  list_ascii_of_string (NilEmpty.string_of_uint (Nat.to_uint n)).

Definition show_quantifier (min : nat) (max : option nat) : str :=
  match min, max with
  | 0, None => "*"
  | 1, None => "+"
  | 0, Some 1 => "?"
  | _, None => "{" ++ decimal min ++ ",}"
  | _, Some m =>
      if min =? m then "{" ++ decimal min ++ "}"
      else "{" ++ decimal min ++ "," ++ decimal m ++ "}"
  end.

(** The text of an expression whose quantifiers stand on single characters,
    classes and groups, as all those of the source do. *)
Fixpoint show (r : regex) : str :=
  match r with
  | Empty => ""
  | Chr a => show_char a
  | Class inv items =>
      match inv, items with
      | false, [CWord] => "\w"
      | false, [CDigit] => "\d"
      | _, _ => "[" ++ (if inv then "^" else "") ++ concat (map show_item items) ++ "]"
      end
  | Bol => "^"
  | Eol => "$"
  | Seq r1 r2 => show r1 ++ show r2
  | Alt r1 r2 => show r1 ++ "|" ++ show r2
  | Group r1 => "(" ++ show r1 ++ ")"
  | NonCap r1 => "(?:" ++ show r1 ++ ")"
  | Rep min max r1 => show r1 ++ show_quantifier min max
  end.

(** The strings that [_generateRegex] puts together, line by line.  They
    are cut where a star meets a closing parenthesis. *)

(** Modelled from the spec: the text that [Utils.escapeRegex] of
    [lib/utils.js] returns, every syntax character behind a backslash. *)
Definition escapeRegex_text (segment : str) : str :=
  concat (map show_char segment).

(** Lines 188 to 199. *)
Definition segmentRX_text (isMulti : bool) (multiCount : option nat) : str :=
  "\/" ++
  (if isMulti then
     if truthy_count multiCount then
       "((?:[^\/]+)(?:\/(?:[^\/]+)){" ++ decimal (count_of multiCount - 1) ++ "})"
     else "((?:[^\/]+)(?:\/(?:[^\/]+))*" ++ ")"
   else "([^\/]+)").

(** Lines 201 to 213. *)
Definition paramRX_text (trailingSlashOptional isMulti : bool)
    (multiCount : option nat) (isOptional : bool) : str :=
  if absence_permitted isMulti multiCount isOptional then
    if trailingSlashOptional then
      "(?:(?:\/)|(?:" ++ segmentRX_text isMulti multiCount ++ "))?"
    else "(?:(?:\/)|(?:" ++ segmentRX_text isMulti multiCount ++ "))"
  else segmentRX_text isMulti multiCount.

(** Lines 233 to 241. *)
Definition literalRX_text (trailingSlashOptional : bool) (segment : str) : str :=
  match segment with
  | _ :: _ => "\/" ++ escapeRegex_text segment
  | [] => "\/" ++ (if trailingSlashOptional then "?" else "")
  end.

Definition segment_text (trailingSlashOptional : bool) (segment : str) : str :=
  match String_match segment paramRegex with
  | Some param =>
      paramRX_text trailingSlashOptional (param_isMulti param)
        (param_multiCount param) (param_isOptional param)
  | None => literalRX_text trailingSlashOptional segment
  end.

(** The argument of [new RegExp] on lines 249 and 253. *)
Definition regexp_text (trailingSlashOptional : bool) (segments : list str) : str :=
  "^" ++ concat (map (segment_text trailingSlashOptional) segments) ++ "$".

(** ** The grammar of templates

    The grammar of the specification, with the two parameter forms that
    allow absence, [{name?}] and [{name*}], kept to the last segment. *)

Definition is_legal (a : ascii) : bool := existsb (item_mem a) legal_items.

Definition is_hex (a : ascii) : bool := in_range "A" "F" a || in_range "0" "9" a.

(** The characters of a literal: legal characters and octets [%XX]. *)
Inductive literal_chars : str -> Prop :=
| lc_nil : literal_chars []
| lc_char a rest :
    is_legal a = true -> literal_chars rest -> literal_chars (a :: rest)
| lc_octet h1 h2 rest :
    is_hex h1 = true -> is_hex h2 = true -> literal_chars rest ->
    literal_chars ("%"%char :: h1 :: h2 :: rest).

Definition is_name (w : str) : bool :=
  negb (length w =? 0) && forallb is_word w.

(** A count: digits, the first of them not [0]. *)
Definition is_count (d : str) : bool :=
  match d with
  | c :: ds => in_range "1" "9" c && forallb is_digit ds
  | [] => false
  end.

(** [param_token final s]: [s] is a parameter token; the forms [{name?}]
    and [{name*}] need [final]. *)
Inductive param_token : bool -> str -> Prop :=
| pt_single final name :
    is_name name = true -> param_token final ("{" ++ name ++ "}")
| pt_fixed final name count :
    is_name name = true -> is_count count = true ->
    param_token final ("{" ++ name ++ "*" ++ count ++ "}")
| pt_optional name :
    is_name name = true -> param_token true ("{" ++ name ++ "?}")
| pt_unbounded name :
    is_name name = true -> param_token true ("{" ++ name ++ "*}").

(** A segment that may stand anywhere. *)
Definition inner_segment (s : str) : Prop :=
  (s <> [] /\ literal_chars s) \/ param_token false s.

(** What may follow the last such segment: nothing, a trailing separator,
    or a last parameter of any form. *)
Inductive final_part : str -> Prop :=
| fp_none : final_part []
| fp_slash : final_part "/"
| fp_param s : param_token true s -> final_part ("/" ++ s).

Definition template_of (segs : list str) (tail : str) : str :=
  concat (map (app "/") segs) ++ tail.

(** * Further vocabulary *)

(** [text_match ic t w]: [w] is the text [t], letter case aside when [ic]. *)
Fixpoint text_match (ic : bool) (t w : str) : bool :=
  match t, w with
  | [], [] => true
  | a :: t', ch :: w' => char_match ic a ch && text_match ic t' w'
  | _, _ => false
  end.


(** ** The text of a parameter segment *)

(** [{name}], [{name*}], [{name*digits}], each with or without [?]:
    [multi] is [None] without a star and [Some digits] with one, the
    digits possibly none. *)
Definition multi_text (multi : option str) : str :=
  match multi with
  | None => []
  | Some digits => "*" ++ digits
  end.

Definition optional_text (optional : bool) : str :=
  if optional then "?" else [].

Definition token_text (name : str) (multi : option str) (optional : bool) : str :=
  "{" ++ name ++ multi_text multi ++ optional_text optional ++ "}".

(** The captures 1 to 4 of [paramRegex] on such a text. *)
Definition token_captures (name : str) (multi : option str) (optional : bool)
    : list (option str) :=
  [ Some name;
    match multi with Some _ => Some "*" | None => None end;
    match multi with Some ((_ :: _) as digits) => Some digits | _ => None end;
    if optional then Some "?" else None ].

Definition digits_ok (multi : option str) : Prop :=
  forall digits, multi = Some digits -> forallb is_digit digits = true.

(** [stops P y]: [y] does not go on with a character that has [P]. *)
Definition stops (P : ascii -> bool) (y : str) : Prop :=
  match y with
  | c :: _ => P c = false
  | [] => True
  end.

(** The fields that lines 180 to 183 read off a parameter text. *)
Definition token_isMulti (multi : option str) : bool :=
  match multi with Some _ => true | None => false end.

Definition token_multiCount (multi : option str) : option nat :=
  match multi with
  | Some ((_ :: _) as digits) => Some (N.to_nat (str_to_N digits))
  | _ => None
  end.

(** ** The pieces of an accepted path *)

(** The value of a parameter: runs joined by single separators, one run
    for a plain parameter, [multiCount] runs for a counted one, one or more
    for an uncounted multi-segment one. *)
Definition param_value (isMulti : bool) (multiCount : option nat) (v : str) : Prop :=
  exists runs,
    forallb is_run runs = true /\ v = join_slash runs /\
    (if isMulti then
       if truthy_count multiCount then length runs = count_of multiCount
       else 1 <= length runs
     else length runs = 1).

(** The piece of a path that one segment of the template stands for. *)
Definition segment_piece (router : RouterSettings) (segment : str) (w : str) : Prop :=
  match String_match segment paramRegex with
  | Some param =>
      (exists v,
         param_value (param_isMulti param) (param_multiCount param) v /\
         w = "/" ++ v) \/
      (absence_permitted (param_isMulti param) (param_multiCount param)
         (param_isOptional param) = true /\
       (w = "/" \/ (isTrailingSlashSensitive router = false /\ w = [])))
  | None =>
      match segment with
      | [] => w = "/" \/ (isTrailingSlashSensitive router = false /\ w = [])
      | _ :: _ => text_match (negb (isCaseSensitive router)) ("/" ++ segment) w = true
      end
  end.

(** ** Octets of a template *)

Definition all_ascii : list ascii := map ascii_of_nat (seq 0 256).

(** The character that the octet [%h1h2] stands for. *)
Definition octet_of (h1 h2 : ascii) : option ascii :=
  match hex_val h1, hex_val h2 with
  | Some x, Some y => Some (ascii_of_N (16 * x + y))
  | _, _ => None
  end.

(** An octet, written with upper-case digits, of a character that is legal
    as it is. *)
Definition needless_octet (h1 h2 : ascii) : bool :=
  is_hex h1 && is_hex h2 &&
  match octet_of h1 h2 with
  | Some c => is_legal c
  | None => false
  end.

(** [validatePathEncodedRegex] finds the text [%h1h2]. *)
Definition encoded_pair (h1 h2 : ascii) : bool :=
  negb (is_null (RegExp_exec validatePathEncodedRegex ["%"%char; h1; h2])).

(** ** The captures of an accepted path *)

(** What the group of a parameter holds when the parameter stands for the
    piece [w]: the text after the separator, [undefined] when there is
    none. *)
Definition piece_capture (w : str) : option str :=
  match w with
  | _ :: c :: v => Some (c :: v)
  | _ => None
  end.

Definition segment_captures (segment w : str) : list (option str) :=
  match String_match segment paramRegex with
  | Some _ => [piece_capture w]
  | None => []
  end.

(** The captures for the segments of a template and the pieces of a path,
    one for each parameter, from left to right. *)
Definition captures_of (segments pieces : list str) : list (option str) :=
  flat_map (fun sw => segment_captures (fst sw) (snd sw)) (combine segments pieces).

(** * The options of a route

    The part of the constructor that goes over the options (lines 29 to
    111 and 115 to 135).  The values of the options are [undefined],
    booleans, strings, functions and plain objects; [config] is the object
    that line 34 builds, with [pre] an array when it is given, and
    [server.settings.strategies] a plain object when it is given.  What
    [Catbox], [Proxy], [Files], [Docs] and [Views] do with the result is
    outside [lib/route.js]. *)

#[warnings="-register-all"] Inductive value : Type :=
| VUndefined
| VBool (b : bool)
| VString (s : str)
| VFunction (text : str) (props : list (str * value))
| VObject (props : list (str * value)).

(** [!!v] *)
Definition ToBoolean (v : value) : bool :=
  match v with
  | VUndefined => false
  | VBool b => b
  | VString s => negb (length s =? 0)
  | VFunction _ _ | VObject _ => true
  end.

Definition typeof (v : value) : str :=
  match v with
  | VUndefined => "undefined"
  | VBool _ => "boolean"
  | VString _ => "string"
  | VFunction _ _ => "function"
  | VObject _ => "object"
  end.

(** The text that [+] joins to a message. *)
Definition ToString (v : value) : str :=
  match v with
  | VUndefined => "undefined"
  | VBool true => "true"
  | VBool false => "false"
  | VString s => s
  | VFunction text _ => text
  | VObject _ => "[object Object]"
  end.

(** [v.k], for the names this file reads, none of which is inherited. *)
Definition Get (v : value) (k : str) : value :=
  match v with
  | VFunction _ props | VObject props =>
      match obj_get props k with
      | Some x => x
      | None => VUndefined
      end
  | _ => VUndefined
  end.

(** [v.k = x]; on a boolean or a string the assignment does nothing (the
    file is not in strict mode).  The constructor assigns to values that it
    has found truthy, never to [undefined]. *)
Definition Put (v : value) (k : str) (x : value) : value :=
  match v with
  | VFunction text props => VFunction text (obj_set props k x)
  | VObject props => VObject (obj_set props k x)
  | _ => v
  end.

(** [a || b] *)
Definition or_else (a b : value) : value := if ToBoolean a then a else b.

(** [v === 's'] *)
Definition is_string (v : value) (s : str) : bool :=
  match v with
  | VString t => str_eqb t s
  | _ => false
  end.

(** [list.indexOf(v) !== -1], for a list of strings. *)
Definition among (v : value) (strings : list str) : bool :=
  existsb (is_string v) strings.

(** [o.hasOwnProperty(k)] on a plain object. *)
Definition hasOwnProperty (o : jsobj value) (k : str) : bool :=
  existsb (fun kv => str_eqb (fst kv) k) o.

(** A truth value as an operand of [^]. *)
Definition bit (b : bool) : N := if b then 1%N else 0%N.

(** A number as a condition. *)
Definition nonzero (n : N) : bool := negb (n =? 0)%N.

Record Config : Type := mkConfig {
  config_handler : value;
  config_validate : value;
  config_payload : value;
  config_auth : value;
  config_cache : value;
  config_pre : option (list value)
}.

(** The options that the constructor reads beside [config]. *)
Record Settings : Type := mkSettings {
  settings_path : str;
  settings_method : str;
  settings_handler : value
}.

Record Server : Type := mkServer {
  server_settings_auth : value;
  server_settings_strategies : option (jsobj value);
  server_auth : value;
  server_settings_router : RouterSettings
}.

(** Lines 37 to 40: the handler of the route. *)
Definition handler_marks (handler : value) : list bool :=
  [ ToBoolean (Get handler "proxy"); ToBoolean (Get handler "file");
    ToBoolean (Get handler "directory"); ToBoolean (Get handler "docs");
    ToBoolean (Get handler "view") ].

Definition object_marks_xor (handler : value) : N :=
  N.lxor (N.lxor (N.lxor (N.lxor
    (bit (ToBoolean (Get handler "proxy")))
    (bit (ToBoolean (Get handler "file"))))
    (bit (ToBoolean (Get handler "directory"))))
    (bit (ToBoolean (Get handler "docs"))))
    (bit (ToBoolean (Get handler "view"))).

Definition resolve_handler (settings_handler config_handler : value)
    : completion value :=
  assert (nonzero (N.lxor (bit (ToBoolean settings_handler))
                          (bit (ToBoolean config_handler))))
    "Handler must appear once and only once" ;;;
  let handler := or_else config_handler settings_handler in
  assert (nonzero
            (N.lxor (N.lxor (N.lxor (N.lxor (N.lxor
               (bit (str_eqb (typeof handler) "function"))
               (bit (ToBoolean (Get handler "proxy"))))
               (bit (ToBoolean (Get handler "file"))))
               (bit (ToBoolean (Get handler "directory"))))
               (bit (ToBoolean (Get handler "docs"))))
               (bit (ToBoolean (Get handler "view")))))
    "Handler must be a function or an object with a proxy, docs, file, directory or view" ;;;
  Normal handler.

(** Lines 45 to 50: [validate] and [payload] after the checks. *)
Definition payload_config (this_method : str) (validate payload : value)
    : completion (value * value) :=
  let validate := or_else validate (VObject []) in
  assert (negb (ToBoolean (Get validate "schema"))
          || negb (ToBoolean payload)
          || is_string payload "parse")
    "Route payload must be set to 'parse' when schema validation enabled" ;;;
  let payload :=
    or_else payload
      (if ToBoolean (Get validate "schema")
          || str_eqb this_method "post" || str_eqb this_method "put"
       then VString "parse" else VString "stream") in
  assert (among payload ["stream"; "raw"; "parse"])
    ("Unknown route payload mode: " ++ ToString payload) ;;;
  Normal (validate, payload).

(** Lines 54 to 68: [auth] after the checks. *)
Definition auth_config (server : Server) (auth : value) : completion value :=
  let auth := or_else auth (VObject []) in
  let auth :=
    Put auth "mode"
      (or_else (Get auth "mode")
         (if ToBoolean (server_settings_auth server)
          then VString "required" else VString "none")) in
  let auth := Put auth "strategy" (or_else (Get auth "strategy") (VString "default")) in
  assert (among (Get auth "mode") ["required"; "optional"; "none"])
    ("Unknown authentication mode: " ++ ToString (Get auth "mode")) ;;;
  assert (is_string (Get auth "mode") "none"
          || ToBoolean (server_settings_auth server))
    "Route requires authentication but none configured" ;;;
  match server_settings_strategies server with
  | Some strategies =>
      (if str_eqb (typeof (server_auth server)) "undefined" then
         assert (negb (is_string (Get auth "mode") "none")
                 || ToBoolean (Get (VObject strategies) "default"))
           "Route has no default authentication strategy to fallback on"
       else Normal tt) ;;;
      assert (hasOwnProperty strategies (ToString (Get auth "strategy")))
        ("Unknown authentication strategy: " ++ ToString (Get auth "strategy"))
  | None => Normal tt
  end ;;;
  assert (is_string (Get auth "mode") "none"
          || negb (ToBoolean (Get auth "entity"))
          || among (Get auth "entity") ["user"; "app"; "any"])
    ("Unknown authentication entity type: " ++ ToString (Get auth "entity")) ;;;
  Normal auth.

(** Lines 76 to 79: [cache] as it is handed to [Catbox.Policy]. *)
Definition cache_config (this_method this_fingerprint : str) (cache : value)
    : completion value :=
  assert (negb (ToBoolean cache)
          || is_string (Get cache "mode") "none"
          || str_eqb this_method "get")
    "Only GET routes can use a cache" ;;;
  if ToBoolean cache then
    Normal (Put cache "segment"
              (or_else (Get cache "segment") (VString this_fingerprint)))
  else Normal cache.

(** Lines 99 to 111: the loop over [config.pre], [prerequisites] being the
    array built so far. *)
Fixpoint prerequisites_loop (items prerequisites : list value)
    : completion (list value) :=
  match items with
  | [] => Normal prerequisites
  | item :: rest =>
      let pre :=
        if str_eqb (typeof item) "object" then item
        else VObject [("method", item)] in
      assert (ToBoolean (Get pre "method")) "Prerequisite config missing method" ;;;
      assert (str_eqb (typeof (Get pre "method")) "function")
        "Prerequisite method must be a function" ;;;
      let pre := Put pre "mode" (or_else (Get pre "mode") (VString "serial")) in
      assert (is_string (Get pre "mode") "serial"
              || is_string (Get pre "mode") "parallel")
        ("Unknown prerequisite mode: " ++ ToString (Get pre "mode")) ;;;
      prerequisites_loop rest (prerequisites ++ [pre])
  end.

Definition route_prerequisites (pre : option (list value))
    : completion (list value) :=
  match pre with
  | Some items => prerequisites_loop items []
  | None => Normal []
  end.

(** Lines 115 to 135: the module that an object handler is handed to, with
    the options it receives. *)
Inductive handler_maker : Type :=
| KeepHandler
| MakeProxy (options : value)
| MakeFile (options : value)
| MakeDirectory (options : value)
| MakeDocs (options : value)
| MakeView (options : value).

Definition object_handler (handler : value) : completion handler_maker :=
  if str_eqb (typeof handler) "object" then
    assert (nonzero (object_marks_xor handler))
      "Object handler must include one and only one of proxy, file, directory, docs or view" ;;;
    if ToBoolean (Get handler "proxy") then Normal (MakeProxy (Get handler "proxy"))
    else if ToBoolean (Get handler "file") then Normal (MakeFile (Get handler "file"))
    else if ToBoolean (Get handler "directory") then
      Normal (MakeDirectory (Get handler "directory"))
    else if ToBoolean (Get handler "docs") then Normal (MakeDocs (Get handler "docs"))
    else if ToBoolean (Get handler "view") then Normal (MakeView (Get handler "view"))
    else Normal KeepHandler
  else Normal KeepHandler.

(** The route when line 80 is reached. *)
Record RouteOptions : Type := mkRouteOptions {
  this_method : str;
  this_path : str;
  this_config : Config;
  this_route : Route
}.

(** Lines 26 to 79 of a route made with [new], [config] being the object
    of line 34. *)
Definition Route_options (server : Server) (settings : Settings)
    (config : Config) : completion RouteOptions :=
  validatePath (settings_path settings) ;;;
  assert (negb (length (settings_method settings) =? 0))
    "Route options missing method" ;;;
  let method := toLowerCase (settings_method settings) in
  assert (negb (str_eqb method "head")) "Cannot add a HEAD route" ;;;
  handler <- resolve_handler (settings_handler settings) (config_handler config) ;;
  vp <- payload_config method (config_validate config) (config_payload config) ;;
  auth <- auth_config server (config_auth config) ;;
  route <- _generateRegex (server_settings_router server) (settings_path settings) ;;
  cache <- cache_config method (fingerprint route) (config_cache config) ;;
  Normal (mkRouteOptions method (settings_path settings)
            (mkConfig handler (fst vp) (snd vp) auth cache (config_pre config))
            route).

(** The number of conditions that hold. *)
Definition count_true (l : list bool) : nat := length (filter (fun b => b) l).

(** * Properties of the matcher *)

Lemma str_eqb_eq a b : str_eqb a b = true <-> a = b.
Proof.
  unfold str_eqb. destruct (list_eq_dec ascii_dec a b); split; congruence.
Qed.

Lemma set_cap_length i v c : length (set_cap i v c) = length c.
Proof.
  revert i; induction c as [|x c IH]; intros [|i]; simpl; auto.
Qed.

Lemma clear_caps_length n : forall i c, length (clear_caps i n c) = length c.
Proof.
  induction n as [|n IH]; intros i c; simpl; auto.
  rewrite set_cap_length. apply IH.
Qed.

Lemma set_cap_nth_other i j v c : i <> j -> nth j (set_cap i v c) None = nth j c None.
Proof.
  revert i j; induction c as [|x c IH]; intros [|i] [|j] H; simpl; auto;
    congruence.
Qed.

Lemma set_cap_nth_same i v c : i < length c -> nth i (set_cap i v c) None = v.
Proof.
  revert i; induction c as [|x c IH]; intros [|i] H; simpl in *; try lia; auto.
  apply IH; lia.
Qed.

Lemma clear_caps_nth_other n : forall i j c,
  j < i \/ i + n <= j -> nth j (clear_caps i n c) None = nth j c None.
Proof.
  induction n as [|n IH]; intros i j c H; simpl; auto.
  rewrite set_cap_nth_other by lia. apply IH. lia.
Qed.

Section Semantics.

Variable ic : bool.
Variable n0 : nat.

Create HintDb rx.
#[local] Hint Constructors Matches Lang : rx.

Lemma Matches_Lang r i x cap y capy : Matches ic n0 r i x cap y capy -> Lang ic n0 r x y.
Proof. induction 1; eauto with rx. Qed.

Lemma Lang_Matches r x y :
  Lang ic n0 r x y -> forall i cap, exists capy, Matches ic n0 r i x cap y capy.
Proof.
  induction 1 as [ | | | | | r1 r2 x y z _ IH1 _ IH2 | r1 r2 x y _ IH
                 | r1 r2 x y _ IH | r x y _ IH | r x y _ IH |
                 | min max r x y z Hmax _ IH1 Hlen _ IH2 ];
    intros i cap; try (eexists; eauto with rx; fail).
  - destruct (IH1 i cap) as [c1 M1].
    destruct (IH2 (i + ngroups r1) c1) as [c2 M2]. eauto with rx.
  - destruct (IH i cap) as [c1 M1]. eauto with rx.
  - destruct (IH (i + ngroups r1) cap) as [c1 M1]. eauto with rx.
  - destruct (IH (S i) cap) as [c1 M1]. eauto with rx.
  - destruct (IH i cap) as [c1 M1]. eauto with rx.
  - destruct (IH1 i (clear_caps i (ngroups r) cap)) as [c1 M1].
    destruct (IH2 i c1) as [c2 M2]. eauto with rx.
Qed.

(** A match consumes a prefix of the input. *)
Lemma Lang_suffix r x y : Lang ic n0 r x y -> exists w, x = w ++ y.
Proof.
  induction 1; try (exists []; reflexivity); try assumption.
  - exists [ch]; reflexivity.
  - exists [ch]; reflexivity.
  - destruct IHLang1 as [w1 ->], IHLang2 as [w2 ->].
    exists (w1 ++ w2). now rewrite app_assoc.
  - destruct IHLang1 as [w1 ->], IHLang2 as [w2 ->].
    exists (w1 ++ w2). now rewrite app_assoc.
Qed.

Lemma Lang_length r x y : Lang ic n0 r x y -> length y <= length x.
Proof.
  intros H. destruct (Lang_suffix H) as [w ->]. rewrite length_app. lia.
Qed.

Lemma Matches_caps_length r i x cap y capy :
  Matches ic n0 r i x cap y capy -> length capy = length cap.
Proof.
  induction 1; auto; try congruence.
  - rewrite set_cap_length. assumption.
  - rewrite IHMatches2, IHMatches1. apply clear_caps_length.
Qed.

(** Captures outside the groups of [r] are left as they were. *)
Lemma Matches_frame r i x cap y capy :
  Matches ic n0 r i x cap y capy ->
  forall j, j < i \/ i + ngroups r <= j -> nth j capy None = nth j cap None.
Proof.
  induction 1; intros j Hj; simpl in *; auto.
  - rewrite IHMatches2 by lia. apply IHMatches1. lia.
  - apply IHMatches. lia.
  - apply IHMatches. lia.
  - rewrite set_cap_nth_other by lia. apply IHMatches. lia.
  - rewrite IHMatches2 by lia. rewrite IHMatches1 by lia.
    apply clear_caps_nth_other. lia.
Qed.

(** *** Inversion *)

Lemma Matches_Seq_inv r1 r2 i x cap z capz :
  Matches ic n0 (Seq r1 r2) i x cap z capz ->
  exists y capy,
    Matches ic n0 r1 i x cap y capy /\ Matches ic n0 r2 (i + ngroups r1) y capy z capz.
Proof. inversion 1; subst; eauto. Qed.

Lemma Matches_Bol_inv i x cap y capy :
  Matches ic n0 Bol i x cap y capy -> y = x /\ capy = cap /\ length x = n0.
Proof. inversion 1; subst; auto. Qed.

Lemma Matches_Eol_inv i x cap y capy :
  Matches ic n0 Eol i x cap y capy -> x = [] /\ y = [] /\ capy = cap.
Proof. inversion 1; subst; auto. Qed.

Lemma Matches_Chr_inv a i x cap y capy :
  Matches ic n0 (Chr a) i x cap y capy ->
  exists ch, x = ch :: y /\ char_match ic a ch = true /\ capy = cap.
Proof. inversion 1; subst; eauto. Qed.

Lemma Matches_Group_inv r i x cap y capy :
  Matches ic n0 (Group r) i x cap y capy ->
  exists capr,
    Matches ic n0 r (S i) x cap y capr /\ capy = set_cap i (Some (captured x y)) capr.
Proof. inversion 1; subst; eauto. Qed.

Lemma Lang_Empty_inv x y : Lang ic n0 Empty x y -> y = x.
Proof. inversion 1; subst; auto. Qed.

Lemma Lang_Chr_inv a x y :
  Lang ic n0 (Chr a) x y -> exists ch, x = ch :: y /\ char_match ic a ch = true.
Proof. inversion 1; subst; eauto. Qed.

Lemma Lang_Class_inv inv items x y :
  Lang ic n0 (Class inv items) x y ->
  exists ch, x = ch :: y /\ class_match ic inv items ch = true.
Proof. inversion 1; subst; eauto. Qed.

Lemma Lang_Seq_inv r1 r2 x z :
  Lang ic n0 (Seq r1 r2) x z -> exists y, Lang ic n0 r1 x y /\ Lang ic n0 r2 y z.
Proof. inversion 1; subst; eauto. Qed.

Lemma Lang_Alt_inv r1 r2 x y :
  Lang ic n0 (Alt r1 r2) x y -> Lang ic n0 r1 x y \/ Lang ic n0 r2 x y.
Proof. inversion 1; subst; auto. Qed.

Lemma Lang_Group_inv r x y : Lang ic n0 (Group r) x y -> Lang ic n0 r x y.
Proof. inversion 1; subst; auto. Qed.

Lemma Lang_NonCap_inv r x y : Lang ic n0 (NonCap r) x y -> Lang ic n0 r x y.
Proof. inversion 1; subst; auto. Qed.

Lemma Lang_Rep_inv min max r x z :
  Lang ic n0 (Rep min max r) x z ->
  (z = x /\ (min = 0 \/ max = Some 0)) \/
  (max <> Some 0 /\
   exists y, Lang ic n0 r x y /\ (min = 0 -> length y <> length x) /\
             Lang ic n0 (Rep (pred min) (option_map pred max) r) y z).
Proof. inversion 1; subst; [left | right]; eauto. Qed.

(** *** The matcher finds only what the relation allows *)

Lemma RepeatMatcher_sound (m : matcher) r i c :
  (forall d x cap z, m d x cap = Some z ->
     exists y capy, Matches ic n0 r i x cap y capy /\ d y capy = Some z) ->
  forall fuel min max x cap z,
    RepeatMatcher m i (ngroups r) c fuel min max x cap = Some z ->
    exists y capy, Matches ic n0 (Rep min max r) i x cap y capy /\ c y capy = Some z.
Proof.
  intros Hm. induction fuel as [|fuel IH]; intros min max x cap z H.
  - (* no turn is left: the continuation of an iteration always fails *)
    simpl in H.
    assert (Hd : forall z',
      m (fun (y : str) (_ : caps) =>
           if (min =? 0) && (length y =? length x) then None else None)
        x (clear_caps i (ngroups r) cap) = Some z' -> False).
    { intros z' Hz. apply Hm in Hz. destruct Hz as (y & capy & _ & Hz).
      destruct ((min =? 0) && (length y =? length x)); discriminate. }
    assert (Hdone : c x cap = Some z -> min = 0 \/ max = Some 0 ->
      exists y capy, Matches ic n0 (Rep min max r) i x cap y capy /\ c y capy = Some z)
      by (intros; exists x, cap; split; [apply M_RepStop|]; assumption).
    destruct max as [[|k]|]; [apply Hdone; auto | |];
      (destruct (Nat.eqb_spec min 0) as [E|E];
       [ match type of H with
         | match ?t with _ => _ end = _ => destruct t eqn:Ht
         end; [exfalso; eapply Hd; reflexivity | auto]
       | exfalso; eapply Hd; eauto ]).
  - simpl in H.
    assert (Hd : forall z',
      m (fun (y : str) (capy : caps) =>
           if (min =? 0) && (length y =? length x) then None
           else RepeatMatcher m i (ngroups r) c fuel (pred min)
                  (option_map pred max) y capy)
        x (clear_caps i (ngroups r) cap) = Some z' ->
      max <> Some 0 ->
      exists y capy, Matches ic n0 (Rep min max r) i x cap y capy /\ c y capy = Some z').
    { intros z' Hz Hmax. apply Hm in Hz. destruct Hz as (y & capy & HM & Hz).
      destruct ((min =? 0) && (length y =? length x)) eqn:Hg; [discriminate|].
      apply IH in Hz. destruct Hz as (y' & capy' & HR & Hc).
      exists y', capy'. split; [|exact Hc].
      apply M_RepStep with (y := y) (capy := capy); [exact Hmax | exact HM | | exact HR].
      intros E Hl. subst min. rewrite Hl, !Nat.eqb_refl in Hg. discriminate. }
    assert (Hdone : c x cap = Some z -> min = 0 \/ max = Some 0 ->
      exists y capy, Matches ic n0 (Rep min max r) i x cap y capy /\ c y capy = Some z)
      by (intros; exists x, cap; split; [apply M_RepStop|]; assumption).
    destruct max as [[|k]|]; [apply Hdone; auto | |];
      (destruct (Nat.eqb_spec min 0) as [E|E];
       [ match type of H with
         | match ?t with _ => _ end = _ => destruct t eqn:Ht
         end; [eapply Hd; [exact H | discriminate] | auto]
       | eapply Hd; [exact H | discriminate] ]).
Qed.

Lemma Matcher_sound r : forall i c x cap z,
  Matcher ic n0 r i c x cap = Some z ->
  exists y capy, Matches ic n0 r i x cap y capy /\ c y capy = Some z.
Proof.
  induction r as [ | a | inv items | | | r1 IH1 r2 IH2 | r1 IH1 r2 IH2
                 | r1 IH1 | r1 IH1 | min max r1 IH1 ];
    intros i c x cap z H; simpl in H.
  - eauto with rx.
  - destruct x as [|ch y]; [discriminate|].
    destruct (char_match ic a ch) eqn:E; [|discriminate]. eauto with rx.
  - destruct x as [|ch y]; [discriminate|].
    destruct (class_match ic inv items ch) eqn:E; [|discriminate]. eauto with rx.
  - destruct (Nat.eqb_spec (length x) n0); [|discriminate]. eauto with rx.
  - destruct x; [|discriminate]. eauto with rx.
  - apply IH1 in H. destruct H as (y & capy & M1 & H).
    apply IH2 in H. destruct H as (y' & capy' & M2 & H). eauto with rx.
  - destruct (Matcher ic n0 r1 i c x cap) eqn:E.
    + inversion H; subst. apply IH1 in E. destruct E as (y & capy & M1 & E).
      eauto with rx.
    + apply IH2 in H. destruct H as (y & capy & M1 & E'). eauto with rx.
  - apply IH1 in H. destruct H as (y & capy & M1 & H). eauto with rx.
  - apply IH1 in H. destruct H as (y & capy & M1 & H). eauto with rx.
  - eapply RepeatMatcher_sound; eauto.
Qed.

(** *** The matcher finds a match whenever the relation allows one *)

Lemma RepeatMatcher_complete (m : matcher) r i c :
  (forall x cap y capy, Matches ic n0 r i x cap y capy ->
     forall d, d y capy <> None -> m d x cap <> None) ->
  forall min max x cap y capy,
    Matches ic n0 (Rep min max r) i x cap y capy ->
    c y capy <> None ->
    forall fuel, min + length x <= fuel ->
      RepeatMatcher m i (ngroups r) c fuel min max x cap <> None.
Proof.
  intros Hm min max x cap y capy HM.
  remember (Rep min max r) as rr eqn:Err. revert min max Err.
  induction HM as [ | | | | | | | | |
                  | min' max' r' i x cap Hstop
                  | min' max' r' i x cap y capy z capz Hmax HM1 _ Hlen HM2 IH2 ];
    intros min max Err Hc fuel Hfuel; inversion Err; subst; clear Err.
  - destruct fuel as [|fuel]; simpl;
      (destruct max as [[|k]|]; [exact Hc | |];
       (destruct Hstop as [->|E]; [|discriminate]; simpl;
        match goal with
        | |- match ?t with _ => _ end <> None => destruct t
        end; [discriminate | exact Hc])).
  - assert (Hy : length y <= length x)
      by (eapply Lang_length, Matches_Lang; eauto).
    assert (Hd : forall fuel', pred min + length y <= fuel' ->
      RepeatMatcher m i (ngroups r) c fuel' (pred min) (option_map pred max) y capy
        <> None) by (intros; eapply IH2; eauto).
    destruct fuel as [|fuel].
    + exfalso. assert (min = 0) by lia. specialize (Hlen H). lia.
    + assert (Hstep :
        m (fun (y0 : str) (capy0 : caps) =>
             if (min =? 0) && (length y0 =? length x) then None
             else RepeatMatcher m i (ngroups r) c fuel (pred min)
                    (option_map pred max) y0 capy0)
          x (clear_caps i (ngroups r) cap) <> None).
      { eapply Hm; [exact HM1|]. 
        destruct (Nat.eqb_spec min 0) as [E|E]; simpl.
        - destruct (Nat.eqb_spec (length y) (length x)) as [E'|E'].
          + exfalso. apply (Hlen E E').
          + apply Hd. lia.
        - apply Hd. lia. }
      simpl. destruct max as [[|k]|]; [congruence | |];
        (destruct (min =? 0);
         [ match goal with
           | |- match ?t with _ => _ end <> None => destruct t
           end; [discriminate | congruence]
         | exact Hstep ]).
Qed.

Lemma Matcher_complete r i x cap y capy :
  Matches ic n0 r i x cap y capy ->
  forall c, c y capy <> None -> Matcher ic n0 r i c x cap <> None.
Proof.
  revert i x cap y capy.
  induction r as [ | a | inv items | | | r1 IH1 r2 IH2 | r1 IH1 r2 IH2
                 | r1 IH1 | r1 IH1 | min max r1 IH1 ];
    intros i x cap y capy HM c Hc; simpl.
  - inversion HM; subst. exact Hc.
  - inversion HM as [ | ? ? ? ? ? E | | | | | | | | | | ]; subst.
    rewrite E. exact Hc.
  - inversion HM as [ | | ? ? ? ? ? ? E | | | | | | | | | ]; subst.
    rewrite E. exact Hc.
  - apply Matches_Bol_inv in HM. destruct HM as (-> & -> & E).
    apply Nat.eqb_eq in E. rewrite E. exact Hc.
  - inversion HM; subst. exact Hc.
  - inversion HM; subst. eapply IH1; eauto.
  - inversion HM; subst.
    + destruct (Matcher ic n0 r1 i c x cap) eqn:E; [discriminate|].
      exfalso. eapply IH1; eauto.
    + destruct (Matcher ic n0 r1 i c x cap) eqn:E; [discriminate|].
      eapply IH2; eauto.
  - inversion HM; subst. eapply IH1; eauto.
  - inversion HM; subst. eapply IH1; eauto.
  - eapply RepeatMatcher_complete; eauto.
Qed.

End Semantics.

(** *** [exec] *)

Lemma exec_from_sound re n0 : forall x x0 y cap,
  exec_from re n0 x = Some (x0, y, cap) ->
  (exists w, x = w ++ x0) /\
  Matches (ignoreCase re) n0 (source re) 0 x0
    (repeat None (ngroups (source re))) y cap.
Proof.
  induction x as [|a x IH]; intros x0 y cap H; simpl in H.
  - destruct (Matcher _ _ _ _ _ _ _) as [[y' cap']|] eqn:E; [|discriminate].
    inversion H; subst. split; [exists []; reflexivity|].
    apply Matcher_sound in E. destruct E as (y1 & c1 & HM & E).
    inversion E; subst. exact HM.
  - destruct (Matcher _ _ _ _ _ _ _) as [[y' cap']|] eqn:E.
    + inversion H; subst. split; [exists []; reflexivity|].
      apply Matcher_sound in E. destruct E as (y1 & c1 & HM & E).
      inversion E; subst. exact HM.
    + apply IH in H. destruct H as [[w ->] HM]. split; [|exact HM].
      exists (a :: w). reflexivity.
Qed.

Lemma exec_from_complete re n0 x y cap :
  Matches (ignoreCase re) n0 (source re) 0 x
    (repeat None (ngroups (source re))) y cap ->
  exec_from re n0 x <> None.
Proof.
  intros HM.
  assert (E : Matcher (ignoreCase re) n0 (source re) 0
                (fun y cap => Some (y, cap)) x
                (repeat None (ngroups (source re))) <> None)
    by (eapply Matcher_complete; [exact HM | discriminate]).
  destruct x; simpl;
    destruct (Matcher _ _ _ _ _ _ _) as [[y' cap']|]; congruence.
Qed.

(** The array a match yields has one entry per group, after the whole
    match. *)
Lemma RegExp_exec_length re input mtch :
  RegExp_exec re input = Some mtch -> length mtch = S (ngroups (source re)).
Proof.
  unfold RegExp_exec. intros H.
  destruct (exec_from re (length input) input) as [[[x y] cap]|] eqn:E;
    [|discriminate].
  inversion H; subst. apply exec_from_sound in E. destruct E as [_ HM].
  apply Matches_caps_length in HM. simpl. rewrite HM, repeat_length. reflexivity.
Qed.

Lemma RegExp_exec_complete re input y :
  Lang (ignoreCase re) (length input) (source re) input y ->
  RegExp_exec re input <> None.
Proof.
  intros HL. unfold RegExp_exec.
  destruct (Lang_Matches HL 0 (repeat None (ngroups (source re)))) as [cap HM].
  apply exec_from_complete in HM.
  destruct (exec_from re (length input) input) as [[[x0 y0] c0]|];
    [discriminate | congruence].
Qed.

Lemma exec_anchored R ic g input mtch :
  RegExp_exec (mkRegExp (anchored R) ic g) input = Some mtch ->
  exists cap,
    mtch = Some input :: cap /\
    Matches ic (length input) R 0 input (repeat None (ngroups R)) [] cap.
Proof.
  unfold RegExp_exec. intros H.
  destruct (exec_from _ _ _) as [[[x y] cap]|] eqn:E; [|discriminate].
  inversion H; subst. apply exec_from_sound in E. simpl in E.
  destruct E as [[w Hw] HM].
  apply Matches_Seq_inv in HM. destruct HM as (x1 & c1 & HB & HS).
  apply Matches_Bol_inv in HB. destruct HB as (-> & -> & Hl).
  apply Matches_Seq_inv in HS. destruct HS as (x2 & c2 & HR & HE).
  apply Matches_Eol_inv in HE. destruct HE as (-> & -> & ->).
  assert (w = []).
  { destruct w; [reflexivity|].
    rewrite Hw, length_app in Hl; simpl in Hl; lia. }
  subst w. simpl in *. subst x. rewrite Nat.add_0_r in HR.
  eexists. split; [|exact HR].
  unfold captured. simpl. rewrite Nat.sub_0_r, firstn_all. reflexivity.
Qed.

Lemma exec_anchored_iff R ic g input :
  RegExp_exec (mkRegExp (anchored R) ic g) input <> None <->
  Lang ic (length input) R input [].
Proof.
  split.
  - intros H. destruct (RegExp_exec _ input) as [mtch|] eqn:E; [|congruence].
    apply exec_anchored in E. destruct E as (cap & _ & HM).
    eapply Matches_Lang; eauto.
  - intros HL. apply RegExp_exec_complete with (y := []). simpl.
    unfold anchored. eapply L_Seq; [apply L_Bol; reflexivity|].
    eapply L_Seq; [exact HL | apply L_Eol].
Qed.

(** * Properties of the built-ins *)

Lemma obj_get_None_notin {V} (o : jsobj V) k :
  obj_get o k = None <-> ~ In k (map fst o).
Proof.
  induction o as [|[k' v] o IH]; simpl.
  - tauto.
  - destruct (str_eqb k' k) eqn:E.
    + apply str_eqb_eq in E. split; [discriminate | intros H; exfalso; auto].
    + assert (k' <> k) by (intros E'; apply str_eqb_eq in E'; congruence).
      rewrite IH. tauto.
Qed.

Lemma obj_set_new {V} (o : jsobj V) k v :
  ~ In k (map fst o) -> obj_set o k v = o ++ [(k, v)].
Proof.
  induction o as [|[k' v'] o IH]; simpl; intros H; [reflexivity|].
  destruct (str_eqb k' k) eqn:E.
  - apply str_eqb_eq in E. exfalso; auto.
  - rewrite IH by tauto. reflexivity.
Qed.

Lemma obj_get_set_same {V} (o : jsobj V) k v : obj_get (obj_set o k v) k = Some v.
Proof.
  induction o as [|[k' v'] o IH]; simpl.
  - assert (E : str_eqb k k = true) by now apply str_eqb_eq. now rewrite E.
  - destruct (str_eqb k' k) eqn:E; simpl; rewrite E; auto.
Qed.

Lemma obj_get_set_other {V} (o : jsobj V) k k' v :
  k <> k' -> obj_get (obj_set o k v) k' = obj_get o k'.
Proof.
  intros Hk. induction o as [|[k0 v0] o IH]; simpl.
  - destruct (str_eqb k k') eqn:E; [apply str_eqb_eq in E; congruence | reflexivity].
  - destruct (str_eqb k0 k) eqn:E; simpl.
    + apply str_eqb_eq in E. subst k0.
      destruct (str_eqb k k') eqn:E'; [apply str_eqb_eq in E'; congruence | reflexivity].
    + destruct (str_eqb k0 k'); auto.
Qed.

Lemma insert_key_perm x l : Permutation (insert_key x l) (x :: l).
Proof.
  induction l as [|y l IH]; simpl; [reflexivity|].
  destruct (fst x <=? fst y)%N; [reflexivity|].
  rewrite IH. apply perm_swap.
Qed.

Lemma sort_keys_perm l : Permutation (sort_keys l) l.
Proof.
  induction l as [|x l IH]; simpl; [reflexivity|].
  rewrite insert_key_perm. now constructor.
Qed.

Lemma index_keys_snd ks :
  map snd (index_keys ks) = filter is_array_index ks.
Proof.
  induction ks as [|k ks IH]; simpl; [reflexivity|].
  unfold is_array_index at 1. destruct (array_index k); simpl; now rewrite IH.
Qed.

Lemma filter_partition_perm {A} (f : A -> bool) l :
  Permutation (filter f l ++ filter (fun x => negb (f x)) l) l.
Proof.
  induction l as [|x l IH]; simpl; [reflexivity|].
  destruct (f x); simpl.
  - now constructor.
  - rewrite <- Permutation_middle. now constructor.
Qed.

(** [Object.keys] lists every own name once. *)
Lemma Object_keys_perm {V} (o : jsobj V) : Permutation (Object_keys o) (map fst o).
Proof.
  unfold Object_keys.
  rewrite (Permutation_map snd (sort_keys_perm (index_keys (map fst o)))).
  rewrite index_keys_snd. apply filter_partition_perm.
Qed.

(** Without array indices among the names, the order is that of creation. *)
Lemma Object_keys_no_index {V} (o : jsobj V) :
  Forall (fun k => is_array_index k = false) (map fst o) ->
  Object_keys o = map fst o.
Proof.
  unfold Object_keys. generalize (map fst o) as ks.
  induction ks as [|k ks IH]; intros H; [reflexivity|].
  inversion H as [|? ? Hk Hks]; subst. specialize (IH Hks).
  simpl. unfold is_array_index in Hk.
  destruct (array_index k) eqn:E; [discriminate|].
  unfold is_array_index at 1. rewrite E. simpl.
  simpl in IH. rewrite <- IH at 3.
  assert (Hn : index_keys ks = []).
  { clear -Hks. induction ks as [|k ks IH]; [reflexivity|].
    inversion Hks as [|? ? Hk Hks']; subst. simpl.
    unfold is_array_index in Hk. destruct (array_index k); [discriminate|].
    simpl. auto. }
  rewrite Hn. reflexivity.
Qed.

(** * Properties of [_generateRegex] *)

Lemma escapeRegex_ngroups segment : ngroups (escapeRegex segment) = 0.
Proof. induction segment; simpl; auto. Qed.

Lemma segmentRX_ngroups isMulti multiCount :
  ngroups (segmentRX isMulti multiCount) = 1.
Proof.
  unfold segmentRX. destruct isMulti; [destruct (truthy_count multiCount)|];
    reflexivity.
Qed.

Lemma paramRX_ngroups tso isMulti multiCount isOptional :
  ngroups (paramRX tso isMulti multiCount isOptional) = 1.
Proof.
  unfold paramRX.
  destruct (absence_permitted _ _ _); [destruct tso|]; simpl;
    apply segmentRX_ngroups.
Qed.

Lemma literalRX_ngroups tso segment : ngroups (literalRX tso segment) = 0.
Proof.
  destruct segment; simpl; [destruct tso; reflexivity|].
  apply escapeRegex_ngroups.
Qed.

(** [\w+] spans at least one character. *)
Lemma Lang_Plus_shorter ic n0 r x y :
  (forall x' y', Lang ic n0 r x' y' -> length y' < length x') ->
  Lang ic n0 (Plus r) x y -> length y < length x.
Proof.
  intros Hr H. apply Lang_Rep_inv in H.
  destruct H as [[_ [E|E]]|(_ & y' & H1 & _ & H2)]; try discriminate.
  apply Hr in H1. apply Lang_length in H2. lia.
Qed.

Lemma Lang_Class_shorter ic n0 inv items x y :
  Lang ic n0 (Class inv items) x y -> length y < length x.
Proof.
  intros H. apply Lang_Class_inv in H. destruct H as (ch & -> & _). simpl. lia.
Qed.

Lemma captured_nonempty (x y : str) : length y < length x -> captured x y <> [].
Proof.
  unfold captured. intros H E.
  apply (f_equal (@length ascii)) in E. rewrite length_firstn in E.
  simpl in E. lia.
Qed.

(** The name captured by [paramRegex] is never empty. *)
Lemma paramRegex_name segment param :
  String_match segment paramRegex = Some param ->
  property_name (index param 1) <> [].
Proof.
  unfold String_match. simpl. unfold RegExp_exec. intros H.
  destruct (exec_from _ _ _) as [[[x0 y] cap]|] eqn:E; [|discriminate].
  inversion H; subst. clear H. apply exec_from_sound in E.
  destruct E as [_ HM]. simpl in HM.
  apply Matches_Seq_inv in HM. destruct HM as (x1 & c1 & HB & HM).
  apply Matches_Bol_inv in HB. destruct HB as (-> & -> & _).
  apply Matches_Seq_inv in HM. destruct HM as (x2 & c2 & HC & HM).
  apply Matches_Chr_inv in HC. destruct HC as (ch & -> & _ & ->).
  apply Matches_Seq_inv in HM. destruct HM as (x3 & c3 & HG & HM).
  apply Matches_Group_inv in HG. destruct HG as (cr & HW & ->).
  simpl in HM.
  assert (Hlen : length cr = 4)
    by (apply Matches_caps_length in HW; exact HW).
  apply Matches_frame with (j := 0) in HM; [|left; lia].
  unfold index. simpl. rewrite HM.
  destruct cr as [|c0 cr]; [discriminate|]. simpl.
  apply captured_nonempty.
  apply Matches_Lang in HW.
  eapply Lang_Plus_shorter; [|exact HW].
  intros x' y'. apply Lang_Class_shorter.
Qed.

Lemma loop_body_adds tso st segment st' :
  loop_body tso st segment = Normal st' ->
  l_pathRX st' = Seq (l_pathRX st) (segment_pathRX tso segment) /\
  l_fingerprint st' = l_fingerprint st ++ segment_fingerprint segment.
Proof.
  unfold loop_body, segment_pathRX, segment_fingerprint. intros H.
  destruct (String_match segment paramRegex) as [param|].
  - destruct (get_truthy _ _); simpl in H; [discriminate|].
    inversion H; subst; simpl. auto.
  - inversion H; subst; simpl. auto.
Qed.

Lemma segment_pathRX_ngroups tso segment :
  ngroups (segment_pathRX tso segment) =
  match String_match segment paramRegex with Some _ => 1 | None => 0 end.
Proof.
  unfold segment_pathRX. destruct (String_match segment paramRegex).
  - apply paramRX_ngroups.
  - apply literalRX_ngroups.
Qed.

Lemma get_truthy_false_new (o : jsobj bool) k :
  Forall (fun kv => fst kv <> [] /\ snd kv = true) o ->
  get_truthy o k = false -> ~ In k (map fst o).
Proof.
  intros Ho H. apply obj_get_None_notin. unfold get_truthy in H.
  destruct (obj_get o k) as [v|] eqn:E; [|reflexivity].
  subst v. exfalso. clear -Ho E.
  induction o as [|[k' v'] o IH]; simpl in E; [discriminate|].
  inversion Ho as [|? ? [_ Hv] Ho']; subst. simpl in Hv.
  destruct (str_eqb k' k); [congruence | auto].
Qed.

Lemma loop_body_ok tso st segment st' :
  locals_ok st -> loop_body tso st segment = Normal st' -> locals_ok st'.
Proof.
  intros (Hnd & Hall & Hlen) H. unfold loop_body in H.
  destruct (String_match segment paramRegex) as [param|] eqn:E.
  - destruct (get_truthy (l_params st) (property_name (index param 1))) eqn:G;
      simpl in H; [discriminate|].
    inversion H; subst; clear H. unfold locals_ok; simpl.
    apply get_truthy_false_new in G; [|exact Hall].
    rewrite obj_set_new by exact G.
    rewrite map_app, length_app, paramRX_ngroups. simpl. repeat split.
    + apply NoDup_app; [exact Hnd | repeat constructor; simpl; tauto |].
      intros k Hk [<-|[]]. contradiction.
    + apply Forall_app. split; [exact Hall|]. repeat constructor; simpl.
      eapply paramRegex_name; eauto.
    + lia.
  - inversion H; subst; clear H. unfold locals_ok; simpl.
    rewrite literalRX_ngroups. repeat split; auto. lia.
Qed.

Lemma loop_ok tso segments : forall st st',
  locals_ok st -> loop tso segments st = Normal st' -> locals_ok st'.
Proof.
  induction segments as [|segment rest IH]; intros st st' Hok H; simpl in H.
  - inversion H; subst. exact Hok.
  - destruct (loop_body tso st segment) as [st1|] eqn:E; simpl in H;
      [|discriminate].
    eapply IH; [|exact H]. eapply loop_body_ok; eauto.
Qed.

Lemma _generateRegex_inv router this_path this :
  _generateRegex router this_path = Normal this ->
  exists st,
    loop (negb (isTrailingSlashSensitive router)) (tl (split_slash this_path))
      (mkLocals [] Empty "") = Normal st /\
    regexp this = mkRegExp (anchored (l_pathRX st)) (negb (isCaseSensitive router)) false /\
    params this = Object_keys (l_params st) /\
    fingerprint this =
      (if isCaseSensitive router then l_fingerprint st
       else toLowerCase (l_fingerprint st)).
Proof.
  unfold _generateRegex. intros H.
  destruct (loop _ _ _) as [st|] eqn:E; simpl in H; [|discriminate].
  exists st. destruct (isCaseSensitive router); inversion H; subst; simpl; auto.
Qed.

(** The route's parameter list has one distinct, non-empty name per group
    of the route's expression. *)
Lemma _generateRegex_params router this_path this :
  _generateRegex router this_path = Normal this ->
  NoDup (params this) /\
  Forall (fun k => k <> []) (params this) /\
  length (params this) = ngroups (source (regexp this)).
Proof.
  intros H. apply _generateRegex_inv in H.
  destruct H as (st & Hloop & -> & -> & _).
  apply loop_ok in Hloop;
    [|repeat split; simpl; auto; constructor].
  destruct Hloop as (Hnd & Hall & Hlen).
  pose proof (Object_keys_perm (l_params st)) as HP.
  repeat split.
  - eapply Permutation_NoDup; [symmetry; exact HP | exact Hnd].
  - eapply Permutation_Forall; [symmetry; exact HP|].
    apply Forall_map. eapply Forall_impl; [|exact Hall]. simpl. tauto.
  - rewrite (Permutation_length HP), length_map, Hlen. simpl. lia.
Qed.

(** * Properties of [match] *)

Lemma nth_error_nonempty (ps : list str) k :
  Forall (fun key => key <> []) ps -> k < length ps ->
  exists a key, nth_error ps k = Some (a :: key).
Proof.
  intros Hall Hk. destruct (nth_error ps k) as [key|] eqn:E.
  - rewrite Forall_forall in Hall. specialize (Hall key (nth_error_In _ _ E)).
    destruct key as [|a key]; [congruence|]. eauto.
  - apply nth_error_None in E. lia.
Qed.

(** A capture that cannot be decoded ends the loop with [return false]. *)
Lemma match_loop_throw ps mtch :
  Forall (fun key => key <> []) ps ->
  forall n i request j s e,
    1 <= i -> i - 1 + n <= length ps ->
    i <= j < i + n -> index mtch j = Some s -> decodeURIComponent s = Throw e ->
    fst (match_loop ps mtch n i request) = Some false.
Proof.
  intros Hall. induction n as [|n IH]; intros i request j s e Hi Hn Hj Hs He;
    [lia|].
  assert (Hk : i - 1 < length ps) by lia.
  simpl. destruct (nth_error_nonempty Hall Hk) as (a & key & ->).
  destruct (index mtch i) as [si|] eqn:Ei.
  - destruct (decodeURIComponent si) as [d|e'] eqn:Ed; simpl; [|reflexivity].
    assert (j <> i) by (intros ->; congruence).
    apply (IH (S i) _ j s e); [lia | lia | lia | exact Hs | exact He].
  - simpl. assert (j <> i) by (intros ->; congruence).
    apply (IH (S i) _ j s e); [lia | lia | lia | exact Hs | exact He].
Qed.

(** A loop that runs to its end has stored, name by name, the value of
    each capture. *)
Lemma match_loop_done ps mtch :
  NoDup ps -> Forall (fun key => key <> []) ps ->
  forall n i request b request',
    1 <= i -> i - 1 + n <= length ps ->
    match_loop ps mtch n i request = (b, request') ->
    b = Some false \/
    (b = None /\
     path request' = path request /\
     exists vs, length vs = n /\
       request_paramsArray request' = request_paramsArray request ++ vs /\
       (forall k, k < n -> exists key,
          nth_error ps (i - 1 + k) = Some key /\
          capture_value (index mtch (i + k)) (nth k vs JUndefined) /\
          obj_get (request_params request') key = Some (nth k vs JUndefined)) /\
       (forall key, (forall k, k < n -> nth_error ps (i - 1 + k) <> Some key) ->
          obj_get (request_params request') key = obj_get (request_params request) key)).
Proof.
  intros Hnd Hall. induction n as [|n IH]; intros i request b request' Hi Hn H.
  - simpl in H. inversion H; subst. right. repeat split.
    exists []. rewrite app_nil_r. repeat split; auto. intros k Hk; lia.
  - simpl in H.
    assert (Hi1 : i - 1 < length ps) by lia.
    destruct (nth_error_nonempty Hall Hi1) as (a & key & Ekey).
    rewrite Ekey in H.
    set (c := index mtch i) in *.
    destruct (match c with
              | Some s => v <- decodeURIComponent s;; Normal (JString v)
              | None => Normal JUndefined
              end) as [v|e] eqn:Ev; [|inversion H; auto].
    assert (Hv : capture_value c v).
    { destruct c as [sc|]; simpl in *.
      - destruct (decodeURIComponent sc) as [d|]; simpl in Ev; [|discriminate].
        inversion Ev; subst. eauto.
      - inversion Ev; reflexivity. }
    simpl in H. rewrite obj_get_set_same in H.
    apply IH in H; [|lia|lia].
    destruct H as [H|(Hb & Hp & vs & Hlen & Harr & Hvals & Hframe)]; [auto|].
    right. split; [exact Hb|]. split; [exact Hp|].
    simpl in Harr, Hframe. exists (v :: vs). split; [simpl; lia|]. split.
    { rewrite Harr, <- app_assoc. reflexivity. }
    split.
    + intros [|k] Hk.
      * exists (a :: key). replace (i - 1 + 0) with (i - 1) by lia.
        replace (i + 0) with i by lia. simpl. repeat split; auto.
        rewrite Hframe; [apply obj_get_set_same|].
        intros k Hk' E. rewrite <- Ekey in E.
        pose proof (proj1 (NoDup_nth_error ps) Hnd (S i - 1 + k) (i - 1)) as X.
        assert (S i - 1 + k = i - 1) by (apply X; [lia | exact E]). lia.
      * destruct (Hvals k) as (key' & E1 & E2 & E3); [lia|].
        exists key'. replace (i - 1 + S k) with (S i - 1 + k) by lia.
        replace (i + S k) with (S i + k) by lia. simpl. auto.
    + intros key' Hkey'. rewrite Hframe.
      * apply obj_get_set_other. intros E. apply (Hkey' 0); [lia|].
        replace (i - 1 + 0) with (i - 1) by lia.
        etransitivity; [exact Ekey | f_equal; exact E].
      * intros k Hk E. apply (Hkey' (S k)); [lia|].
        replace (i - 1 + S k) with (S i - 1 + k) by lia. exact E.
Qed.

Lemma index_Some_lt {A} (m : list (option A)) i v : index m i = Some v -> i < length m.
Proof.
  unfold index. intros H. destruct (Nat.lt_ge_cases i (length m)) as [|Hge]; auto.
  rewrite nth_overflow in H by exact Hge. discriminate.
Qed.

Lemma loop_names tso segments : forall st st',
  locals_ok st -> loop tso segments st = Normal st' ->
  map fst (l_params st') = map fst (l_params st) ++ declared_names segments.
Proof.
  induction segments as [|segment rest IH]; intros st st' Hok H; simpl in H.
  - inversion H; subst. simpl. now rewrite app_nil_r.
  - destruct (loop_body tso st segment) as [st1|] eqn:E; simpl in H;
      [|discriminate].
    pose proof (loop_body_ok _ _ Hok E) as Hok1.
    rewrite (IH _ _ Hok1 H). simpl. unfold loop_body in E.
    destruct Hok as (_ & Hall & _).
    destruct (String_match segment paramRegex) as [param|].
    + destruct (get_truthy (l_params st) (property_name (index param 1))) eqn:G;
        simpl in E; [discriminate|].
      inversion E; subst; simpl.
      apply get_truthy_false_new in G; [|exact Hall].
      rewrite obj_set_new by exact G. rewrite map_app, <- app_assoc. reflexivity.
    + inversion E; subst; simpl. reflexivity.
Qed.

(** ** Fingerprints *)

Lemma loop_fingerprint tso segments : forall st st',
  loop tso segments st = Normal st' ->
  l_fingerprint st' = l_fingerprint st ++ segments_fingerprint segments.
Proof.
  unfold segments_fingerprint.
  induction segments as [|segment rest IH]; intros st st' H; simpl in H.
  - inversion H; subst. simpl. now rewrite app_nil_r.
  - destruct (loop_body tso st segment) as [st1|] eqn:E; simpl in H;
      [|discriminate].
    rewrite (IH _ _ H). simpl. rewrite app_assoc. f_equal.
    apply (loop_body_adds _ _ _ E).
Qed.

Lemma fold_case_app router a b :
  fold_case router (a ++ b) = fold_case router a ++ fold_case router b.
Proof.
  unfold fold_case, toLowerCase. destruct (isCaseSensitive router); auto.
  apply map_app.
Qed.

Lemma _generateRegex_fingerprint router template this :
  _generateRegex router template = Normal this ->
  fingerprint this =
    fold_case router (segments_fingerprint (tl (split_slash template))).
Proof.
  intros H. apply _generateRegex_inv in H.
  destruct H as (st & Hloop & _ & _ & ->).
  apply loop_fingerprint in Hloop. simpl in Hloop. rewrite Hloop. reflexivity.
Qed.

Lemma same_shape_fingerprint s1 s2 :
  same_shape s1 s2 -> segment_fingerprint s1 = segment_fingerprint s2.
Proof.
  unfold same_shape, segment_fingerprint.
  destruct (String_match s1 paramRegex) as [p1|],
           (String_match s2 paramRegex) as [p2|]; try tauto.
  - intros (-> & -> & _). reflexivity.
  - intros ->. reflexivity.
Qed.

Lemma same_shapes_fingerprint l1 l2 :
  Forall2 same_shape l1 l2 ->
  segments_fingerprint l1 = segments_fingerprint l2.
Proof.
  unfold segments_fingerprint. induction 1 as [|s1 s2 l1 l2 Hs _ IH]; simpl.
  - reflexivity.
  - rewrite (same_shape_fingerprint _ _ Hs), IH. reflexivity.
Qed.

Lemma split_slash_no_slash t : Forall no_slash (split_slash t).
Proof.
  induction t as [|a t IH]; simpl.
  - repeat constructor. intros [].
  - destruct (Ascii.eqb_spec a "/").
    + constructor; [intros []| exact IH].
    + destruct (split_slash t) as [|h rest].
      * repeat constructor. intros [E|[]]. congruence.
      * inversion IH as [|? ? Hh Hrest]; subst. constructor; [|exact Hrest].
        intros [E|Hin]; [congruence | exact (Hh Hin)].
Qed.

Lemma toLower_slash a : toLower a = "/"%char -> a = "/"%char.
Proof.
  destruct a as [[] [] [] [] [] [] [] []]; vm_compute; congruence.
Qed.

Lemma toUpper_slash a : toUpper a = "/"%char -> a = "/"%char.
Proof.
  destruct a as [[] [] [] [] [] [] [] []]; vm_compute; congruence.
Qed.

Lemma fold_case_no_slash router w : no_slash w -> no_slash (fold_case router w).
Proof.
  unfold fold_case, toLowerCase, no_slash.
  destruct (isCaseSensitive router); auto.
  intros H Hin. apply in_map_iff in Hin. destruct Hin as (a & E & Ha).
  apply toLower_slash in E. subst a. exact (H Ha).
Qed.

Lemma segment_fingerprint_headed s : exists g, segment_fingerprint s = "/"%char :: g.
Proof.
  unfold segment_fingerprint.
  destruct (String_match s paramRegex) as [param|].
  - unfold paramFingerprint. destruct (param_isMulti param); [|eexists; reflexivity].
    destruct (param_multiCount param) as [[|n]|]; simpl; eexists; reflexivity.
  - eexists; reflexivity.
Qed.

Lemma segments_fingerprint_headed l : slash_headed (segments_fingerprint l).
Proof.
  destruct l as [|s l]; [left; reflexivity|]. right.
  unfold segments_fingerprint. simpl.
  destruct (segment_fingerprint_headed s) as [g ->]. eexists. reflexivity.
Qed.

Lemma fold_case_headed router g : slash_headed g -> slash_headed (fold_case router g).
Proof.
  unfold fold_case. destruct (isCaseSensitive router); auto.
  intros [->|[g' ->]]; [left | right; eexists]; reflexivity.
Qed.

(** Texts without a separator that are followed by the same kind of rest
    are equal when the wholes are. *)
Lemma no_slash_cancel : forall l1 l2 g1 g2,
  no_slash l1 -> no_slash l2 -> slash_headed g1 -> slash_headed g2 ->
  l1 ++ g1 = l2 ++ g2 -> l1 = l2.
Proof.
  unfold no_slash.
  induction l1 as [|a l1 IH]; intros [|b l2] g1 g2 H1 H2 Hg1 Hg2 E; simpl in *.
  - reflexivity.
  - exfalso. destruct Hg1 as [->|[g' ->]]; [discriminate|].
    inversion E; subst. auto.
  - exfalso. destruct Hg2 as [->|[g' ->]]; [discriminate|].
    inversion E; subst. auto.
  - inversion E; subst. f_equal.
    apply (IH l2 g1 g2); auto.
Qed.

(** ** The language of a route's expression *)

Lemma app_eq_self {A} (w y : list A) : w ++ y = y -> w = [].
Proof.
  intros H. apply (f_equal (@length A)) in H. rewrite length_app in H.
  destruct w; [reflexivity | simpl in H; lia].
Qed.

(** Without anchors, what an expression spans does not depend on where in
    the input it is tried, nor on what follows. *)
Lemma Lang_shift ic n0 n1 r x y :
  anchor_free r = true -> Lang ic n0 r x y ->
  forall w y', x = w ++ y -> Lang ic n1 r (w ++ y') y'.
Proof.
  intros Hfree HL.
  induction HL as [ x | a ch x Hc | inv items ch x Hc | x Hl |
                  | r1 r2 x y z H1 IH1 H2 IH2 | r1 r2 x y H1 IH1
                  | r1 r2 x y H1 IH1 | r x y H1 IH1 | r x y H1 IH1
                  | min max r x Hstop
                  | min max r x y z Hmax H1 IH1 Hlen H2 IH2 ];
    intros w y' E; simpl in Hfree; try discriminate.
  - symmetry in E. apply app_eq_self in E. subst w. constructor.
  - change (ch :: x) with ([ch] ++ x) in E. apply app_inv_tail in E. subst w.
    simpl. now constructor.
  - change (ch :: x) with ([ch] ++ x) in E. apply app_inv_tail in E. subst w.
    simpl. now constructor.
  - apply andb_prop in Hfree. destruct Hfree as [F1 F2].
    destruct (Lang_suffix H1) as [w1 E1], (Lang_suffix H2) as [w2 E2].
    assert (w = w1 ++ w2).
    { rewrite E1, E2, app_assoc in E. now apply app_inv_tail in E. }
    subst w. rewrite <- app_assoc.
    apply L_Seq with (y := w2 ++ y'); [apply IH1 | apply IH2]; auto.
  - apply andb_prop in Hfree. destruct Hfree as [F1 F2].
    apply L_AltL. now apply IH1.
  - apply andb_prop in Hfree. destruct Hfree as [F1 F2].
    apply L_AltR. now apply IH1.
  - apply L_Group. now apply IH1.
  - apply L_NonCap. now apply IH1.
  - symmetry in E. apply app_eq_self in E. subst w. now constructor.
  - destruct (Lang_suffix H1) as [w1 E1], (Lang_suffix H2) as [w2 E2].
    assert (w = w1 ++ w2).
    { rewrite E1, E2, app_assoc in E. now apply app_inv_tail in E. }
    subst w. rewrite <- app_assoc.
    apply L_RepStep with (y := w2 ++ y'); auto.
    intros Hmin. specialize (Hlen Hmin). rewrite E1 in Hlen.
    rewrite !length_app in *. lia.
Qed.

Lemma Lang_anywhere ic n0 n1 r x y :
  anchor_free r = true -> Lang ic n0 r x y -> Lang ic n1 r x y.
Proof.
  intros Hfree H. destruct (Lang_suffix H) as [w E]. rewrite E.
  apply (Lang_shift n1 Hfree H w y E).
Qed.

Lemma loop_pathRX tso segments : forall st st',
  loop tso segments st = Normal st' ->
  l_pathRX st' = fold_left (add_segment tso) segments (l_pathRX st).
Proof.
  induction segments as [|segment rest IH]; intros st st' H; simpl in H.
  - inversion H; reflexivity.
  - destruct (loop_body tso st segment) as [st1|] eqn:E; simpl in H;
      [|discriminate].
    rewrite (IH _ _ H). simpl. f_equal.
    apply (loop_body_adds _ _ _ E).
Qed.

Lemma escapeRegex_anchor_free segment : anchor_free (escapeRegex segment) = true.
Proof. induction segment; simpl; auto. Qed.

Lemma segment_pathRX_anchor_free tso segment :
  anchor_free (segment_pathRX tso segment) = true.
Proof.
  unfold segment_pathRX. destruct (String_match segment paramRegex) as [param|].
  - unfold paramRX, segmentRX.
    destruct (absence_permitted _ _ _), tso, (param_isMulti param),
      (truthy_count (param_multiCount param)); reflexivity.
  - unfold literalRX. destruct segment; [destruct tso; reflexivity|].
    simpl. apply escapeRegex_anchor_free.
Qed.

Lemma fold_anchor_free tso segments : forall r,
  anchor_free r = true ->
  anchor_free (fold_left (add_segment tso) segments r) = true.
Proof.
  induction segments as [|s l IH]; intros r H; simpl; auto.
  apply IH. simpl. rewrite H. apply segment_pathRX_anchor_free.
Qed.

Lemma segments_pathRX_anchor_free tso segments :
  anchor_free (segments_pathRX tso segments) = true.
Proof. apply fold_anchor_free. reflexivity. Qed.

Lemma Lang_fold ic n0 tso segments : forall R x z,
  Lang ic n0 (fold_left (add_segment tso) segments R) x z <->
  exists y, Lang ic n0 R x y /\ Lang ic n0 (segments_pathRX tso segments) y z.
Proof.
  unfold segments_pathRX.
  induction segments as [|s l IH]; intros R x z; simpl.
  - split.
    + intros H. exists z. split; [exact H | constructor].
    + intros (y & H & HE). apply Lang_Empty_inv in HE. now subst.
  - split.
    + intros H. apply IH in H. destruct H as (y & HS & HL).
      unfold add_segment in HS. apply Lang_Seq_inv in HS.
      destruct HS as (y1 & HR & Hs).
      exists y1. split; [exact HR|]. apply IH. exists y. split; [|exact HL].
      unfold add_segment. eapply L_Seq; [constructor | exact Hs].
    + intros (y1 & HR & H). apply IH in H. destruct H as (y & HS & HL).
      unfold add_segment in HS. apply Lang_Seq_inv in HS.
      destruct HS as (y0 & HE & Hs). apply Lang_Empty_inv in HE. subst y0.
      apply IH. exists y. split; [|exact HL].
      unfold add_segment. eapply L_Seq; eauto.
Qed.

Lemma Lang_segments_app ic n0 tso l1 l2 x z :
  Lang ic n0 (segments_pathRX tso (l1 ++ l2)) x z <->
  exists y, Lang ic n0 (segments_pathRX tso l1) x y /\
            Lang ic n0 (segments_pathRX tso l2) y z.
Proof.
  unfold segments_pathRX at 1. rewrite fold_left_app. apply Lang_fold.
Qed.

Lemma Lang_segments_cons ic n0 tso s l x z :
  Lang ic n0 (segments_pathRX tso (s :: l)) x z <->
  exists y, Lang ic n0 (segment_pathRX tso s) x y /\
            Lang ic n0 (segments_pathRX tso l) y z.
Proof.
  unfold segments_pathRX at 1. simpl. rewrite Lang_fold. unfold add_segment.
  split.
  - intros (y & HS & HL). apply Lang_Seq_inv in HS.
    destruct HS as (y0 & HE & Hs). apply Lang_Empty_inv in HE. subst y0. eauto.
  - intros (y & Hs & HL). exists y. split; [|exact HL].
    eapply L_Seq; [constructor | exact Hs].
Qed.

Lemma spans_Lang ic r w : spans ic r w <-> Lang ic (length w) r w [].
Proof. apply exec_anchored_iff. Qed.

Lemma spans_shift ic n0 r w y :
  anchor_free r = true -> (spans ic r w <-> Lang ic n0 r (w ++ y) y).
Proof.
  intros Hfree. rewrite spans_Lang. split; intros H.
  - apply (Lang_shift n0 Hfree H w y). now rewrite app_nil_r.
  - rewrite <- (app_nil_r w) at 2.
    apply (Lang_shift (length w) Hfree H w []). reflexivity.
Qed.

Lemma Route_test_Lang router template this p :
  _generateRegex router template = Normal this ->
  (Route_test this p = true <->
   Lang (negb (isCaseSensitive router)) (length p)
     (segments_pathRX (negb (isTrailingSlashSensitive router))
        (template_segments template)) p []).
Proof.
  intros H. apply _generateRegex_inv in H.
  destruct H as (st & Hloop & Hre & _ & _).
  apply loop_pathRX in Hloop. simpl in Hloop.
  unfold Route_test. rewrite Hre, Hloop.
  fold (segments_pathRX (negb (isTrailingSlashSensitive router))
          (tl (split_slash template))).
  rewrite <- exec_anchored_iff with (g := false).
  unfold template_segments.
  destruct (RegExp_exec _ p); simpl; split; congruence.
Qed.

(** A path is accepted exactly when it splits into a part for the segments
    before a given one, a part for that segment, and a part for the
    segments after it. *)
Lemma Route_test_split router template this pre segment post p :
  _generateRegex router template = Normal this ->
  template_segments template = pre ++ segment :: post ->
  (Route_test this p = true <->
   exists a w b,
     p = a ++ w ++ b /\
     accepts_segments router pre a /\
     spans (negb (isCaseSensitive router))
       (segment_pathRX (negb (isTrailingSlashSensitive router)) segment) w /\
     accepts_segments router post b).
Proof.
  intros Hgen Hsegs. rewrite (@Route_test_Lang router template this p Hgen), Hsegs.
  unfold accepts_segments.
  set (ic := negb (isCaseSensitive router)).
  set (tso := negb (isTrailingSlashSensitive router)).
  rewrite Lang_segments_app. split.
  - intros (y1 & Hpre & Hrest). apply Lang_segments_cons in Hrest.
    destruct Hrest as (y2 & Hseg & Hpost).
    destruct (Lang_suffix Hpre) as [a Ea], (Lang_suffix Hseg) as [w Ew].
    exists a, w, y2. subst y1 p. split; [reflexivity|]. repeat split.
    + apply (@spans_shift ic (length (a ++ w ++ y2))
               (segments_pathRX tso pre) a (w ++ y2)
               (segments_pathRX_anchor_free tso pre)). exact Hpre.
    + apply (@spans_shift ic (length (a ++ w ++ y2))
               (segment_pathRX tso segment) w y2
               (segment_pathRX_anchor_free tso segment)). exact Hseg.
    + apply spans_Lang.
      exact (Lang_anywhere (length y2) (segments_pathRX_anchor_free tso post) Hpost).
  - intros (a & w & b & -> & Ha & Hw & Hb).
    exists (w ++ b). split.
    + apply (@spans_shift ic (length (a ++ w ++ b))
               (segments_pathRX tso pre) a (w ++ b)
               (segments_pathRX_anchor_free tso pre)). exact Ha.
    + apply Lang_segments_cons. exists b. split.
      * apply (@spans_shift ic (length (a ++ w ++ b))
                 (segment_pathRX tso segment) w b
                 (segment_pathRX_anchor_free tso segment)). exact Hw.
      * apply spans_Lang in Hb.
        exact (Lang_anywhere (length (a ++ w ++ b))
                 (segments_pathRX_anchor_free tso post) Hb).
Qed.

(** ** What the fragments span *)

Lemma join_slash_cons r rest :
  join_slash (r :: rest) = r ++ concat (map (app "/") rest).
Proof.
  revert r. induction rest as [|r' rest IH]; intros r.
  - simpl. now rewrite app_nil_r.
  - change (join_slash (r :: r' :: rest)) with (r ++ "/" ++ join_slash (r' :: rest)).
    rewrite IH. simpl. reflexivity.
Qed.

Lemma class_not_slash ic a : class_match ic true [CChar "/"] a = not_slash a.
Proof.
  destruct ic; [|unfold class_match, class_has, not_slash; simpl;
                  now rewrite orb_false_r].
  destruct a as [[] [] [] [] [] [] [] []]; reflexivity.
Qed.

Lemma char_slash ic ch : char_match ic "/" ch = true <-> ch = "/"%char.
Proof.
  destruct ic; unfold char_match.
  - rewrite Ascii.eqb_eq. split; [|intros ->; reflexivity].
    intros H. apply toUpper_slash. symmetry. exact H.
  - rewrite Ascii.eqb_eq. split; congruence.
Qed.

Lemma Lang_Star_class ic n0 inv items x y :
  Lang ic n0 (Star (Class inv items)) x y <->
  exists w, forallb (class_match ic inv items) w = true /\ x = w ++ y.
Proof.
  split.
  - intros H. remember (Star (Class inv items)) as r eqn:Er.
    induction H as [ | | | | | | | | |
                   | min max r' x Hstop
                   | min max r' x y z Hmax H1 _ Hlen H2 IH2 ];
      try discriminate.
    + exists []. auto.
    + unfold Star in Er. inversion Er; subst.
      apply Lang_Class_inv in H1. destruct H1 as (ch & -> & Hc).
      destruct (IH2 eq_refl) as (w & Hw & ->).
      exists (ch :: w). simpl. now rewrite Hc, Hw.
  - intros (w & Hw & ->). induction w as [|ch w IH]; simpl in *.
    + apply L_RepStop. auto.
    + apply andb_prop in Hw. destruct Hw as [Hc Hw].
      apply L_RepStep with (y := w ++ y); [discriminate | now constructor | |].
      * intros _. simpl. lia.
      * apply IH. exact Hw.
Qed.

Lemma Lang_Plus_class ic n0 inv items x y :
  Lang ic n0 (Plus (Class inv items)) x y <->
  exists w, w <> [] /\ forallb (class_match ic inv items) w = true /\ x = w ++ y.
Proof.
  split.
  - intros H. apply Lang_Rep_inv in H.
    destruct H as [[_ [E|E]]|(_ & y1 & H1 & _ & H2)]; try discriminate.
    apply Lang_Class_inv in H1. destruct H1 as (ch & -> & Hc).
    apply Lang_Star_class in H2. destruct H2 as (w & Hw & ->).
    exists (ch :: w). simpl. rewrite Hc, Hw. repeat split. discriminate.
  - intros (w & Hne & Hw & ->). destruct w as [|ch w]; [congruence|].
    simpl in Hw. apply andb_prop in Hw. destruct Hw as [Hc Hw].
    apply L_RepStep with (y := w ++ y); [discriminate | now constructor | |].
    + intros E; discriminate.
    + apply Lang_Star_class. eauto.
Qed.

Lemma forallb_same {A} (f g : A -> bool) :
  (forall a, f a = g a) -> forall l, forallb f l = forallb g l.
Proof.
  intros H l. induction l as [|a l IH]; simpl; [reflexivity|].
  now rewrite H, IH.
Qed.

Lemma is_run_spec ic w :
  is_run w = true <->
  w <> [] /\ forallb (class_match ic true [CChar "/"]) w = true.
Proof.
  unfold is_run. rewrite andb_true_iff, negb_true_iff, Nat.eqb_neq.
  rewrite (forallb_same _ _ (class_not_slash ic)).
  destruct w; simpl; split; intros [H1 H2]; split; auto; congruence.
Qed.

Lemma Lang_run ic n0 x y :
  Lang ic n0 run x y <-> exists w, is_run w = true /\ x = w ++ y.
Proof.
  unfold run. split.
  - intros H. apply Lang_NonCap_inv, Lang_Plus_class in H.
    destruct H as (w & H1 & H2 & ->). exists w. split; [|reflexivity].
    apply (is_run_spec ic). auto.
  - intros (w & Hw & ->). apply (is_run_spec ic) in Hw. destruct Hw.
    apply L_NonCap, Lang_Plus_class. eauto.
Qed.

Lemma Lang_slash ic n0 x y :
  Lang ic n0 (Chr "/") x y <-> x = "/"%char :: y.
Proof.
  split.
  - intros H. apply Lang_Chr_inv in H. destruct H as (ch & -> & Hc).
    apply char_slash in Hc. now subst.
  - intros ->. constructor. now apply char_slash.
Qed.

Lemma Lang_sep_run ic n0 x y :
  Lang ic n0 (NonCap (Seq (Chr "/") run)) x y <->
  exists w, is_run w = true /\ x = "/" ++ w ++ y.
Proof.
  split.
  - intros H. apply Lang_NonCap_inv, Lang_Seq_inv in H.
    destruct H as (y1 & H1 & H2). apply Lang_slash in H1. subst x.
    apply Lang_run in H2. destruct H2 as (w & Hw & ->). eauto.
  - intros (w & Hw & ->). apply L_NonCap.
    apply L_Seq with (y := w ++ y); [now apply Lang_slash|].
    apply Lang_run. eauto.
Qed.

Lemma Lang_Times_sep_run ic n0 : forall k x y,
  Lang ic n0 (Times k (NonCap (Seq (Chr "/") run))) x y <->
  exists runs, length runs = k /\ forallb is_run runs = true /\
               x = concat (map (app "/") runs) ++ y.
Proof.
  unfold Times. induction k as [|k IH]; intros x y.
  - split.
    + intros H. apply Lang_Rep_inv in H.
      destruct H as [[-> _]|(Hmax & _)]; [|congruence].
      exists []. auto.
    + intros (runs & Hl & _ & ->). destruct runs; [|discriminate].
      apply L_RepStop. auto.
  - split.
    + intros H. apply Lang_Rep_inv in H.
      destruct H as [[_ [E|E]]|(_ & y1 & H1 & _ & H2)]; try discriminate.
      simpl in H2. apply IH in H2. destruct H2 as (runs & Hl & Hr & ->).
      apply Lang_sep_run in H1. destruct H1 as (w & Hw & ->).
      exists (w :: runs). simpl. rewrite Hw, Hr, Hl. repeat split.
      now rewrite <- !app_assoc.
    + intros (runs & Hl & Hr & ->). destruct runs as [|w runs]; [discriminate|].
      simpl in *. apply andb_prop in Hr. destruct Hr as [Hw Hr].
      apply L_RepStep with (y := concat (map (app "/") runs) ++ y);
        [discriminate | | intros E; discriminate |].
      * apply Lang_sep_run. exists w. split; [exact Hw|].
        simpl. now rewrite <- !app_assoc.
      * simpl. apply IH. exists runs. repeat split; auto.
Qed.

(** The fragment of a parameter [{name*N}]: the separator, then [N] runs
    with one separator between neighbours. *)
Lemma Lang_segmentRX_fixed ic n0 N x y :
  1 <= N ->
  (Lang ic n0 (segmentRX true (Some N)) x y <->
   exists runs, length runs = N /\ forallb is_run runs = true /\
                x = "/" ++ join_slash runs ++ y).
Proof.
  intros HN. destruct N as [|k]; [lia|]. unfold segmentRX. simpl.
  rewrite Nat.sub_0_r. split.
  - intros H. apply Lang_Seq_inv in H. destruct H as (y1 & H1 & H2).
    apply Lang_slash in H1. subst x.
    apply Lang_Group_inv, Lang_Seq_inv in H2. destruct H2 as (y2 & H2 & H3).
    apply Lang_run in H2. destruct H2 as (w & Hw & ->).
    apply Lang_Times_sep_run in H3. destruct H3 as (runs & Hl & Hr & ->).
    exists (w :: runs). rewrite join_slash_cons. simpl. rewrite Hw, Hr, Hl.
    repeat split. now rewrite <- !app_assoc.
  - intros (runs & Hl & Hr & ->). destruct runs as [|w runs]; [discriminate|].
    rewrite join_slash_cons. simpl in Hl, Hr.
    apply andb_prop in Hr. destruct Hr as [Hw Hr]. injection Hl as Hl.
    apply L_Seq with (y := (w ++ concat (map (app "/") runs)) ++ y);
      [now apply Lang_slash|].
    apply L_Group.
    apply L_Seq with (y := concat (map (app "/") runs) ++ y).
    + apply Lang_run. exists w. split; [exact Hw|]. now rewrite <- app_assoc.
    + apply Lang_Times_sep_run. exists runs. auto.
Qed.

(** ** The expressions are those of the source *)

(** The three expressions written in the source, character by character. *)
Lemma validatePathRegex_text :
  show (source validatePathRegex) =
  "(^\/$)|(^(\/(([\w\!\$&'\(\)\*\+\,;\=\:@\-\.~]|%[A-F0-9]{2})+|(\{\w+(\*[1-9]\d*"
  ++ ")?\})))*(\/(\{\w+((\*([1-9]\d*" ++ ")?)|(\?))?\})?)?$)".
Proof. reflexivity. Qed.

Lemma validatePathEncodedRegex_text :
  show (source validatePathEncodedRegex) =
  "%(?:2[146-9A-E]|3[\dABD]|4[\dA-F]|5[\dAF]|6[1-9A-F]|7[\dAE])".
Proof. reflexivity. Qed.

Lemma paramRegex_text :
  show (source paramRegex) = "^\{(\w+)(?:(\*" ++ ")(\d+)?)?(\?)?\}$".
Proof. reflexivity. Qed.

Lemma escapeRegex_show segment : show (escapeRegex segment) = escapeRegex_text segment.
Proof.
  unfold escapeRegex_text. induction segment as [|a rest IH]; simpl; [reflexivity|].
  now rewrite IH.
Qed.

Lemma show_quantifier_times n :
  show_quantifier n (Some n) = "{" ++ decimal n ++ "}".
Proof.
  destruct n as [|[|k]]; unfold show_quantifier; try reflexivity.
  now rewrite Nat.eqb_refl.
Qed.

Lemma segmentRX_show isMulti multiCount :
  show (segmentRX isMulti multiCount) = segmentRX_text isMulti multiCount.
Proof.
  unfold segmentRX, segmentRX_text.
  destruct isMulti; [|reflexivity].
  destruct (truthy_count multiCount) eqn:E; [|reflexivity].
  unfold Times.
  change (show (Seq (Chr "/")
            (Group (Seq run (Rep (count_of multiCount - 1)
                               (Some (count_of multiCount - 1))
                               (NonCap (Seq (Chr "/") run)))))))
    with ("\/(" ++ ("(?:[^\/]+)" ++ "(?:\/(?:[^\/]+))"
            ++ show_quantifier (count_of multiCount - 1)
                 (Some (count_of multiCount - 1))) ++ ")").
  rewrite show_quantifier_times.
  repeat (first [rewrite <- app_assoc | progress simpl]). reflexivity.
Qed.

Lemma paramRX_show tso isMulti multiCount isOptional :
  show (paramRX tso isMulti multiCount isOptional)
  = paramRX_text tso isMulti multiCount isOptional.
Proof.
  unfold paramRX, paramRX_text.
  pose proof (segmentRX_show isMulti multiCount) as E.
  remember (segmentRX_text isMulti multiCount) as t eqn:Et.
  remember (segmentRX isMulti multiCount) as r eqn:Er.
  destruct (absence_permitted isMulti multiCount isOptional);
    [destruct tso|]; simpl; rewrite ?E;
    repeat (first [rewrite <- app_assoc | progress simpl]); reflexivity.
Qed.

Lemma literalRX_show tso segment :
  show (literalRX tso segment) = literalRX_text tso segment.
Proof.
  destruct segment as [|a rest]; [destruct tso; reflexivity|].
  unfold literalRX, literalRX_text.
  change (show (Seq (Chr "/") (escapeRegex (a :: rest))))
    with ("\/" ++ show (escapeRegex (a :: rest))).
  now rewrite escapeRegex_show.
Qed.

Lemma segment_pathRX_show tso segment :
  show (segment_pathRX tso segment) = segment_text tso segment.
Proof.
  unfold segment_pathRX, segment_text.
  destruct (String_match segment paramRegex);
    [apply paramRX_show | apply literalRX_show].
Qed.

Lemma fold_show tso segments : forall r,
  show (fold_left (add_segment tso) segments r)
  = show r ++ concat (map (segment_text tso) segments).
Proof.
  induction segments as [|s l IH]; intros r; simpl.
  - now rewrite app_nil_r.
  - rewrite IH. simpl. rewrite segment_pathRX_show, app_assoc. reflexivity.
Qed.

(** The expression of a compiled route reads as the string the source
    hands to [new RegExp]; case-insensitivity is the flag [i]. *)
Lemma _generateRegex_text router template this :
  _generateRegex router template = Normal this ->
  show (source (regexp this))
    = regexp_text (negb (isTrailingSlashSensitive router)) (template_segments template)
  /\ ignoreCase (regexp this) = negb (isCaseSensitive router)
  /\ global (regexp this) = false.
Proof.
  intros H. apply _generateRegex_inv in H.
  destruct H as (st & Hloop & -> & _ & _).
  apply loop_pathRX in Hloop. simpl in Hloop. simpl. rewrite Hloop.
  rewrite fold_show. simpl. split; [|split; reflexivity].
  unfold regexp_text, template_segments.
  repeat (first [rewrite <- app_assoc | progress simpl]). reflexivity.
Qed.

(** ** The validator accepts the grammar *)

Ltac norm_app := repeat (first [rewrite <- app_assoc | progress simpl]).

Section ValidatorLanguage.

Variable n0 : nat.

Local Abbreviation L := (Lang false n0).

Lemma V_chr a x : L (Chr a) (a :: x) x.
Proof. constructor. simpl. apply Ascii.eqb_refl. Qed.

Lemma V_opt_none r x : L (Opt r) x x.
Proof. apply L_RepStop. auto. Qed.

Lemma V_opt_some r x y : L r x y -> length y <> length x -> L (Opt r) x y.
Proof.
  intros H Hl. apply L_RepStep with (y := y); auto; [discriminate|].
  apply L_RepStop. auto.
Qed.

Lemma V_star_nil r x : L (Star r) x x.
Proof. apply L_RepStop. auto. Qed.

Lemma V_star_step r x y z :
  L r x y -> length y <> length x -> L (Star r) y z -> L (Star r) x z.
Proof. intros H Hl Hs. apply L_RepStep with (y := y); auto. discriminate. Qed.

Lemma V_plus_step r x y z : L r x y -> L (Star r) y z -> L (Plus r) x z.
Proof.
  intros H Hs. apply L_RepStep with (y := y); auto; [discriminate|].
  intros E; discriminate.
Qed.

Lemma V_name name rest : is_name name = true -> L (Plus Word) (name ++ rest) rest.
Proof.
  unfold is_name. rewrite andb_true_iff, negb_true_iff, Nat.eqb_neq.
  intros [Hne Hw]. apply Lang_Plus_class. exists name. repeat split.
  - destruct name; simpl in Hne; congruence.
  - rewrite <- Hw. apply forallb_same. intros a.
    unfold class_match, class_has. simpl. now rewrite orb_false_r.
Qed.

Lemma V_count count rest :
  is_count count = true -> L (Seq nonzero_class (Star Digit)) (count ++ rest) rest.
Proof.
  destruct count as [|c ds]; simpl; [discriminate|].
  rewrite andb_true_iff. intros [Hc Hd].
  apply L_Seq with (y := ds ++ rest).
  - constructor. unfold class_match, class_has. simpl. now rewrite Hc.
  - apply Lang_Star_class. exists ds. split; [|reflexivity].
    rewrite <- Hd. apply forallb_same. intros a.
    unfold class_match, class_has. simpl. now rewrite orb_false_r.
Qed.

Lemma V_vp_e_char a x : is_legal a = true -> L vp_e (a :: x) x.
Proof.
  intros H. apply L_Group, L_AltL. constructor.
  unfold class_match, class_has. simpl. exact H.
Qed.

Lemma V_hex h x : is_hex h = true -> L hex_class (h :: x) x.
Proof.
  intros H. constructor. unfold class_match, class_has. simpl.
  rewrite orb_false_r. exact H.
Qed.

Lemma V_vp_e_octet h1 h2 x :
  is_hex h1 = true -> is_hex h2 = true -> L vp_e ("%"%char :: h1 :: h2 :: x) x.
Proof.
  intros H1 H2. apply L_Group, L_AltR.
  apply L_Seq with (y := h1 :: h2 :: x); [apply V_chr|].
  apply L_RepStep with (y := h2 :: x);
    [discriminate | now apply V_hex | intros E; discriminate |].
  apply L_RepStep with (y := x);
    [discriminate | now apply V_hex | intros E; discriminate |].
  apply L_RepStop. auto.
Qed.

Lemma V_literal_star s rest : literal_chars s -> L (Star vp_e) (s ++ rest) rest.
Proof.
  induction 1 as [|a r Ha _ IH|h1 h2 r H1 H2 _ IH]; simpl.
  - apply V_star_nil.
  - apply V_star_step with (y := r ++ rest); [now apply V_vp_e_char | simpl; lia | exact IH].
  - apply V_star_step with (y := r ++ rest);
      [now apply V_vp_e_octet | simpl; lia | exact IH].
Qed.

Lemma V_literal s rest :
  s <> [] -> literal_chars s -> L (Plus vp_e) (s ++ rest) rest.
Proof.
  intros Hne H. destruct H as [|a r Ha Hr|h1 h2 r H1 H2 Hr]; [congruence| |]; simpl.
  - apply V_plus_step with (y := r ++ rest);
      [now apply V_vp_e_char | now apply V_literal_star].
  - apply V_plus_step with (y := r ++ rest);
      [now apply V_vp_e_octet | now apply V_literal_star].
Qed.

(** A token that may stand anywhere is matched by [g]. *)
Lemma V_vp_g_gen final s rest :
  param_token final s -> final = false -> L vp_g (s ++ rest) rest.
Proof.
  intros H Ef.
  destruct H as [final name Hn | final name count Hn Hc | name Hn | name Hn];
    try discriminate; unfold vp_g; simpl seqs; apply L_Group.
  - norm_app.
    apply L_Seq with (y := name ++ "}" ++ rest); [apply V_chr|].
    apply L_Seq with (y := "}" ++ rest); [now apply V_name|].
    apply L_Seq with (y := "}" ++ rest); [apply V_opt_none | apply V_chr].
  - norm_app.
    apply L_Seq with (y := name ++ "*" ++ count ++ "}" ++ rest); [apply V_chr|].
    apply L_Seq with (y := "*" ++ count ++ "}" ++ rest); [now apply V_name|].
    apply L_Seq with (y := "}" ++ rest); [|apply V_chr].
    apply V_opt_some; [|simpl; rewrite length_app; simpl; lia].
    unfold vp_h. simpl seqs. apply L_Group.
    apply L_Seq with (y := count ++ "}" ++ rest); [apply V_chr|].
    now apply V_count.
Qed.

Lemma V_vp_g s rest : param_token false s -> L vp_g (s ++ rest) rest.
Proof. intros H. now apply (V_vp_g_gen rest H). Qed.

(** A last token of any form is matched by [j]. *)
Lemma V_vp_j s rest : param_token true s -> L vp_j (s ++ rest) rest.
Proof.
  intros H.
  destruct H as [final name Hn | final name count Hn Hc | name Hn | name Hn];
    unfold vp_j; simpl seqs; apply L_Group.
  - norm_app.
    apply L_Seq with (y := name ++ "}" ++ rest); [apply V_chr|].
    apply L_Seq with (y := "}" ++ rest); [now apply V_name|].
    apply L_Seq with (y := "}" ++ rest); [apply V_opt_none | apply V_chr].
  - norm_app.
    apply L_Seq with (y := name ++ "*" ++ count ++ "}" ++ rest); [apply V_chr|].
    apply L_Seq with (y := "*" ++ count ++ "}" ++ rest); [now apply V_name|].
    apply L_Seq with (y := "}" ++ rest); [|apply V_chr].
    apply V_opt_some; [|simpl; rewrite length_app; simpl; lia].
    apply L_Group, L_AltL, L_Group.
    apply L_Seq with (y := count ++ "}" ++ rest); [apply V_chr|].
    apply V_opt_some.
    + apply L_Group. now apply V_count.
    + destruct count; [discriminate|]. simpl. rewrite !length_app. simpl. lia.
  - norm_app.
    apply L_Seq with (y := name ++ "?}" ++ rest); [apply V_chr|].
    apply L_Seq with (y := "?}" ++ rest); [now apply V_name|].
    apply L_Seq with (y := "}" ++ rest); [|apply V_chr].
    apply V_opt_some; [|simpl; lia].
    apply L_Group, L_AltR, L_Group. apply V_chr.
  - norm_app.
    apply L_Seq with (y := name ++ "*}" ++ rest); [apply V_chr|].
    apply L_Seq with (y := "*}" ++ rest); [now apply V_name|].
    apply L_Seq with (y := "}" ++ rest); [|apply V_chr].
    apply V_opt_some; [|simpl; lia].
    apply L_Group, L_AltL, L_Group.
    apply L_Seq with (y := "}" ++ rest); [apply V_chr | apply V_opt_none].
Qed.

Lemma V_vp_c s rest : inner_segment s -> L vp_c ("/" ++ s ++ rest) rest.
Proof.
  intros H. apply L_Group. apply L_Seq with (y := s ++ rest); [apply V_chr|].
  apply L_Group. destruct H as [[Hne Hl]|Hp].
  - apply L_AltL. now apply V_literal.
  - apply L_AltR. now apply V_vp_g.
Qed.

Lemma V_segments segs rest :
  Forall inner_segment segs ->
  L (Star vp_c) (concat (map (app "/") segs) ++ rest) rest.
Proof.
  induction 1 as [|s segs Hs _ IH]; simpl.
  - apply V_star_nil.
  - rewrite <- !app_assoc.
    apply V_star_step with (y := concat (map (app "/") segs) ++ rest).
    + apply (V_vp_c _ Hs).
    + simpl. rewrite !length_app. simpl. lia.
    + exact IH.
Qed.

Lemma V_final tail : final_part tail -> L (Seq (Opt vp_i) Eol) tail [].
Proof.
  intros H. apply L_Seq with (y := []); [|constructor].
  destruct H as [| |s Hp].
  - apply V_opt_none.
  - apply V_opt_some; [|simpl; lia]. apply L_Group.
    apply L_Seq with (y := []); [apply V_chr | apply V_opt_none].
  - apply V_opt_some; [|simpl; lia]. apply L_Group.
    apply L_Seq with (y := s); [apply V_chr|].
    destruct s as [|c s'].
    + inversion Hp; subst; discriminate.
    + apply V_opt_some; [|simpl; lia].
      rewrite <- (app_nil_r (c :: s')). now apply V_vp_j.
Qed.

End ValidatorLanguage.

Lemma validatePathRegex_accepts segs tail :
  Forall inner_segment segs -> final_part tail ->
  String_match (template_of segs tail) validatePathRegex <> None.
Proof.
  intros Hsegs Htail. unfold String_match. simpl.
  apply RegExp_exec_complete with (y := []). simpl.
  apply L_AltR. unfold vp_b. simpl seqs. apply L_Group.
  apply L_Seq with (y := template_of segs tail); [constructor; reflexivity|].
  apply L_Seq with (y := tail).
  - apply V_segments. exact Hsegs.
  - apply V_final. exact Htail.
Qed.

(** * The claims *)

(** C1, as stated, fails: with [isTrailingSlashSensitive] set, the route of
    [/user/{id?}] accepts [/user/], where a bare separator stands in for the
    absent parameter (and it rejects [/user]). *)
Lemma C1_counterexample :
  exists this,
    _generateRegex (mkRouter true true) "/user/{id?}" = Normal this /\
    Route_test this "/user/" = true /\
    Route_match this (mkRequest "/user/" [] []) =
      (Normal true, mkRequest "/user/" [("id", JUndefined)] [JUndefined]) /\
    Route_test this "/user" = false.
Proof.
  eexists. split; [vm_compute; reflexivity|]. repeat split.
Qed.

(** C1, as amended.  With [isTrailingSlashSensitive] set, a parameter whose
    absence is permitted (one marked [?], or a multi-segment one without a
    count) stands for either a bare separator [/] or the full fragment,
    separator and value; it never stands for nothing.  A path is accepted
    exactly when it is made of a part accepted for the segments before,
    such a piece, and a part accepted for the segments after. *)
Theorem C1_sensitive_unit_is_slash_or_fragment
    (router : RouterSettings) (template : str) (this : Route)
    (pre : list str) (segment : str) (post : list str)
    (param : list (option str)) :
  isTrailingSlashSensitive router = true ->
  _generateRegex router template = Normal this ->
  template_segments template = pre ++ segment :: post ->
  String_match segment paramRegex = Some param ->
  absence_permitted (param_isMulti param) (param_multiCount param)
    (param_isOptional param) = true ->
  forall p,
    Route_test this p = true <->
    exists a w b,
      p = a ++ w ++ b /\ w <> [] /\
      (w = "/" \/
       spans (negb (isCaseSensitive router))
         (segmentRX (param_isMulti param) (param_multiCount param)) w) /\
      accepts_segments router pre a /\ accepts_segments router post b.
Proof.
  intros Hsens Hgen Hsegs Hparam Habs p.
  rewrite (@Route_test_split router template this pre segment post p Hgen Hsegs).
  rewrite Hsens. simpl.
  assert (Hrx : segment_pathRX false segment =
                NonCap (Alt (NonCap (Chr "/"))
                          (NonCap (segmentRX (param_isMulti param)
                                     (param_multiCount param))))).
  { unfold segment_pathRX. rewrite Hparam. unfold paramRX. now rewrite Habs. }
  rewrite Hrx.
  set (ic := negb (isCaseSensitive router)).
  assert (Hseg : forall w,
    spans ic (segmentRX (param_isMulti param) (param_multiCount param)) w ->
    w <> []).
  { intros w H -> . apply spans_Lang in H. unfold segmentRX in H.
    apply Lang_Seq_inv in H. destruct H as (y & H & _).
    apply Lang_slash in H. discriminate. }
  split.
  - intros (a & w & b & -> & Ha & Hw & Hb).
    exists a, w, b. apply spans_Lang in Hw.
    apply Lang_NonCap_inv, Lang_Alt_inv in Hw.
    destruct Hw as [Hw|Hw]; apply Lang_NonCap_inv in Hw.
    + apply Lang_slash in Hw. subst w. repeat split; auto. discriminate.
    + apply spans_Lang in Hw. repeat split; auto.
  - intros (a & w & b & -> & _ & Hw & Ha & Hb).
    exists a, w, b. repeat split; auto.
    apply spans_Lang. apply L_NonCap. destruct Hw as [->|Hw].
    + apply L_AltL, L_NonCap. now apply Lang_slash.
    + apply L_AltR, L_NonCap. now apply spans_Lang.
Qed.

Lemma C1_witness :
  exists this,
    _generateRegex (mkRouter true true) "/user/{id?}/x" = Normal this /\
    Route_test this "/user//x" = true /\
    Route_test this "/user/42/x" = true.
Proof.
  eexists. split; [vm_compute; reflexivity|].
  pose proof (@C1_sensitive_unit_is_slash_or_fragment (mkRouter true true)
                "/user/{id?}/x" _ ["user"] "{id?}" ["x"]
                [Some "{id?}"; Some "id"; None; None; Some "?"]
                ltac:(reflexivity) ltac:(vm_compute; reflexivity)
                ltac:(reflexivity) ltac:(vm_compute; reflexivity)
                ltac:(reflexivity)) as H.
  split.
  - apply (H "/user//x"). exists "/user", "/", "/x".
    repeat split; try (vm_compute; congruence). left. reflexivity.
  - apply (H "/user/42/x"). exists "/user", "/42", "/x".
    repeat split; try (vm_compute; congruence). right. vm_compute. congruence.
Defined.

(** C2 fails on the code.  With the template [/{a}/{b}] and the path
    [/x/%E0], the first capture is decoded and stored, the second cannot be
    decoded, and [match] returns [false] with the first value still in the
    request. *)
Theorem C2_partial_result_is_left
    (old_params : jsobj jsval) (old_array : list jsval) :
  exists this,
    _generateRegex (mkRouter true true) "/{a}/{b}" = Normal this /\
    Route_match this (mkRequest "/x/%E0" old_params old_array) =
      (Normal false, mkRequest "/x/%E0" [("a", JString "x")] [JString "x"]).
Proof.
  eexists. split; [vm_compute; reflexivity|]. reflexivity.
Qed.




(** C4 fails on the code.  The names of [/{2}/{1}] are array indices, which
    [Object.keys] lists in ascending order: the list is [["1"; "2"]], and a
    match binds [1] to the first segment of the path. *)
Theorem C4_digit_names_are_reordered :
  exists this,
    _generateRegex (mkRouter true true) "/{2}/{1}" = Normal this /\
    declared_names (tl (split_slash "/{2}/{1}")) = ["2"; "1"] /\
    params this = ["1"; "2"] /\
    Route_match this (mkRequest "/a/b" [] []) =
      (Normal true,
       mkRequest "/a/b" [("1", JString "a"); ("2", JString "b")]
         [JString "a"; JString "b"]).
Proof.
  eexists. split; [vm_compute; reflexivity|]. repeat split.
Qed.

(** What does hold of the parameter list: when no name is an array index,
    the list is the names of the template from left to right. *)
Lemma params_in_declaration_order router template this :
  _generateRegex router template = Normal this ->
  Forall (fun k => is_array_index k = false)
    (declared_names (tl (split_slash template))) ->
  params this = declared_names (tl (split_slash template)).
Proof.
  intros Hgen Hno. apply _generateRegex_inv in Hgen.
  destruct Hgen as (st & Hloop & _ & -> & _).
  apply loop_names in Hloop; [|repeat split; simpl; auto; constructor].
  simpl in Hloop. rewrite <- Hloop in *. now apply Object_keys_no_index.
Qed.

(** C5.  When a route (compiled from any template, under any settings) is
    matched against a path that its expression accepts, and one of the
    captured substrings cannot be percent-decoded, [match] returns [false];
    it does not throw. *)
Theorem C5_undecodable_capture_is_no_match
    (router : RouterSettings) (template : str) (this : Route)
    (request : Request) (mtch : list (option str)) (i : nat) (s : str)
    (e : js_error) :
  _generateRegex router template = Normal this ->
  RegExp_exec (regexp this) (path request) = Some mtch ->
  1 <= i -> index mtch i = Some s ->
  decodeURIComponent s = Throw e ->
  fst (Route_match this request) = Normal false.
Proof.
  intros Hgen Hexec Hi Hs He.
  destruct (_generateRegex_params _ _ Hgen) as (_ & Hall & Hlen).
  pose proof (RegExp_exec_length _ _ Hexec) as Hm.
  pose proof (index_Some_lt _ _ Hs) as Hlt.
  unfold Route_match. rewrite Hexec.
  assert (Hpos : (0 <? length (params this)) = true) by (apply Nat.ltb_lt; lia).
  rewrite Hpos.
  pose proof (@match_loop_throw (params this) mtch Hall (length mtch - 1) 1
                (mkRequest (path request) [] []) i s e) as Hloop.
  destruct (match_loop _ _ _ _ _) as [[b|] request'];
    simpl in Hloop |- *.
  - assert (E : Some b = Some false).
    { apply Hloop; auto; lia. }
    inversion E. reflexivity.
  - assert (E : @None bool = Some false) by (apply Hloop; auto; lia).
    discriminate.
Qed.

Lemma C5_witness :
  exists this,
    _generateRegex (mkRouter true false) "/user/{id}" = Normal this /\
    fst (Route_match this (mkRequest "/user/%E0%A4%A" [] [])) = Normal false.
Proof.
  eexists. split; [vm_compute; reflexivity|].
  apply (@C5_undecodable_capture_is_no_match (mkRouter true false) "/user/{id}"
           _ (mkRequest "/user/%E0%A4%A" [] [])
           [Some "/user/%E0%A4%A"; Some "%E0%A4%A"] 1 "%E0%A4%A" URIError).
  - vm_compute; reflexivity.
  - vm_compute; reflexivity.
  - lia.
  - reflexivity.
  - vm_compute; reflexivity.
Defined.

(** C6, as stated, fails when the settings are case-insensitive: [/User/{id}]
    and [/user/{id}] differ in a literal segment and share a fingerprint. *)
Lemma C6_counterexample :
  exists r1 r2,
    _generateRegex (mkRouter false true) "/User/{id}" = Normal r1 /\
    _generateRegex (mkRouter false true) "/user/{id}" = Normal r2 /\
    template_segments "/User/{id}" = ["User"; "{id}"] /\
    template_segments "/user/{id}" = ["user"; "{id}"] /\
    "User" <> "user" /\
    fingerprint r1 = fingerprint r2.
Proof.
  eexists. eexists. split; [vm_compute; reflexivity|].
  split; [vm_compute; reflexivity|]. repeat split. discriminate.
Qed.

(** C6, as amended.  Under the same settings, two templates whose segments
    have the same shapes, one by one, get the same fingerprint whatever
    their parameter names; and two templates that have the same shapes up
    to a literal segment whose text differs -- differs in more than letter
    case when the settings are case-insensitive -- get different
    fingerprints. *)
Theorem C6_fingerprint_depends_on_shape_only
    (router : RouterSettings) (t1 t2 : str) (r1 r2 : Route) :
  _generateRegex router t1 = Normal r1 ->
  _generateRegex router t2 = Normal r2 ->
  (Forall2 same_shape (template_segments t1) (template_segments t2) ->
   fingerprint r1 = fingerprint r2) /\
  (forall pre1 l1 post1 pre2 l2 post2,
     template_segments t1 = pre1 ++ l1 :: post1 ->
     template_segments t2 = pre2 ++ l2 :: post2 ->
     Forall2 same_shape pre1 pre2 ->
     String_match l1 paramRegex = None ->
     String_match l2 paramRegex = None ->
     fold_case router l1 <> fold_case router l2 ->
     fingerprint r1 <> fingerprint r2).
Proof.
  intros H1 H2.
  rewrite (_generateRegex_fingerprint _ _ H1), (_generateRegex_fingerprint _ _ H2).
  fold (template_segments t1) (template_segments t2). split.
  - intros Hs. rewrite (same_shapes_fingerprint Hs). reflexivity.
  - intros pre1 l1 post1 pre2 l2 post2 E1 E2 Hpre Hl1 Hl2 Hne Hfp.
    apply Hne. clear Hne.
    assert (Hn1 : no_slash l1).
    { pose proof (split_slash_no_slash t1) as Hall.
      unfold template_segments in E1.
      destruct (split_slash t1) as [|h rest]; simpl in E1;
        [destruct pre1; discriminate|].
      inversion Hall as [|? ? _ Hrest]; subst.
      rewrite Forall_forall in Hrest. apply Hrest, in_elt. }
    assert (Hn2 : no_slash l2).
    { pose proof (split_slash_no_slash t2) as Hall.
      unfold template_segments in E2.
      destruct (split_slash t2) as [|h rest]; simpl in E2;
        [destruct pre2; discriminate|].
      inversion Hall as [|? ? _ Hrest]; subst.
      rewrite Forall_forall in Hrest. apply Hrest, in_elt. }
    rewrite E1, E2 in Hfp. unfold segments_fingerprint in Hfp.
    rewrite !map_app, !concat_app in Hfp. simpl in Hfp.
    fold (segments_fingerprint pre1) (segments_fingerprint pre2)
         (segments_fingerprint post1) (segments_fingerprint post2) in Hfp.
    rewrite (same_shapes_fingerprint Hpre) in Hfp.
    unfold segment_fingerprint in Hfp. rewrite Hl1, Hl2 in Hfp.
    unfold literalFingerprint in Hfp. rewrite !fold_case_app in Hfp.
    apply app_inv_head in Hfp.
    assert (Hs : fold_case router "/" = "/")
      by (unfold fold_case; destruct (isCaseSensitive router); reflexivity).
    rewrite Hs in Hfp. simpl in Hfp. inversion Hfp as [Hfp'].
    eapply no_slash_cancel; [| | | | exact Hfp'];
      auto using fold_case_no_slash, fold_case_headed, segments_fingerprint_headed.
Qed.

Lemma C6_witness :
  (exists r1 r2,
     _generateRegex (mkRouter true true) "/user/{id}" = Normal r1 /\
     _generateRegex (mkRouter true true) "/user/{name}" = Normal r2 /\
     fingerprint r1 = fingerprint r2) /\
  (exists r1 r2,
     _generateRegex (mkRouter true true) "/user/{id}" = Normal r1 /\
     _generateRegex (mkRouter true true) "/account/{id}" = Normal r2 /\
     fingerprint r1 <> fingerprint r2).
Proof.
  split.
  - eexists. eexists. split; [vm_compute; reflexivity|].
    split; [vm_compute; reflexivity|].
    apply (proj1 (@C6_fingerprint_depends_on_shape_only (mkRouter true true)
                    "/user/{id}" "/user/{name}" _ _
                    ltac:(vm_compute; reflexivity) ltac:(vm_compute; reflexivity))).
    repeat constructor; vm_compute; auto.
  - eexists. eexists. split; [vm_compute; reflexivity|].
    split; [vm_compute; reflexivity|].
    apply (proj2 (@C6_fingerprint_depends_on_shape_only (mkRouter true true)
                    "/user/{id}" "/account/{id}" _ _
                    ltac:(vm_compute; reflexivity) ltac:(vm_compute; reflexivity))
             [] "user" ["{id}"] [] "account" ["{id}"]).
    + reflexivity.
    + reflexivity.
    + constructor.
    + vm_compute; reflexivity.
    + vm_compute; reflexivity.
    + vm_compute. discriminate.
Defined.

(** C7.  In a route compiled from any template, a segment [{name*N}] with
    [N >= 1] stands for the separator followed by exactly [N] runs of
    characters other than [/], with one [/] between neighbours: a path is
    accepted exactly when it is made of a part accepted for the segments
    before, such a piece, and a part accepted for the segments after.
    For [/a/{p*2}]: [/a/x/y] matches with [p] bound to [x/y]; [/a/x] and
    [/a/x/y/z] do not match. *)
Theorem C7_fixed_count_matches_exactly_N_runs :
  (forall router template this pre segment post param N,
     _generateRegex router template = Normal this ->
     template_segments template = pre ++ segment :: post ->
     String_match segment paramRegex = Some param ->
     param_isMulti param = true ->
     param_multiCount param = Some N -> 1 <= N ->
     param_isOptional param = false ->
     forall p,
       Route_test this p = true <->
       exists a runs b,
         p = a ++ ("/" ++ join_slash runs) ++ b /\
         length runs = N /\ forallb is_run runs = true /\
         accepts_segments router pre a /\ accepts_segments router post b) /\
  (forall caseSensitive trailingSlashSensitive, exists this,
     _generateRegex (mkRouter caseSensitive trailingSlashSensitive) "/a/{p*2}"
       = Normal this /\
     Route_match this (mkRequest "/a/x/y" [] []) =
       (Normal true, mkRequest "/a/x/y" [("p", JString "x/y")] [JString "x/y"]) /\
     Route_test this "/a/x" = false /\
     Route_test this "/a/x/y/z" = false).
Proof.
  split.
  - intros router template this pre segment post param N
           Hgen Hsegs Hparam Hmulti Hcount HN Hopt p.
    rewrite (@Route_test_split router template this pre segment post p Hgen Hsegs).
    assert (Hrx : segment_pathRX (negb (isTrailingSlashSensitive router)) segment
                  = segmentRX true (Some N)).
    { unfold segment_pathRX. rewrite Hparam, Hmulti, Hcount, Hopt.
      unfold paramRX, absence_permitted.
      destruct N; [lia | reflexivity]. }
    rewrite Hrx. split.
    + intros (a & w & b & -> & Ha & Hw & Hb).
      apply spans_Lang, (Lang_segmentRX_fixed _ _ _ _ HN) in Hw.
      destruct Hw as (runs & Hl & Hr & Ew). rewrite app_nil_r in Ew. subst w.
      exists a, runs, b. auto.
    + intros (a & runs & b & -> & Hl & Hr & Ha & Hb).
      exists a, ("/" ++ join_slash runs), b. repeat split; auto.
      apply spans_Lang, (Lang_segmentRX_fixed _ _ _ _ HN).
      exists runs. rewrite app_nil_r. auto.
  - intros [] []; eexists; (split; [vm_compute; reflexivity|]);
      repeat split; vm_compute; reflexivity.
Qed.

Lemma C7_witness :
  exists this,
    _generateRegex (mkRouter true true) "/a/{p*2}/b" = Normal this /\
    Route_test this "/a/x/y/b" = true.
Proof.
  eexists. split; [vm_compute; reflexivity|].
  apply (proj1 C7_fixed_count_matches_exactly_N_runs (mkRouter true true)
           "/a/{p*2}/b" _ ["a"] "{p*2}" ["b"]
           [Some "{p*2}"; Some "p"; Some "*"; Some "2"; None] 2
           ltac:(vm_compute; reflexivity) ltac:(reflexivity)
           ltac:(vm_compute; reflexivity) ltac:(reflexivity)
           ltac:(reflexivity) ltac:(lia) ltac:(reflexivity) "/a/x/y/b").
  exists "/a", ["x"; "y"], "/b". repeat split; vm_compute; congruence.
Defined.



(** C9, as stated, fails: with [/user/{id?}] and the path [/user] the match
    succeeds and [id] is bound to [undefined], not to a string. *)
Lemma C9_counterexample :
  exists this request',
    _generateRegex (mkRouter true false) "/user/{id?}" = Normal this /\
    Route_match this (mkRequest "/user" [] []) = (Normal true, request') /\
    obj_get (request_params request') "id" = Some JUndefined /\
    request_paramsArray request' = [JUndefined].
Proof.
  eexists. eexists. split; [vm_compute; reflexivity|].
  split; [vm_compute; reflexivity|]. split; reflexivity.
Qed.

(** C9, as amended.  When [match] returns [true], every name of the
    route's parameter list is a property of [request.params]; its value is
    the decoded text of the capture at the same position, or [undefined]
    when that capture took no part in the match (an optional or unbounded
    parameter left out of the path); [request._paramsArray] holds the same
    values in the order of the list. *)
Theorem C9_match_stores_decoded_or_undefined
    (router : RouterSettings) (template : str) (this : Route)
    (request request' : Request) :
  _generateRegex router template = Normal this ->
  Route_match this request = (Normal true, request') ->
  exists mtch,
    RegExp_exec (regexp this) (path request) = Some mtch /\
    length (request_paramsArray request') = length (params this) /\
    forall k name, nth_error (params this) k = Some name ->
      capture_value (index mtch (S k)) (nth k (request_paramsArray request') JUndefined) /\
      obj_get (request_params request') name
        = Some (nth k (request_paramsArray request') JUndefined).
Proof.
  intros Hgen Hmatch.
  destruct (_generateRegex_params _ _ Hgen) as (Hnd & Hall & Hlen).
  unfold Route_match in Hmatch.
  destruct (RegExp_exec (regexp this) (path request)) as [mtch|] eqn:Hexec;
    [|inversion Hmatch].
  exists mtch. split; [reflexivity|].
  pose proof (RegExp_exec_length _ _ Hexec) as Hm.
  destruct (0 <? length (params this)) eqn:Hpos.
  - destruct (match_loop _ _ _ _ _) as [b r'] eqn:Hloop.
    apply (@match_loop_done (params this) mtch Hnd Hall) in Hloop; [|lia|lia].
    destruct Hloop as [->|(-> & _ & vs & Hvs & Harr & Hvals & _)];
      [inversion Hmatch|].
    inversion Hmatch; subst r'. simpl in Harr. rewrite Harr. split; [lia|].
    intros k name Hk.
    assert (Hlt : k < length mtch - 1).
    { assert (k < length (params this)) by (apply nth_error_Some; congruence). lia. }
    destruct (Hvals k Hlt) as (key & E1 & E2 & E3).
    replace (1 - 1 + k) with k in E1 by lia.
    assert (key = name) by congruence. subst key.
    replace (1 + k) with (S k) in E2 by lia. auto.
  - apply Nat.ltb_ge in Hpos. inversion Hmatch; subst. simpl.
    split; [lia|]. intros k name Hk.
    assert (k < length (params this)) by (apply nth_error_Some; congruence). lia.
Qed.

Lemma C9_witness :
  exists this request',
    _generateRegex (mkRouter true false) "/user/{id?}" = Normal this /\
    Route_match this (mkRequest "/user/42" [] []) = (Normal true, request') /\
    obj_get (request_params request') "id" = Some (JString "42").
Proof.
  eexists. eexists. split; [vm_compute; reflexivity|].
  split; [vm_compute; reflexivity|].
  destruct (@C9_match_stores_decoded_or_undefined (mkRouter true false)
              "/user/{id?}" _ (mkRequest "/user/42" [] []) _
              ltac:(vm_compute; reflexivity) ltac:(vm_compute; reflexivity))
    as (mtch & _ & _ & H).
  destruct (H 0 "id" ltac:(reflexivity)) as [_ E]. exact E.
Defined.

(** C10.  Without trailing-slash sensitivity the template [/] compiles to
    an expression that accepts [/] and also the empty path. *)
Theorem C10_root_accepts_empty_path (caseSensitive : bool) :
  exists this,
    _generateRegex (mkRouter caseSensitive false) "/" = Normal this /\
    source (regexp this) = anchored (Seq Empty (Opt (Chr "/"))) /\
    Route_test this "/" = true /\
    Route_test this "" = true.
Proof.
  destruct caseSensitive; eexists; (split; [vm_compute; reflexivity|]);
    repeat split; vm_compute; reflexivity.
Qed.

(** * Further properties *)

(** ** Which templates compile *)






(** ** What [paramRegex] takes for a parameter *)

Lemma Matches_NonCap_inv ic n0 r i x cap y capy :
  Matches ic n0 (NonCap r) i x cap y capy -> Matches ic n0 r i x cap y capy.
Proof. inversion 1; subst; auto. Qed.

Lemma Matches_Rep_inv ic n0 min max r i x cap z capz :
  Matches ic n0 (Rep min max r) i x cap z capz ->
  (z = x /\ capz = cap /\ (min = 0 \/ max = Some 0)) \/
  (max <> Some 0 /\
   exists y capy,
     Matches ic n0 r i x (clear_caps i (ngroups r) cap) y capy /\
     (min = 0 -> length y <> length x) /\
     Matches ic n0 (Rep (pred min) (option_map pred max) r) i y capy z capz).
Proof. inversion 1; subst; [left | right]; eauto 10. Qed.

Lemma Matches_Opt_inv ic n0 r i x cap z capz :
  Matches ic n0 (Opt r) i x cap z capz ->
  (z = x /\ capz = cap) \/
  (Matches ic n0 r i x (clear_caps i (ngroups r) cap) z capz /\
   length z <> length x).
Proof.
  intros H. apply Matches_Rep_inv in H.
  destruct H as [(-> & -> & _)|(_ & y & capy & H1 & Hl & H2)]; [now left|].
  right. simpl in H2. apply Matches_Rep_inv in H2.
  destruct H2 as [(-> & -> & _)|(Hmax & _)]; [|congruence].
  split; auto.
Qed.

(** An expression without groups leaves the captures alone. *)
Lemma Matches_no_groups ic n0 r i x cap y capy :
  Matches ic n0 r i x cap y capy -> ngroups r = 0 -> capy = cap.
Proof.
  induction 1 as [ | | | | | r1 r2 i x cap y capy z capz _ IH1 _ IH2
                 | r1 r2 i x cap y capy _ IH | r1 r2 i x cap y capy _ IH
                 | r i x cap y capy _ IH | r i x cap y capy _ IH |
                 | min max r i x cap y capy z capz _ _ IH1 _ _ IH2 ];
    simpl; intros Hn; auto; try discriminate.
  - rewrite IH2, IH1 by lia. reflexivity.
  - apply IH. lia.
  - apply IH. lia.
  - rewrite IH2, IH1 by assumption. rewrite Hn. reflexivity.
Qed.

Lemma captured_app (w y : str) : captured (w ++ y) y = w.
Proof.
  unfold captured. rewrite length_app, Nat.add_sub.
  rewrite firstn_app, Nat.sub_diag, firstn_all. simpl. apply app_nil_r.
Qed.

Lemma Matches_captured ic n0 r i x cap y capy :
  Matches ic n0 r i x cap y capy -> exists w, x = w ++ y /\ captured x y = w.
Proof.
  intros H. destruct (Lang_suffix (Matches_Lang H)) as [w ->].
  exists w. split; [reflexivity | apply captured_app].
Qed.

Lemma word_class ic a : class_match ic false [CWord] a = is_word a.
Proof.
  destruct ic; [|unfold class_match, class_has; simpl; now rewrite orb_false_r].
  destruct a as [[] [] [] [] [] [] [] []]; reflexivity.
Qed.

Lemma digit_class ic a : class_match ic false [CDigit] a = is_digit a.
Proof.
  destruct ic; [|unfold class_match, class_has; simpl; now rewrite orb_false_r].
  destruct a as [[] [] [] [] [] [] [] []]; reflexivity.
Qed.

Lemma Lang_word_plus ic n0 x y :
  Lang ic n0 (Plus Word) x y <-> exists w, is_name w = true /\ x = w ++ y.
Proof.
  unfold Word. rewrite Lang_Plus_class. unfold is_name.
  split; intros (w & H); exists w.
  - destruct H as (Hne & Hw & ->). split; [|reflexivity].
    rewrite (forallb_same _ _ (word_class ic)) in Hw. rewrite Hw.
    destruct w; [congruence | reflexivity].
  - destruct H as (Hw & ->). apply andb_prop in Hw. destruct Hw as [Hne Hw].
    rewrite (forallb_same _ _ (word_class ic)). repeat split; auto.
    intros ->. discriminate.
Qed.

Lemma Lang_digit_plus ic n0 x y :
  Lang ic n0 (Plus Digit) x y <->
  exists w, w <> [] /\ forallb is_digit w = true /\ x = w ++ y.
Proof.
  unfold Digit. rewrite Lang_Plus_class.
  split; intros (w & Hne & Hw & ->); exists w; repeat split; auto.
  - now rewrite (forallb_same _ _ (digit_class ic)) in Hw.
  - now rewrite (forallb_same _ _ (digit_class ic)).
Qed.

Lemma Matches_chr_false n0 a i x cap y capy :
  Matches false n0 (Chr a) i x cap y capy -> x = a :: y /\ capy = cap.
Proof.
  intros H. apply Matches_Chr_inv in H. destruct H as (ch & -> & Hc & ->).
  simpl in Hc. apply Ascii.eqb_eq in Hc. now subst.
Qed.

(** The second and third groups: an optional star with optional digits. *)
Lemma paramRegex_multi_part n0 x c0 c1 c2 c3 z capz :
  Matches false n0
    (Opt (NonCap (Seq (Group (Chr "*")) (Opt (Group (Plus Digit))))))
    1 x [c0; c1; c2; c3] z capz ->
  exists multi,
    digits_ok multi /\ x = multi_text multi ++ z /\
    capz = match multi with
           | None => [c0; c1; c2; c3]
           | Some [] => [c0; Some "*"; None; c3]
           | Some digits => [c0; Some "*"; Some digits; c3]
           end.
Proof.
  intros H. apply Matches_Opt_inv in H.
  destruct H as [(-> & ->)|(H & _)].
  - exists None. repeat split. intros d E; discriminate.
  - simpl in H. apply Matches_NonCap_inv, Matches_Seq_inv in H.
    destruct H as (y & capy & HG & HO).
    apply Matches_Group_inv in HG. destruct HG as (capr & HC & ->).
    apply Matches_chr_false in HC. destruct HC as (-> & ->).
    change (captured ("*"%char :: y) y) with (captured ("*" ++ y) y) in HO.
    rewrite captured_app in HO. simpl in HO.
    apply Matches_Opt_inv in HO. destruct HO as [(-> & ->)|(HO & _)].
    + exists (Some []). repeat split. intros d E. inversion E; subst. reflexivity.
    + simpl in HO. apply Matches_Group_inv in HO.
      destruct HO as (capr & HD & ->).
      pose proof (Matches_no_groups HD eq_refl) as ->.
      destruct (Matches_captured HD) as (w & Ew & ->).
      apply Matches_Lang, Lang_digit_plus in HD.
      destruct HD as (w' & Hne & Hw & Ew'). rewrite Ew in Ew'.
      apply app_inv_tail in Ew'. subst w'.
      exists (Some w). rewrite Ew. repeat split.
      * intros d E. inversion E; subst. exact Hw.
      * destruct w; [congruence | reflexivity].
Qed.

Lemma paramRegex_optional_part n0 x c0 c1 c2 c3 z capz :
  Matches false n0 (Opt (Group (Chr "?"))) 3 x [c0; c1; c2; c3] z capz ->
  exists optional,
    x = optional_text optional ++ z /\
    capz = [c0; c1; c2; if optional then Some "?" else c3].
Proof.
  intros H. apply Matches_Opt_inv in H.
  destruct H as [(-> & ->)|(H & _)].
  - exists false. split; reflexivity.
  - simpl in H. apply Matches_Group_inv in H. destruct H as (capr & HC & ->).
    apply Matches_chr_false in HC. destruct HC as (-> & ->).
    exists true. split; [reflexivity|].
    change (captured ("?"%char :: z) z) with (captured ("?" ++ z) z).
    rewrite captured_app. reflexivity.
Qed.

(** Whatever [paramRegex] matches is a parameter text, and the captures
    are its parts. *)
Lemma paramRegex_sound segment param :
  String_match segment paramRegex = Some param ->
  exists name multi optional,
    is_name name = true /\ digits_ok multi /\
    segment = token_text name multi optional /\
    param = Some segment :: token_captures name multi optional.
Proof.
  unfold String_match. simpl. unfold RegExp_exec. intros H.
  destruct (exec_from _ _ _) as [[[x0 y] cap]|] eqn:E; [|discriminate].
  inversion H; subst. clear H. apply exec_from_sound in E.
  destruct E as [[w Hw] HM]. simpl in HM.
  apply Matches_Seq_inv in HM. destruct HM as (x1 & c1 & HB & HM).
  apply Matches_Bol_inv in HB. destruct HB as (-> & -> & Hlen).
  assert (w = []).
  { destruct w; [reflexivity|]. rewrite Hw, length_app in Hlen. simpl in Hlen. lia. }
  subst w. simpl in Hw. subst x0.
  apply Matches_Seq_inv in HM. destruct HM as (x2 & c2 & HC & HM).
  apply Matches_chr_false in HC. destruct HC as (Ex & ->).
  apply Matches_Seq_inv in HM. destruct HM as (x3 & c3 & HG & HM).
  apply Matches_Group_inv in HG. destruct HG as (cr & HW & ->).
  pose proof (Matches_no_groups HW eq_refl) as ->.
  destruct (Matches_captured HW) as (name & En & Ecap). rewrite Ecap in HM.
  apply Matches_Lang, Lang_word_plus in HW.
  destruct HW as (name' & Hname & En'). rewrite En in En'.
  apply app_inv_tail in En'. subst name'.
  simpl in HM.
  apply Matches_Seq_inv in HM. destruct HM as (x4 & c4 & HO1 & HM).
  apply paramRegex_multi_part in HO1.
  destruct HO1 as (multi & Hd & E3 & ->).
  simpl in HM.
  assert (HM' : exists d1 d2,
            Matches false (length segment)
              (Seq (Opt (Group (Chr "?"))) (Seq (Chr "}") Eol)) 3 x4
              [Some name; d1; d2; None] y cap /\
            [Some name; d1; d2; None] = token_captures name multi false).
  { destruct multi as [[|d ds]|];
      (eexists; eexists; split; [exact HM | reflexivity]). }
  destruct HM' as (d1 & d2 & HM' & Ecaps). clear HM.
  apply Matches_Seq_inv in HM'. destruct HM' as (x5 & c5 & HO2 & HM).
  apply paramRegex_optional_part in HO2.
  destruct HO2 as (optional & E4 & ->).
  apply Matches_Seq_inv in HM. destruct HM as (x6 & c6 & HC & HE).
  apply Matches_chr_false in HC. destruct HC as (E5 & ->).
  apply Matches_Eol_inv in HE. destruct HE as (-> & -> & ->).
  exists name, multi, optional.
  assert (Eseg : segment = token_text name multi optional).
  { unfold token_text. rewrite Ex, En, E3, E4, E5. simpl.
    rewrite <- ?app_assoc. reflexivity. }
  repeat split; auto.
  f_equal.
  - f_equal. unfold captured. simpl. rewrite Nat.sub_0_r. apply firstn_all.
  - unfold token_captures in *. inversion Ecaps; subst.
    destruct optional; reflexivity.
Qed.

Lemma prefix_unique (P : ascii -> bool) : forall w n y s,
  forallb P w = true -> forallb P n = true -> stops P y -> stops P s ->
  w ++ y = n ++ s -> w = n /\ y = s.
Proof.
  induction w as [|a w IH]; intros [|b n] y s Hw Hn Hy Hs E; simpl in *.
  - auto.
  - subst y. simpl in Hy. apply andb_prop in Hn. destruct Hn. congruence.
  - subst s. simpl in Hs. apply andb_prop in Hw. destruct Hw. congruence.
  - inversion E; subst. apply andb_prop in Hw, Hn.
    destruct Hw as [_ Hw], Hn as [_ Hn].
    destruct (IH n y s Hw Hn Hy Hs) as [-> ->]; auto.
Qed.

Lemma token_text_inj name multi optional name' multi' optional' :
  is_name name = true -> is_name name' = true ->
  digits_ok multi -> digits_ok multi' ->
  token_text name multi optional = token_text name' multi' optional' ->
  name = name' /\ multi = multi' /\ optional = optional'.
Proof.
  unfold token_text, is_name. intros Hn Hn' Hd Hd' E.
  apply andb_prop in Hn, Hn'. destruct Hn as [_ Hn], Hn' as [_ Hn'].
  simpl in E. inversion E as [E1]. clear E.
  apply (prefix_unique is_word) in E1; auto;
    [| destruct multi as [?|], optional; reflexivity
     | destruct multi' as [?|], optional'; reflexivity ].
  destruct E1 as [-> E1]. split; [reflexivity|].
  assert (Hstop : forall b, stops is_digit (optional_text b ++ "}"))
    by (intros []; reflexivity).
  destruct multi as [c|], multi' as [c'|]; simpl in E1.
  - inversion E1 as [E2].
    apply (prefix_unique is_digit) in E2; auto.
    destruct E2 as [-> E2]. split; [reflexivity|].
    destruct optional, optional'; try reflexivity; discriminate.
  - destruct optional'; discriminate.
  - destruct optional; discriminate.
  - split; [reflexivity|].
    destruct optional, optional'; try reflexivity; discriminate.
Qed.

Lemma paramRegex_Lang name multi optional :
  is_name name = true -> digits_ok multi ->
  Lang false (length (token_text name multi optional)) (source paramRegex)
    (token_text name multi optional) [].
Proof.
  intros Hn Hd. set (n0 := length (token_text name multi optional)).
  unfold token_text. simpl.
  apply L_Seq with (y := "{"%char :: name ++ multi_text multi ++ optional_text optional ++ "}");
    [constructor; reflexivity|].
  apply L_Seq with (y := name ++ multi_text multi ++ optional_text optional ++ "}");
    [apply V_chr|].
  apply L_Seq with (y := multi_text multi ++ optional_text optional ++ "}").
  { apply L_Group. now apply V_name. }
  apply L_Seq with (y := optional_text optional ++ "}").
  { destruct multi as [c|]; [|apply V_opt_none].
    apply V_opt_some; [|simpl; rewrite !length_app; simpl; lia].
    apply L_NonCap. simpl.
    apply L_Seq with (y := c ++ optional_text optional ++ "}");
      [apply L_Group, V_chr|].
    destruct c as [|d ds]; [apply V_opt_none|].
    apply V_opt_some; [|simpl; rewrite !length_app; simpl; lia].
    apply L_Group, Lang_digit_plus. exists (d :: ds).
    repeat split; [discriminate | now apply Hd]. }
  apply L_Seq with (y := "}").
  { destruct optional; [|apply V_opt_none].
    apply V_opt_some; [|simpl; lia]. apply L_Group, V_chr. }
  apply L_Seq with (y := []); [apply V_chr | constructor].
Qed.

(** Every parameter text is matched, with its parts as the captures. *)
Lemma paramRegex_complete name multi optional :
  is_name name = true -> digits_ok multi ->
  String_match (token_text name multi optional) paramRegex
  = Some (Some (token_text name multi optional)
            :: token_captures name multi optional).
Proof.
  intros Hn Hd.
  destruct (String_match (token_text name multi optional) paramRegex)
    as [param|] eqn:E.
  - destruct (paramRegex_sound _ E)
      as (name' & multi' & optional' & Hn' & Hd' & Et & ->).
    apply token_text_inj in Et; auto. destruct Et as (-> & -> & ->).
    reflexivity.
  - exfalso. unfold String_match in E. simpl in E.
    eapply RegExp_exec_complete; [|exact E].
    apply paramRegex_Lang; assumption.
Qed.

Lemma leading_digits_all c : forallb is_digit c = true -> leading_digits c = c.
Proof.
  induction c as [|d ds IH]; simpl; [reflexivity|].
  intros H. apply andb_prop in H. destruct H as [-> H]. now rewrite IH.
Qed.

(** What the compiler reads off the captures of a parameter text. *)
Lemma token_fields name multi optional param :
  digits_ok multi ->
  param = Some (token_text name multi optional)
            :: token_captures name multi optional ->
  property_name (index param 1) = name /\
  param_isMulti param = token_isMulti multi /\
  param_multiCount param = token_multiCount multi /\
  param_isOptional param = optional.
Proof.
  intros Hd ->. unfold param_isMulti, param_multiCount, param_isOptional, index.
  simpl. repeat split.
  - destruct multi; reflexivity.
  - destruct multi as [[|d ds]|]; try reflexivity.
    cbn [truthy_str property_name token_multiCount]. unfold parseInt10.
    rewrite leading_digits_all by (now apply Hd). reflexivity.
  - destruct optional; reflexivity.
Qed.

(** X2.  The compiler takes a segment for a parameter exactly when it reads
    [{name}], [{name*}] or [{name*digits}], each with or without a final
    [?], [name] being one or more word characters; the captures are then
    the name, the star, the digits and the question mark.  Every other
    segment is a literal. *)
Theorem X2_parameter_segments_are_the_brace_forms :
  (forall segment param,
     String_match segment paramRegex = Some param ->
     exists name multi optional,
       is_name name = true /\ digits_ok multi /\
       segment = token_text name multi optional /\
       param = Some segment :: token_captures name multi optional) /\
  (forall name multi optional,
     is_name name = true -> digits_ok multi ->
     String_match (token_text name multi optional) paramRegex
     = Some (Some (token_text name multi optional)
               :: token_captures name multi optional)).
Proof.
  split.
  - apply paramRegex_sound.
  - apply paramRegex_complete.
Qed.

Lemma X2_witness :
  String_match "{user_id*12?}" paramRegex
  = Some [Some "{user_id*12?}"; Some "user_id"; Some "*"; Some "12"; Some "?"]
  /\ exists name multi optional,
       "{p*}" = token_text name multi optional /\
       is_name name = true.
Proof.
  split.
  - apply (proj2 X2_parameter_segments_are_the_brace_forms
             "user_id" (Some "12") true).
    + reflexivity.
    + intros d E. inversion E. reflexivity.
  - destruct (proj1 X2_parameter_segments_are_the_brace_forms "{p*}"
                [Some "{p*}"; Some "p"; Some "*"; None; None]
                ltac:(vm_compute; reflexivity))
      as (name & multi & optional & Hn & _ & E & _).
    eauto.
Defined.

(** ** The pieces of an accepted path *)

Lemma Lang_Opt_iff ic n0 r x y :
  Lang ic n0 (Opt r) x y <->
  y = x \/ (Lang ic n0 r x y /\ length y <> length x).
Proof.
  split.
  - intros H. apply Lang_Rep_inv in H.
    destruct H as [[-> _]|(_ & y1 & H1 & Hl & H2)]; [now left|].
    simpl in H2. apply Lang_Rep_inv in H2.
    destruct H2 as [[-> _]|(Hmax & _)]; [|congruence].
    right. auto.
  - intros [->|[H Hl]]; [apply L_RepStop; auto|].
    apply L_RepStep with (y := y); auto; [discriminate|].
    apply L_RepStop. auto.
Qed.

Lemma Lang_Star_sep_run ic n0 x y :
  Lang ic n0 (Star (NonCap (Seq (Chr "/") run))) x y <->
  exists runs, forallb is_run runs = true /\
               x = concat (map (app "/") runs) ++ y.
Proof.
  split.
  - intros H. remember (Star (NonCap (Seq (Chr "/") run))) as r eqn:Er.
    induction H as [ | | | | | | | | |
                   | min max r' x Hstop
                   | min max r' x y z Hmax H1 _ Hlen H2 IH2 ];
      try discriminate.
    + exists []. auto.
    + unfold Star in Er. inversion Er; subst.
      apply Lang_sep_run in H1. destruct H1 as (w & Hw & ->).
      destruct (IH2 eq_refl) as (runs & Hr & ->).
      exists (w :: runs). simpl. rewrite Hw, Hr. split; [reflexivity|].
      now rewrite <- !app_assoc.
  - intros (runs & Hr & ->). induction runs as [|w runs IH]; simpl in *.
    + apply L_RepStop. auto.
    + apply andb_prop in Hr. destruct Hr as [Hw Hr].
      apply L_RepStep with (y := concat (map (app "/") runs) ++ y);
        [discriminate | | |].
      * apply Lang_sep_run. exists w. split; [exact Hw|].
        simpl. now rewrite <- !app_assoc.
      * intros _. simpl. rewrite !length_app. simpl. lia.
      * apply IH. exact Hr.
Qed.

Lemma Lang_segmentRX_value ic n0 isMulti multiCount x y :
  Lang ic n0 (segmentRX isMulti multiCount) x y <->
  exists v, param_value isMulti multiCount v /\ x = "/" ++ v ++ y.
Proof.
  unfold param_value. destruct isMulti.
  - destruct (truthy_count multiCount) eqn:T.
    + destruct multiCount as [[|k]|]; try discriminate.
      rewrite (@Lang_segmentRX_fixed ic n0 (S k) x y) by lia. simpl count_of.
      split.
      * intros (runs & Hl & Hr & ->). exists (join_slash runs).
        split; [|reflexivity]. exists runs. auto.
      * intros (v & (runs & Hr & -> & Hl) & ->). exists runs. auto.
    + unfold segmentRX. rewrite T. split.
      * intros H. apply Lang_Seq_inv in H. destruct H as (y1 & H1 & H2).
        apply Lang_slash in H1. subst x.
        apply Lang_Group_inv, Lang_Seq_inv in H2. destruct H2 as (y2 & H2 & H3).
        apply Lang_run in H2. destruct H2 as (w & Hw & ->).
        apply Lang_Star_sep_run in H3. destruct H3 as (runs & Hr & ->).
        exists (join_slash (w :: runs)). split.
        -- exists (w :: runs). simpl. rewrite Hw, Hr. repeat split. lia.
        -- rewrite join_slash_cons. simpl. now rewrite <- !app_assoc.
      * intros (v & (runs & Hr & -> & Hl) & ->).
        destruct runs as [|w runs]; [simpl in Hl; lia|].
        rewrite join_slash_cons. simpl in Hr.
        apply andb_prop in Hr. destruct Hr as [Hw Hr].
        apply L_Seq with (y := (w ++ concat (map (app "/") runs)) ++ y);
          [now apply Lang_slash|].
        apply L_Group.
        apply L_Seq with (y := concat (map (app "/") runs) ++ y).
        -- apply Lang_run. exists w. split; [exact Hw|]. now rewrite <- app_assoc.
        -- apply Lang_Star_sep_run. exists runs. auto.
  - unfold segmentRX. split.
    + intros H. apply Lang_Seq_inv in H. destruct H as (y1 & H1 & H2).
      apply Lang_slash in H1. subst x.
      apply Lang_Group_inv in H2. apply L_NonCap in H2. fold run in H2.
      apply Lang_run in H2. destruct H2 as (w & Hw & ->).
      exists w. split; [|reflexivity]. exists [w]. simpl. rewrite Hw. auto.
    + intros (v & (runs & Hr & -> & Hl) & ->).
      destruct runs as [|w [|w' runs]]; try discriminate.
      simpl in *. rewrite andb_true_r in Hr.
      apply L_Seq with (y := w ++ y); [now apply Lang_slash|].
      apply L_Group.
      assert (H : Lang ic n0 run (w ++ y) y) by (apply Lang_run; eauto).
      now apply Lang_NonCap_inv in H.
Qed.

Lemma Lang_slash_or_absent ic n0 (tso : bool) x y :
  Lang ic n0 (if tso then Opt (Chr "/") else Chr "/") x y <->
  exists w, x = w ++ y /\ (w = "/" \/ (tso = true /\ w = [])).
Proof.
  destruct tso.
  - rewrite Lang_Opt_iff, Lang_slash. split.
    + intros [->|[-> _]]; [exists [] | exists "/"]; auto.
    + intros (w & -> & [->|[_ ->]]); [right | left; reflexivity].
      split; [reflexivity | simpl; lia].
  - rewrite Lang_slash. split.
    + intros ->. exists "/". auto.
    + intros (w & -> & [->|[E _]]); [reflexivity | discriminate].
Qed.

Lemma Lang_paramRX ic n0 tso isMulti multiCount isOptional x y :
  Lang ic n0 (paramRX tso isMulti multiCount isOptional) x y <->
  exists w, x = w ++ y /\
    ((exists v, param_value isMulti multiCount v /\ w = "/" ++ v) \/
     (absence_permitted isMulti multiCount isOptional = true /\
      (w = "/" \/ (tso = true /\ w = [])))).
Proof.
  assert (Hfull : Lang ic n0 (segmentRX isMulti multiCount) x y <->
                  exists w, x = w ++ y /\
                    exists v, param_value isMulti multiCount v /\ w = "/" ++ v).
  { rewrite Lang_segmentRX_value. split.
    - intros (v & Hv & ->). exists ("/" ++ v). split; [reflexivity|]. eauto.
    - intros (w & -> & v & Hv & ->). eauto. }
  assert (Hunit : Lang ic n0
            (NonCap (Alt (NonCap (Chr "/")) (NonCap (segmentRX isMulti multiCount))))
            x y <->
          exists w, x = w ++ y /\
            ((exists v, param_value isMulti multiCount v /\ w = "/" ++ v) \/ w = "/")).
  { split.
    - intros H. apply Lang_NonCap_inv, Lang_Alt_inv in H.
      destruct H as [H|H]; apply Lang_NonCap_inv in H.
      + apply Lang_slash in H. subst x. exists "/". auto.
      + apply Hfull in H. destruct H as (w & -> & Hv). eauto.
    - intros (w & -> & [Hv| ->]); apply L_NonCap.
      + apply L_AltR, L_NonCap, Hfull. eauto.
      + apply L_AltL, L_NonCap. now apply Lang_slash. }
  unfold paramRX. destruct (absence_permitted isMulti multiCount isOptional).
  - destruct tso.
    + rewrite Lang_Opt_iff, Hunit. split.
      * intros [->|[(w & -> & H) _]]; [exists []; auto 6|].
        exists w. split; [reflexivity|]. destruct H; auto.
      * intros (w & -> & [Hv|[_ [->|[_ ->]]]]); [right | right | left; reflexivity].
        -- split; [eauto|]. destruct Hv as (v & _ & ->).
           simpl. rewrite !length_app. simpl. lia.
        -- split; [eauto|]. simpl. lia.
    + rewrite Hunit. split.
      * intros (w & -> & H). exists w. split; [reflexivity|]. destruct H; auto.
      * intros (w & -> & [Hv|[_ [->|[E _]]]]); eauto; discriminate.
  - rewrite Hfull. split.
    + intros (w & -> & H). eauto.
    + intros (w & -> & [Hv|[E _]]); eauto; discriminate.
Qed.

Lemma text_match_app ic : forall t1 t2 w,
  text_match ic (t1 ++ t2) w = true <->
  exists w1 w2, w = w1 ++ w2 /\
                text_match ic t1 w1 = true /\ text_match ic t2 w2 = true.
Proof.
  induction t1 as [|a t1 IH]; intros t2 w; simpl.
  - split.
    + intros H. exists [], w. auto.
    + intros (w1 & w2 & -> & H1 & H2). destruct w1; [exact H2 | discriminate].
  - destruct w as [|ch w].
    + split; [discriminate|]. intros (w1 & w2 & E & H1 & _).
      destruct w1; discriminate.
    + rewrite andb_true_iff, IH. split.
      * intros (Hc & w1 & w2 & -> & H1 & H2).
        exists (ch :: w1), w2. simpl. rewrite Hc, H1. auto.
      * intros (w1 & w2 & E & H1 & H2). destruct w1 as [|c1 w1]; [discriminate|].
        simpl in E. inversion E; subst. apply andb_prop in H1.
        destruct H1 as [Hc H1]. split; [exact Hc|]. eauto.
Qed.

Lemma Lang_escapeRegex ic n0 : forall segment x y,
  Lang ic n0 (escapeRegex segment) x y <->
  exists w, x = w ++ y /\ text_match ic segment w = true.
Proof.
  induction segment as [|a rest IH]; intros x y; simpl.
  - split.
    + intros H. apply Lang_Empty_inv in H. subst. exists []. auto.
    + intros (w & -> & H). destruct w; [constructor | discriminate].
  - split.
    + intros H. apply Lang_Seq_inv in H. destruct H as (y1 & H1 & H2).
      apply Lang_Chr_inv in H1. destruct H1 as (ch & -> & Hc).
      apply IH in H2. destruct H2 as (w & -> & Hw).
      exists (ch :: w). simpl. now rewrite Hc, Hw.
    + intros (w & -> & H). destruct w as [|ch w]; [discriminate|].
      apply andb_prop in H. destruct H as [Hc Hw].
      apply L_Seq with (y := w ++ y); [now constructor|].
      apply IH. eauto.
Qed.

Lemma text_match_slash ic w : text_match ic "/" w = true <-> w = "/".
Proof.
  destruct w as [|ch [|c w]]; simpl; split; try discriminate.
  - rewrite andb_true_r. intros H. apply char_slash in H. now subst.
  - intros E. inversion E; subst. rewrite andb_true_r. now apply char_slash.
  - rewrite andb_false_r. discriminate.
Qed.

(** What one segment of the template stands for. *)
Lemma Lang_segment_piece router segment n0 x y :
  Lang (negb (isCaseSensitive router)) n0
    (segment_pathRX (negb (isTrailingSlashSensitive router)) segment) x y <->
  exists w, x = w ++ y /\ segment_piece router segment w.
Proof.
  unfold segment_pathRX, segment_piece.
  assert (Htso : forall P : Prop,
    (negb (isTrailingSlashSensitive router) = true /\ P) <->
    (isTrailingSlashSensitive router = false /\ P))
    by (intros P; destruct (isTrailingSlashSensitive router); simpl; intuition congruence).
  destruct (String_match segment paramRegex) as [param|].
  - rewrite Lang_paramRX. split; intros (w & -> & H); exists w;
      (split; [reflexivity|]); destruct H as [H|[Ha [H|H]]]; auto;
      right; split; auto; right; now apply Htso.
  - destruct segment as [|a rest].
    + unfold literalRX. rewrite Lang_slash_or_absent.
      split; intros (w & -> & [H|H]); exists w; (split; [reflexivity|]); auto;
        right; now apply Htso.
    + unfold literalRX. split.
      * intros H. apply Lang_Seq_inv in H. destruct H as (y1 & H1 & H2).
        apply Lang_slash in H1. subst x.
        apply Lang_escapeRegex in H2. destruct H2 as (w & -> & Hw).
        exists ("/" ++ w). split; [reflexivity|].
        change ("/" ++ a :: rest) with ("/" ++ (a :: rest)).
        apply text_match_app. exists "/", w. repeat split; auto.
        now apply text_match_slash.
      * intros (w & -> & H).
        change ("/" ++ a :: rest) with ("/" ++ (a :: rest)) in H.
        apply text_match_app in H. destruct H as (w1 & w2 & -> & H1 & H2).
        apply text_match_slash in H1. subst w1.
        apply L_Seq with (y := w2 ++ y); [now apply Lang_slash|].
        apply Lang_escapeRegex. eauto.
Qed.

Lemma Lang_segments_pieces router n0 : forall segments x y,
  Lang (negb (isCaseSensitive router)) n0
    (segments_pathRX (negb (isTrailingSlashSensitive router)) segments) x y <->
  exists pieces,
    Forall2 (segment_piece router) segments pieces /\ x = concat pieces ++ y.
Proof.
  induction segments as [|s l IH]; intros x y.
  - unfold segments_pathRX. simpl. split.
    + intros H. apply Lang_Empty_inv in H. subst. exists []. auto.
    + intros (pieces & HF & ->). inversion HF; subst. constructor.
  - rewrite Lang_segments_cons. split.
    + intros (y1 & Hs & Hl). apply Lang_segment_piece in Hs.
      destruct Hs as (w & -> & Hw). apply IH in Hl.
      destruct Hl as (pieces & HF & ->).
      exists (w :: pieces). split; [now constructor|].
      simpl. now rewrite <- app_assoc.
    + intros (pieces & HF & ->). inversion HF as [|? w ? pieces' Hw HF']; subst.
      exists (concat pieces' ++ y). split.
      * apply Lang_segment_piece. exists w. split; [|exact Hw].
        simpl. now rewrite <- app_assoc.
      * apply IH. eauto.
Qed.

(** X3.  A compiled route accepts a path exactly when the path is made of
    consecutive pieces, one for each segment of the template.  A literal
    segment stands for the separator and its own text (letter case aside
    when the settings are case-insensitive); an empty segment for the
    separator, or for nothing when the trailing slash is not significant;
    a parameter for the separator and its value -- one run, the counted
    number of runs, or one or more runs -- and, when its absence is
    permitted, also for a bare separator, or for nothing when the trailing
    slash is not significant. *)
Theorem X3_accepted_paths_are_made_of_segment_pieces
    (router : RouterSettings) (template : str) (this : Route) (p : str) :
  _generateRegex router template = Normal this ->
  (Route_test this p = true <->
   exists pieces,
     Forall2 (segment_piece router) (template_segments template) pieces /\
     p = concat pieces).
Proof.
  intros Hgen. rewrite (@Route_test_Lang router template this p Hgen).
  rewrite Lang_segments_pieces. split; intros (pieces & HF & E);
    exists pieces; (split; [exact HF|]).
  - now rewrite app_nil_r in E.
  - now rewrite app_nil_r.
Qed.

Lemma X3_witness :
  exists this,
    _generateRegex (mkRouter false false) "/Files/{dir*}/{name}/" = Normal this /\
    Route_test this "/files/a/b/readme" = true.
Proof.
  eexists. split; [vm_compute; reflexivity|].
  apply (@X3_accepted_paths_are_made_of_segment_pieces (mkRouter false false)
           "/Files/{dir*}/{name}/" _ "/files/a/b/readme"
           ltac:(vm_compute; reflexivity)).
  exists ["/files"; "/a/b"; "/readme"; ""].
  split; [|reflexivity].
  repeat (apply Forall2_cons); try apply Forall2_nil.
  - reflexivity.
  - left. exists "a/b". split; [|reflexivity].
    exists ["a"; "b"]. repeat split. simpl. lia.
  - left. exists "readme". split; [|reflexivity].
    exists ["readme"]. repeat split.
  - right. split; reflexivity.
Defined.


(** ** When [match] succeeds *)

(** When every capture decodes, the loop runs to its end. *)
Lemma match_loop_decodes ps mtch :
  Forall (fun key => key <> []) ps ->
  forall n i request,
    1 <= i -> i - 1 + n <= length ps ->
    (forall j s, i <= j < i + n -> index mtch j = Some s ->
       exists d, decodeURIComponent s = Normal d) ->
    fst (match_loop ps mtch n i request) = None.
Proof.
  intros Hall. induction n as [|n IH]; intros i request Hi Hn Hdec;
    [reflexivity|].
  assert (Hk : i - 1 < length ps) by lia.
  simpl. destruct (nth_error_nonempty Hall Hk) as (a & key & ->).
  destruct (index mtch i) as [si|] eqn:Ei.
  - destruct (Hdec i si ltac:(lia) Ei) as [d ->]. simpl.
    apply IH; [lia | lia|]. intros j s Hj. apply Hdec. lia.
  - simpl. apply IH; [lia | lia|]. intros j s Hj. apply Hdec. lia.
Qed.

(** What a successful [match] has stored. *)
Lemma Route_match_true router template this request request' :
  _generateRegex router template = Normal this ->
  Route_match this request = (Normal true, request') ->
  exists mtch,
    RegExp_exec (regexp this) (path request) = Some mtch /\
    length (request_paramsArray request') = length (params this) /\
    forall k name, nth_error (params this) k = Some name ->
      capture_value (index mtch (S k)) (nth k (request_paramsArray request') JUndefined) /\
      obj_get (request_params request') name
        = Some (nth k (request_paramsArray request') JUndefined).
Proof.
  intros Hgen Hmatch.
  destruct (_generateRegex_params _ _ Hgen) as (Hnd & Hall & Hlen).
  unfold Route_match in Hmatch.
  destruct (RegExp_exec (regexp this) (path request)) as [mtch|] eqn:Hexec;
    [|inversion Hmatch].
  exists mtch. split; [reflexivity|].
  pose proof (RegExp_exec_length _ _ Hexec) as Hm.
  destruct (0 <? length (params this)) eqn:Hpos.
  - destruct (match_loop _ _ _ _ _) as [b r'] eqn:Hloop.
    apply (@match_loop_done (params this) mtch Hnd Hall) in Hloop; [|lia|lia].
    destruct Hloop as [->|(-> & _ & vs & Hvs & Harr & Hvals & _)];
      [inversion Hmatch|].
    inversion Hmatch; subst r'. simpl in Harr. rewrite Harr. split; [lia|].
    intros k name Hk.
    assert (Hlt : k < length mtch - 1).
    { assert (k < length (params this)) by (apply nth_error_Some; congruence). lia. }
    destruct (Hvals k Hlt) as (key & E1 & E2 & E3).
    replace (1 - 1 + k) with k in E1 by lia.
    assert (key = name) by congruence. subst key.
    replace (1 + k) with (S k) in E2 by lia. auto.
  - apply Nat.ltb_ge in Hpos. inversion Hmatch; subst. simpl.
    split; [lia|]. intros k name Hk.
    assert (k < length (params this)) by (apply nth_error_Some; congruence). lia.
Qed.

Lemma Route_match_never_throws this request :
  fst (Route_match this request) = Normal true \/
  fst (Route_match this request) = Normal false.
Proof.
  unfold Route_match.
  destruct (RegExp_exec (regexp this) (path request)) as [mtch|]; [|now right].
  destruct (0 <? length (params this)); [|now left].
  destruct (match_loop _ _ _ _ _) as [[[]|] r']; simpl; auto.
Qed.

Lemma Route_match_iff router template this request :
  _generateRegex router template = Normal this ->
  (fst (Route_match this request) = Normal true <->
   exists mtch,
     RegExp_exec (regexp this) (path request) = Some mtch /\
     forall i s, 1 <= i -> index mtch i = Some s ->
       exists d, decodeURIComponent s = Normal d).
Proof.
  intros Hgen.
  destruct (_generateRegex_params _ _ Hgen) as (Hnd & Hall & Hlen).
  split.
  - intros H. destruct (Route_match this request) as [b request'] eqn:E.
    simpl in H. subst b.
    destruct (@Route_match_true _ _ _ _ _ Hgen E) as (mtch & Hexec & _ & Hvals).
    exists mtch. split; [exact Hexec|]. intros i s Hi Hs.
    pose proof (RegExp_exec_length _ _ Hexec) as Hm.
    pose proof (index_Some_lt _ _ Hs) as Hlt.
    destruct i as [|k]; [lia|].
    destruct (nth_error (params this) k) as [name|] eqn:Ek.
    + destruct (Hvals k name Ek) as [Hv _]. rewrite Hs in Hv.
      destruct Hv as (d & Hd & _). eauto.
    + apply nth_error_None in Ek. lia.
  - intros (mtch & Hexec & Hdec).
    pose proof (RegExp_exec_length _ _ Hexec) as Hm.
    unfold Route_match. rewrite Hexec.
    destruct (0 <? length (params this)); [|reflexivity].
    pose proof (@match_loop_decodes (params this) mtch Hall (length mtch - 1) 1
                  (mkRequest (path request) [] []) ltac:(lia) ltac:(lia)) as Hloop.
    destruct (match_loop _ _ _ _ _) as [[b|] r']; simpl in *; [|reflexivity].
    assert (E : Some b = None); [|discriminate].
    apply Hloop. intros j s Hj. apply Hdec. lia.
Qed.

(** X4.  [match] never throws.  It returns [true] exactly when the route's
    expression accepts the path and every text it captured can be
    percent-decoded, and [false] otherwise. *)
Theorem X4_match_is_acceptance_and_decoding
    (router : RouterSettings) (template : str) (this : Route)
    (request : Request) :
  _generateRegex router template = Normal this ->
  (fst (Route_match this request) = Normal true \/
   fst (Route_match this request) = Normal false) /\
  (fst (Route_match this request) = Normal true <->
   exists mtch,
     RegExp_exec (regexp this) (path request) = Some mtch /\
     forall i s, 1 <= i -> index mtch i = Some s ->
       exists d, decodeURIComponent s = Normal d).
Proof.
  intros Hgen. split.
  - apply Route_match_never_throws.
  - exact (@Route_match_iff _ _ _ request Hgen).
Qed.

Lemma X4_witness :
  exists this,
    _generateRegex (mkRouter true true) "/user/{id}/{tab?}" = Normal this /\
    fst (Route_match this (mkRequest "/user/J%C3%BCrgen/" [] [])) = Normal true.
Proof.
  eexists. split; [vm_compute; reflexivity|].
  apply (proj2 (@X4_match_is_acceptance_and_decoding (mkRouter true true)
                  "/user/{id}/{tab?}" _ (mkRequest "/user/J%C3%BCrgen/" [] [])
                  ltac:(vm_compute; reflexivity))).
  exists [Some "/user/J%C3%BCrgen/"; Some "J%C3%BCrgen"; None].
  split; [vm_compute; reflexivity|].
  intros [|[|[|[|i]]]] s Hi Hs; try lia; try discriminate.
  inversion Hs; subst. eexists. vm_compute. reflexivity.
Defined.

(** ** Paths without a percent sign *)












(** ** The parameter list *)

(** X6.  The parameter list of a compiled route holds the names declared
    in the template, each once; it has one name for each capture of a
    match, the whole match aside; and when no name is an array index, it
    lists the names in the order of the template. *)
Theorem X6_parameter_list_names_the_captures
    (router : RouterSettings) (template : str) (this : Route) :
  _generateRegex router template = Normal this ->
  Permutation (params this) (declared_names (template_segments template)) /\
  NoDup (params this) /\
  (forall p mtch, RegExp_exec (regexp this) p = Some mtch ->
     length mtch = S (length (params this))) /\
  (Forall (fun k => is_array_index k = false)
     (declared_names (template_segments template)) ->
   params this = declared_names (template_segments template)).
Proof.
  intros Hgen.
  destruct (_generateRegex_params _ _ Hgen) as (Hnd & _ & Hlen).
  apply _generateRegex_inv in Hgen.
  destruct Hgen as (st & Hloop & _ & Hp & _).
  apply loop_names in Hloop; [|repeat split; simpl; auto; constructor].
  simpl in Hloop. unfold template_segments. rewrite <- Hloop, Hp.
  split; [apply Object_keys_perm|]. split; [now rewrite <- Hp|]. split.
  - intros p mtch Hexec. rewrite (RegExp_exec_length _ _ Hexec), <- Hp, Hlen.
    reflexivity.
  - apply Object_keys_no_index.
Qed.

Lemma X6_witness :
  exists this,
    _generateRegex (mkRouter true true) "/{year}/{month}/{slug?}" = Normal this /\
    params this = ["year"; "month"; "slug"].
Proof.
  eexists. split; [vm_compute; reflexivity|].
  apply (proj2 (proj2 (proj2
           (@X6_parameter_list_names_the_captures (mkRouter true true)
              "/{year}/{month}/{slug?}" _ ltac:(vm_compute; reflexivity))))).
  replace (declared_names (template_segments "/{year}/{month}/{slug?}"))
    with ["year"; "month"; "slug"] by (vm_compute; reflexivity).
  repeat constructor.
Defined.

(** ** The fingerprint is a path of the route *)


Lemma toLower_toUpper a : toLower (toUpper a) = toLower a.
Proof. destruct a as [[] [] [] [] [] [] [] []]; reflexivity. Qed.









(** ** Letter case *)

Lemma case_blind_length : forall (x x' : str),
  map toUpper x' = map toUpper x -> length x' = length x.
Proof.
  intros x x' H. apply (f_equal (@length _)) in H. now rewrite !length_map in H.
Qed.

(** A case-insensitive expression does not tell apart two inputs that
    differ in letter case only. *)
Lemma Lang_case_blind n0 r x y :
  Lang true n0 r x y ->
  forall x', map toUpper x' = map toUpper x ->
  exists y', map toUpper y' = map toUpper y /\ Lang true n0 r x' y'.
Proof.
  induction 1 as [ x | a ch x Hc | inv items ch x Hc | x Hl | | r1 r2 x y z _ IH1 _ IH2
                 | r1 r2 x y _ IH | r1 r2 x y _ IH | r x y _ IH | r x y _ IH
                 | min max r x Hstop
                 | min max r x y z Hmax _ IH1 Hlen _ IH2 ]; intros x' Hx.
  - exists x'. split; [exact Hx | constructor].
  - destruct x' as [|ch' x']; [discriminate|]. simpl in Hx. inversion Hx as [[Hch Hx']].
    exists x'. split; [congruence|]. constructor.
    unfold char_match in *. now rewrite Hch.
  - destruct x' as [|ch' x']; [discriminate|]. simpl in Hx. inversion Hx as [[Hch Hx']].
    exists x'. split; [congruence|]. constructor.
    unfold class_match, class_has in *.
    assert (El : toLower ch' = toLower ch)
      by (rewrite <- (toLower_toUpper ch'), Hch; apply toLower_toUpper).
    now rewrite Hch, El.
  - exists x'. split; [exact Hx|]. constructor.
    now rewrite (case_blind_length _ _ Hx).
  - destruct x'; [|discriminate]. exists []. split; [reflexivity | constructor].
  - destruct (IH1 _ Hx) as (y' & Hy & H1). destruct (IH2 _ Hy) as (z' & Hz & H2).
    exists z'. split; [exact Hz|]. econstructor; eauto.
  - destruct (IH _ Hx) as (y' & Hy & H1). exists y'. split; [exact Hy|].
    now apply L_AltL.
  - destruct (IH _ Hx) as (y' & Hy & H1). exists y'. split; [exact Hy|].
    now apply L_AltR.
  - destruct (IH _ Hx) as (y' & Hy & H1). exists y'. split; [exact Hy|].
    now constructor.
  - destruct (IH _ Hx) as (y' & Hy & H1). exists y'. split; [exact Hy|].
    now constructor.
  - exists x'. split; [exact Hx|]. now apply L_RepStop.
  - destruct (IH1 _ Hx) as (y' & Hy & H1). destruct (IH2 _ Hy) as (z' & Hz & H2).
    exists z'. split; [exact Hz|]. apply L_RepStep with (y := y'); auto.
    intros Hmin. rewrite (case_blind_length _ _ Hy), (case_blind_length _ _ Hx).
    auto.
Qed.

Lemma Route_test_case_blind router template this p p' :
  isCaseSensitive router = false ->
  _generateRegex router template = Normal this ->
  map toUpper p' = map toUpper p ->
  Route_test this p = true -> Route_test this p' = true.
Proof.
  intros Hcs Hgen Hp H.
  apply (@Route_test_Lang router template this _ Hgen) in H.
  apply (@Route_test_Lang router template this _ Hgen).
  rewrite Hcs in *. simpl in *.
  destruct (Lang_case_blind H _ Hp) as (y' & Hy & HL).
  destruct y'; [|discriminate].
  now rewrite (case_blind_length _ _ Hp).
Qed.

(** X8.  Under case-insensitive settings, two paths that differ in letter
    case only are accepted or rejected together, whatever the template:
    the letters of a value count no more than those of a literal. *)
Theorem X8_insensitive_routes_ignore_letter_case
    (router : RouterSettings) (template : str) (this : Route) (p p' : str) :
  isCaseSensitive router = false ->
  _generateRegex router template = Normal this ->
  map toUpper p' = map toUpper p ->
  Route_test this p' = Route_test this p.
Proof.
  intros Hcs Hgen Hp.
  destruct (Route_test this p) eqn:E.
  - exact (@Route_test_case_blind router template this p p' Hcs Hgen Hp E).
  - destruct (Route_test this p') eqn:E'; [|reflexivity].
    rewrite <- E. symmetry.
    exact (@Route_test_case_blind router template this p' p Hcs Hgen (eq_sym Hp) E').
Qed.

Lemma X8_witness :
  exists this,
    _generateRegex (mkRouter false true) "/user/{id}" = Normal this /\
    Route_test this "/USER/Ann" = Route_test this "/user/ann" /\
    Route_test this "/user/ann" = true.
Proof.
  eexists. split; [vm_compute; reflexivity|]. split.
  - apply (@X8_insensitive_routes_ignore_letter_case (mkRouter false true)
             "/user/{id}" _ "/user/ann" "/USER/Ann"
             ltac:(reflexivity) ltac:(vm_compute; reflexivity)).
    vm_compute. reflexivity.
  - vm_compute. reflexivity.
Defined.


(** ** Splitting a template *)

Lemma split_slash_nonempty t : split_slash t <> [].
Proof.
  destruct t as [|a t]; simpl; [discriminate|].
  destruct (Ascii.eqb a "/"); [discriminate|].
  destruct (split_slash t); discriminate.
Qed.

Lemma split_slash_snoc : forall t, split_slash (t ++ "/") = split_slash t ++ [[]].
Proof.
  induction t as [|a t IH]; simpl; [reflexivity|].
  destruct (Ascii.eqb a "/"); [now rewrite IH|].
  rewrite IH. pose proof (split_slash_nonempty t) as Hne.
  destruct (split_slash t) as [|h l]; [congruence | reflexivity].
Qed.

Lemma template_segments_snoc t :
  template_segments (t ++ "/") = template_segments t ++ [[]].
Proof.
  unfold template_segments. rewrite split_slash_snoc.
  pose proof (split_slash_nonempty t) as Hne.
  destruct (split_slash t) as [|h l]; [congruence | reflexivity].
Qed.

(** Joining the segments gives the text back. *)
Lemma split_join : forall s, concat (map (app "/") (split_slash s)) = "/" ++ s.
Proof.
  induction s as [|a s IH]; simpl; [reflexivity|].
  destruct (Ascii.eqb a "/") eqn:E.
  - apply Ascii.eqb_eq in E. subst a. simpl. simpl in IH. now rewrite IH.
  - pose proof (split_slash_nonempty s) as Hne.
    destruct (split_slash s) as [|h l]; [congruence|].
    simpl in *. inversion IH as [IH']. now rewrite IH'.
Qed.

Lemma split_slash_chars : forall s segment a,
  In segment (split_slash s) -> In a segment -> In a s.
Proof.
  induction s as [|c s IH]; intros segment a Hs Ha; simpl in Hs.
  - destruct Hs as [<-|[]]. exact Ha.
  - destruct (Ascii.eqb c "/").
    + destruct Hs as [<-|Hs]; [destruct Ha|]. right. eauto.
    + pose proof (split_slash_nonempty s) as Hne.
      destruct (split_slash s) as [|h l]; [congruence|].
      destruct Hs as [<-|Hs].
      * destruct Ha as [->|Ha]; [now left|]. right. apply (IH h); simpl; auto.
      * right. apply (IH segment); simpl; auto.
Qed.

Lemma Route_test_pieces router template this p :
  _generateRegex router template = Normal this ->
  (Route_test this p = true <->
   exists pieces,
     Forall2 (segment_piece router) (template_segments template) pieces /\
     p = concat pieces).
Proof.
  intros Hgen. rewrite (@Route_test_Lang router template this p Hgen).
  rewrite Lang_segments_pieces. split; intros (pieces & HF & E);
    exists pieces; (split; [exact HF|]).
  - now rewrite app_nil_r in E.
  - now rewrite app_nil_r.
Qed.

(** ** A trailing slash in the template *)

(** X9.  A template that ends in a slash accepts the paths of the template
    without that slash, each followed by a slash; when the trailing slash
    is not significant it accepts those paths as they are, too. *)
Theorem X9_trailing_slash_of_a_template
    (router : RouterSettings) (template : str) (this this' : Route) :
  _generateRegex router template = Normal this ->
  _generateRegex router (template ++ "/") = Normal this' ->
  forall p,
    Route_test this' p = true <->
    (exists q, p = q ++ "/" /\ Route_test this q = true) \/
    (isTrailingSlashSensitive router = false /\ Route_test this p = true).
Proof.
  intros Hgen Hgen' p.
  rewrite (@Route_test_pieces router _ this' p Hgen').
  rewrite template_segments_snoc.
  assert (Hlast : forall w, segment_piece router [] w <->
            w = "/" \/ (isTrailingSlashSensitive router = false /\ w = [])).
  { intros w. unfold segment_piece.
    replace (String_match [] paramRegex) with (@None (list (option str)))
      by (vm_compute; reflexivity).
    reflexivity. }
  split.
  - intros (pieces & HF & ->).
    apply Forall2_app_inv_l in HF.
    destruct HF as (ps & ws & Hps & Hws & ->).
    inversion Hws as [|? w ? ws' Hw Hnil]; subst. inversion Hnil; subst.
    rewrite concat_app. simpl. rewrite app_nil_r.
    apply Hlast in Hw. destruct Hw as [->|[Htss ->]].
    + left. exists (concat ps). split; [reflexivity|].
      apply (@Route_test_pieces router template this _ Hgen). eauto.
    + right. split; [exact Htss|]. rewrite app_nil_r.
      apply (@Route_test_pieces router template this _ Hgen). eauto.
  - intros [(q & -> & Hq)|[Htss Hp]].
    + apply (@Route_test_pieces router template this _ Hgen) in Hq.
      destruct Hq as (ps & Hps & ->). exists (ps ++ ["/"]). split.
      * apply Forall2_app; [exact Hps|]. constructor; [|constructor].
        apply Hlast. now left.
      * rewrite concat_app. simpl. reflexivity.
    + apply (@Route_test_pieces router template this _ Hgen) in Hp.
      destruct Hp as (ps & Hps & ->). exists (ps ++ [[]]). split.
      * apply Forall2_app; [exact Hps|]. constructor; [|constructor].
        apply Hlast. now right.
      * rewrite concat_app. simpl. now rewrite app_nil_r.
Qed.

Lemma X9_witness :
  exists this this',
    _generateRegex (mkRouter true false) "/user/{id}" = Normal this /\
    _generateRegex (mkRouter true false) "/user/{id}/" = Normal this' /\
    Route_test this' "/user/7/" = true /\
    Route_test this' "/user/7" = true /\
    Route_test this "/user/7/" = false.
Proof.
  eexists. eexists. split; [vm_compute; reflexivity|].
  split; [vm_compute; reflexivity|].
  pose proof (@X9_trailing_slash_of_a_template (mkRouter true false)
                "/user/{id}" _ _ ltac:(vm_compute; reflexivity)
                ltac:(vm_compute; reflexivity)) as H.
  split; [|split].
  - apply (H "/user/7/"). left. exists "/user/7".
    split; [reflexivity | vm_compute; reflexivity].
  - apply (H "/user/7"). right.
    split; [reflexivity | vm_compute; reflexivity].
  - vm_compute. reflexivity.
Defined.

(** ** Templates without parameters *)

Lemma brace_free_is_literal segment :
  ~ In "{"%char segment -> String_match segment paramRegex = None.
Proof.
  intros H. destruct (String_match segment paramRegex) as [param|] eqn:E;
    [|reflexivity].
  apply paramRegex_sound in E.
  destruct E as (name & multi & optional & _ & _ & -> & _).
  exfalso. apply H. now left.
Qed.

Lemma text_match_nil ic w : text_match ic [] w = true <-> w = [].
Proof. destruct w; simpl; split; congruence. Qed.

Lemma literal_pieces router : forall segments p,
  isTrailingSlashSensitive router = true ->
  Forall (fun segment => String_match segment paramRegex = None) segments ->
  ((exists pieces,
      Forall2 (segment_piece router) segments pieces /\ p = concat pieces) <->
   text_match (negb (isCaseSensitive router))
     (concat (map (app "/") segments)) p = true).
Proof.
  intros segments p Htss. revert p.
  induction segments as [|s l IH]; intros p Hall.
  - cbn [concat map]. rewrite text_match_nil. split.
    + intros (pieces & HF & ->). inversion HF. reflexivity.
    + intros ->. exists []. split; [constructor | reflexivity].
  - inversion Hall as [|? ? Hs Hl]; subst.
    assert (Hpiece : forall w, segment_piece router s w <->
              text_match (negb (isCaseSensitive router)) ("/" ++ s) w = true).
    { intros w. unfold segment_piece. rewrite Hs, Htss.
      destruct s as [|a s]; [|reflexivity].
      rewrite text_match_slash. intuition discriminate. }
    change (concat (map (app "/") (s :: l)))
      with (("/" ++ s) ++ concat (map (app "/") l)).
    rewrite text_match_app. split.
    + intros (pieces & HF & ->). inversion HF as [|? w ? ps Hw Hps]; subst.
      exists w, (concat ps). split; [reflexivity|]. split.
      * now apply Hpiece.
      * apply IH; eauto.
    + intros (w1 & w2 & -> & H1 & H2). apply IH in H2; [|exact Hl].
      destruct H2 as (ps & Hps & ->). exists (w1 :: ps). split.
      * constructor; [now apply Hpiece | exact Hps].
      * reflexivity.
Qed.

(** X10.  When the trailing slash is significant, a template that starts
    with a slash and holds no brace accepts its own text and nothing else,
    letter case aside under case-insensitive settings. *)
Theorem X10_template_without_parameters_accepts_itself
    (router : RouterSettings) (rest : str) (this : Route) (p : str) :
  isTrailingSlashSensitive router = true ->
  ~ In "{"%char rest ->
  _generateRegex router ("/" ++ rest) = Normal this ->
  Route_test this p = text_match (negb (isCaseSensitive router)) ("/" ++ rest) p.
Proof.
  intros Htss Hfree Hgen.
  assert (Hsegs : template_segments ("/" ++ rest) = split_slash rest) by reflexivity.
  assert (Hall : Forall (fun segment => String_match segment paramRegex = None)
                   (split_slash rest)).
  { apply Forall_forall. intros segment Hin. apply brace_free_is_literal.
    intros Hb. apply Hfree. eapply split_slash_chars; eauto. }
  pose proof (@Route_test_pieces router _ this p Hgen) as H1.
  rewrite Hsegs in H1.
  pose proof (@literal_pieces router (split_slash rest) p Htss Hall) as H2.
  rewrite split_join in H2.
  destruct (Route_test this p);
    destruct (text_match (negb (isCaseSensitive router)) ("/" ++ rest) p);
    try reflexivity.
  - symmetry. apply H2, H1. reflexivity.
  - apply H1, H2. reflexivity.
Qed.

Lemma X10_witness :
  exists this,
    _generateRegex (mkRouter false true) "/api/v1.0/status" = Normal this /\
    Route_test this "/API/v1.0/Status" = true /\
    Route_test this "/api/v1x0/status" = false.
Proof.
  eexists. split; [vm_compute; reflexivity|].
  split.
  - rewrite (@X10_template_without_parameters_accepts_itself (mkRouter false true)
               "api/v1.0/status" _ "/API/v1.0/Status" ltac:(reflexivity)
               ltac:(simpl; intuition discriminate) ltac:(vm_compute; reflexivity)).
    reflexivity.
  - rewrite (@X10_template_without_parameters_accepts_itself (mkRouter false true)
               "api/v1.0/status" _ "/api/v1x0/status" ltac:(reflexivity)
               ltac:(simpl; intuition discriminate) ltac:(vm_compute; reflexivity)).
    reflexivity.
Defined.


(** ** The check on encoded characters *)

Lemma all_ascii_In a : In a all_ascii.
Proof.
  unfold all_ascii. rewrite <- (ascii_nat_embedding a). apply in_map.
  apply in_seq. pose proof (nat_ascii_bounded a). lia.
Qed.

(** The octets that [validatePathEncodedRegex] lists are those of the legal
    characters. *)
Lemma encoded_pair_spec h1 h2 : encoded_pair h1 h2 = needless_octet h1 h2.
Proof.
  assert (H : forallb (fun a => forallb (fun b =>
                Bool.eqb (encoded_pair a b) (needless_octet a b)) all_ascii)
                all_ascii = true) by (vm_compute; reflexivity).
  rewrite forallb_forall in H. specialize (H h1 (all_ascii_In h1)).
  rewrite forallb_forall in H. specialize (H h2 (all_ascii_In h2)).
  now apply Bool.eqb_prop.
Qed.

Lemma encoded_shape ic n0 x y :
  Lang ic n0 (source validatePathEncodedRegex) x y ->
  exists h1 h2, x = "%"%char :: h1 :: h2 :: y.
Proof.
  simpl. intros H. apply Lang_Seq_inv in H. destruct H as (y1 & H1 & H2).
  apply Lang_Chr_inv in H1. destruct H1 as (ch & -> & Hc).
  assert (ch = "%"%char).
  { unfold char_match in Hc. destruct ic.
    - destruct ch as [[] [] [] [] [] [] [] []]; try discriminate; reflexivity.
    - now apply Ascii.eqb_eq in Hc. }
  subst ch. apply Lang_NonCap_inv in H2.
  repeat (apply Lang_Alt_inv in H2; destruct H2 as [H2|H2]);
    apply Lang_Seq_inv in H2; destruct H2 as (y2 & Ha & Hb);
    apply Lang_Chr_inv in Ha; destruct Ha as (c1 & -> & _);
    apply Lang_Class_inv in Hb; destruct Hb as (c2 & -> & _); eauto.
Qed.

Lemma exec_from_suffix re n0 : forall w x y cap,
  Matches (ignoreCase re) n0 (source re) 0 x
    (repeat None (ngroups (source re))) y cap ->
  exec_from re n0 (w ++ x) <> None.
Proof.
  induction w as [|a w IH]; intros x y cap HM.
  - simpl. eapply exec_from_complete; eauto.
  - simpl. destruct (Matcher _ _ _ _ _ _ _) as [[y' cap']|]; [discriminate|].
    eapply IH; eauto.
Qed.

(** A global expression finds nothing exactly when it matches at no
    position. *)
Lemma String_match_global_None re input :
  global re = true ->
  (String_match input re = None <->
   forall w x y, input = w ++ x ->
     ~ Lang (ignoreCase re) (length input) (source re) x y).
Proof.
  intros Hg. unfold String_match. rewrite Hg. simpl. split.
  - intros H w x y -> HL.
    destruct (Lang_Matches HL 0 (repeat None (ngroups (source re)))) as [cap HM].
    apply (exec_from_suffix re w) in HM.
    destruct (exec_from re (length (w ++ x)) (w ++ x)) as [[[x0 y0] c0]|];
      [discriminate | congruence].
  - intros H.
    destruct (exec_from re (length input) input) as [[[x0 y0] c0]|] eqn:E;
      [|reflexivity].
    apply exec_from_sound in E. destruct E as [[w ->] HM].
    exfalso. eapply H; [reflexivity|]. eapply Matches_Lang; eauto.
Qed.

Lemma encoded_pair_Lang n0 h1 h2 y :
  Lang false n0 (source validatePathEncodedRegex) ("%"%char :: h1 :: h2 :: y) y <->
  encoded_pair h1 h2 = true.
Proof.
  unfold encoded_pair. split.
  - intros H.
    assert (HL : Lang false 3 (source validatePathEncodedRegex)
                   ["%"%char; h1; h2] []).
    { apply (@Lang_shift false n0 3 (source validatePathEncodedRegex) _ y
               (eq_refl) H ["%"%char; h1; h2] []).
      reflexivity. }
    pose proof (@RegExp_exec_complete validatePathEncodedRegex
                  ["%"%char; h1; h2] [] HL) as Hex.
    destruct (RegExp_exec _ _); [reflexivity | congruence].
  - intros H.
    destruct (RegExp_exec validatePathEncodedRegex ["%"%char; h1; h2])
      as [mtch|] eqn:E; [|discriminate].
    unfold RegExp_exec in E.
    destruct (exec_from _ _ _) as [[[x0 y0] c0]|] eqn:E0; [|discriminate].
    apply exec_from_sound in E0. destruct E0 as [[w Hw] HM].
    apply Matches_Lang in HM. simpl ignoreCase in HM.
    destruct (encoded_shape HM) as (a & b & ->).
    assert (w = [] /\ y0 = []) as [-> ->].
    { apply (f_equal (@length _)) in Hw. rewrite length_app in Hw. simpl in Hw.
      destruct w; [|simpl in Hw; lia]. destruct y0; [|simpl in Hw; lia]. auto. }
    simpl in Hw. inversion Hw; subst a b.
    apply (@Lang_shift false _ n0 (source validatePathEncodedRegex) _ []
             (eq_refl) HM ["%"%char; h1; h2] y).
    reflexivity.
Qed.

Lemma validatePathEncodedRegex_finds (template : str) :
  String_match template validatePathEncodedRegex <> None <->
  exists pre h1 h2 post,
    template = pre ++ "%"%char :: h1 :: h2 :: post /\
    needless_octet h1 h2 = true.
Proof.
  split.
  - intros H.
    destruct (exec_from validatePathEncodedRegex (length template) template)
      as [[[x0 y0] c0]|] eqn:E.
    + apply exec_from_sound in E. destruct E as [[w ->] HM].
      apply Matches_Lang in HM. simpl ignoreCase in HM.
      destruct (encoded_shape HM) as (h1 & h2 & ->).
      exists w, h1, h2, y0. split; [reflexivity|].
      rewrite <- encoded_pair_spec. eapply encoded_pair_Lang; eauto.
    + exfalso. apply H. unfold String_match. simpl. now rewrite E.
  - intros (pre & h1 & h2 & post & -> & Hn) H.
    pose proof (proj1 (@String_match_global_None validatePathEncodedRegex _
                         eq_refl) H) as H'.
    apply (H' pre ("%"%char :: h1 :: h2 :: post) post eq_refl).
    apply encoded_pair_Lang. now rewrite encoded_pair_spec.
Qed.

(** X11.  The check of line 28 finds something exactly when the template
    holds an octet [%XY], written with upper-case digits, of a character
    that is legal as it is: a letter, a digit, or one of
    [_ ! $ & ' ( ) * + , ; = : @ - . ~].  The constructor refuses a path
    for its encoded characters exactly when the path has passed the two
    checks before and holds such an octet. *)
Theorem X11_encoded_check_finds_octets_of_legal_characters (template : str) :
  (String_match template validatePathEncodedRegex <> None <->
   exists pre h1 h2 post,
     template = pre ++ "%"%char :: h1 :: h2 :: post /\
     needless_octet h1 h2 = true) /\
  (validatePath template
     = Throw (AssertError "Path cannot contain encoded non-reserved path characters") <->
   template <> [] /\
   String_match template validatePathRegex <> None /\
   exists pre h1 h2 post,
     template = pre ++ "%"%char :: h1 :: h2 :: post /\
     needless_octet h1 h2 = true).
Proof.
  split; [apply validatePathEncodedRegex_finds|].
  rewrite <- validatePathEncodedRegex_finds. unfold validatePath.
  destruct template as [|c t]; simpl.
  - split; [discriminate | intros [H _]; congruence].
  - destruct (String_match (c :: t) validatePathRegex) as [m|]; simpl.
    + destruct (String_match (c :: t) validatePathEncodedRegex) as [m'|]; simpl.
      * repeat split; discriminate.
      * split; [discriminate | intros (_ & _ & H); congruence].
    + split; [discriminate | intros (_ & H & _); congruence].
Qed.


(** ** The validator accepts nothing but the grammar *)

Lemma Lang_Bol_inv ic n0 x y : Lang ic n0 Bol x y -> y = x /\ length x = n0.
Proof. inversion 1; subst; auto. Qed.

Lemma Lang_Eol_inv ic n0 x y : Lang ic n0 Eol x y -> x = [] /\ y = [].
Proof. inversion 1; subst; auto. Qed.

(** What every iteration does, a repetition does. *)
Lemma Lang_Rep_closure ic n0 (Q : str -> str -> Prop) r :
  (forall x, Q x x) ->
  (forall x y z, Q x y -> Q y z -> Q x z) ->
  (forall x y, Lang ic n0 r x y -> Q x y) ->
  forall min max x y, Lang ic n0 (Rep min max r) x y -> Q x y.
Proof.
  intros Hr Ht Hs min max x y H.
  remember (Rep min max r) as e eqn:Ee. revert min max Ee.
  induction H as [ | | | | | | | | |
                 | min' max' r' x Hstop
                 | min' max' r' x y z Hmax H1 _ Hlen H2 IH2 ];
    intros min max Ee; try discriminate.
  - apply Hr.
  - inversion Ee; subst. eapply Ht; [apply Hs; exact H1|].
    eapply IH2. reflexivity.
Qed.

Lemma literal_chars_app s1 s2 :
  literal_chars s1 -> literal_chars s2 -> literal_chars (s1 ++ s2).
Proof. induction 1; simpl; intros; auto using literal_chars. Qed.

Lemma param_token_final s : param_token false s -> param_token true s.
Proof.
  intros H. remember false as final eqn:E.
  destruct H; try discriminate; auto using param_token.
Qed.

Section ValidatorSoundness.

Variable n0 : nat.

Local Abbreviation LS := (Lang false n0).

Lemma S_chr a x y : LS (Chr a) x y -> x = a :: y.
Proof.
  intros H. apply Lang_Chr_inv in H. destruct H as (ch & -> & Hc).
  simpl in Hc. apply Ascii.eqb_eq in Hc. now subst.
Qed.

Lemma S_legal x y : LS legal_class x y -> exists a, is_legal a = true /\ x = a :: y.
Proof.
  intros H. apply Lang_Class_inv in H. destruct H as (a & -> & Hc). eauto.
Qed.

Lemma S_hex x y : LS hex_class x y -> exists h, is_hex h = true /\ x = h :: y.
Proof.
  intros H. apply Lang_Class_inv in H. destruct H as (h & -> & Hc).
  exists h. split; [|reflexivity].
  unfold class_match, class_has in Hc. simpl in Hc.
  rewrite orb_false_r in Hc. exact Hc.
Qed.

Lemma S_vp_e x y :
  LS vp_e x y -> exists s, s <> [] /\ literal_chars s /\ x = s ++ y.
Proof.
  intros H. apply Lang_Group_inv, Lang_Alt_inv in H. destruct H as [H|H].
  - apply S_legal in H. destruct H as (a & Ha & ->).
    exists [a]. repeat split; [discriminate|]. auto using literal_chars.
  - apply Lang_Seq_inv in H. destruct H as (y1 & H1 & H2).
    apply S_chr in H1. subst x.
    apply Lang_Rep_inv in H2.
    destruct H2 as [[_ [E|E]]|(_ & y2 & Ha & _ & H2)]; try discriminate.
    apply S_hex in Ha. destruct Ha as (h1 & Hh1 & ->). simpl in H2.
    apply Lang_Rep_inv in H2.
    destruct H2 as [[_ [E|E]]|(_ & y3 & Hb & _ & H2)]; try discriminate.
    apply S_hex in Hb. destruct Hb as (h2 & Hh2 & ->). simpl in H2.
    apply Lang_Rep_inv in H2.
    destruct H2 as [[-> _]|(Hmax & _)]; [|congruence].
    exists ["%"%char; h1; h2]. repeat split; [discriminate|].
    auto using literal_chars.
Qed.

Lemma S_literal x y :
  LS (Plus vp_e) x y -> exists s, s <> [] /\ literal_chars s /\ x = s ++ y.
Proof.
  intros H. apply Lang_Rep_inv in H.
  destruct H as [[_ [E|E]]|(_ & y1 & H1 & _ & H2)]; try discriminate.
  apply S_vp_e in H1. destruct H1 as (s1 & Hne & Hs1 & ->). simpl in H2.
  apply (@Lang_Rep_closure false n0
           (fun x y => exists s, literal_chars s /\ x = s ++ y) vp_e) in H2.
  - destruct H2 as (s2 & Hs2 & ->). exists (s1 ++ s2). repeat split.
    + destruct s1; [congruence | discriminate].
    + now apply literal_chars_app.
    + now rewrite app_assoc.
  - intros x. exists []. split; [constructor | reflexivity].
  - intros x' y' z' (sa & Ha & ->) (sb & Hb & ->). exists (sa ++ sb).
    split; [now apply literal_chars_app | now rewrite app_assoc].
  - intros x' y' H. apply S_vp_e in H. destruct H as (s & _ & Hs & ->). eauto.
Qed.

Lemma S_count x y :
  LS (Seq nonzero_class (Star Digit)) x y ->
  exists count, is_count count = true /\ x = count ++ y.
Proof.
  intros H. apply Lang_Seq_inv in H. destruct H as (y1 & H1 & H2).
  apply Lang_Class_inv in H1. destruct H1 as (c & -> & Hc).
  apply Lang_Star_class in H2. destruct H2 as (ds & Hds & ->).
  exists (c :: ds). split; [|reflexivity]. simpl.
  unfold class_match, class_has in Hc. simpl in Hc. rewrite orb_false_r in Hc.
  rewrite Hc. simpl. rewrite <- Hds. apply forallb_same. intros a.
  symmetry. apply digit_class.
Qed.

Lemma S_vp_g x y :
  LS vp_g x y -> exists s, param_token false s /\ x = s ++ y.
Proof.
  unfold vp_g. simpl seqs. intros H.
  apply Lang_Group_inv, Lang_Seq_inv in H. destruct H as (y1 & H1 & H).
  apply S_chr in H1. subst x.
  apply Lang_Seq_inv in H. destruct H as (y2 & H2 & H).
  apply Lang_word_plus in H2. destruct H2 as (name & Hn & ->).
  apply Lang_Seq_inv in H. destruct H as (y3 & H3 & H4).
  apply S_chr in H4. subst y3.
  apply Lang_Opt_iff in H3. destruct H3 as [E|[H3 _]].
  - subst y2. exists ("{" ++ name ++ "}"). split.
    + now apply pt_single.
    + norm_app. reflexivity.
  - unfold vp_h in H3. simpl seqs in H3.
    apply Lang_Group_inv, Lang_Seq_inv in H3. destruct H3 as (y4 & H5 & H6).
    apply S_chr in H5. subst y2.
    apply S_count in H6. destruct H6 as (count & Hc & ->).
    exists ("{" ++ name ++ "*" ++ count ++ "}"). split.
    + now apply pt_fixed.
    + norm_app. reflexivity.
Qed.

Lemma S_vp_j x y :
  LS vp_j x y -> exists s, param_token true s /\ x = s ++ y.
Proof.
  unfold vp_j. simpl seqs. intros H.
  apply Lang_Group_inv, Lang_Seq_inv in H. destruct H as (y1 & H1 & H).
  apply S_chr in H1. subst x.
  apply Lang_Seq_inv in H. destruct H as (y2 & H2 & H).
  apply Lang_word_plus in H2. destruct H2 as (name & Hn & ->).
  apply Lang_Seq_inv in H. destruct H as (y3 & H3 & H4).
  apply S_chr in H4. subst y3.
  apply Lang_Opt_iff in H3. destruct H3 as [E|[H3 _]].
  - subst y2. exists ("{" ++ name ++ "}"). split.
    + now apply pt_single.
    + norm_app. reflexivity.
  - apply Lang_Group_inv, Lang_Alt_inv in H3. destruct H3 as [H3|H3].
    + apply Lang_Group_inv, Lang_Seq_inv in H3. destruct H3 as (y4 & H5 & H6).
      apply S_chr in H5. subst y2.
      apply Lang_Opt_iff in H6. destruct H6 as [E|[H6 _]].
      * subst y4. exists ("{" ++ name ++ "*}"). split.
        -- now apply pt_unbounded.
        -- norm_app. reflexivity.
      * apply Lang_Group_inv, S_count in H6. destruct H6 as (count & Hc & ->).
        exists ("{" ++ name ++ "*" ++ count ++ "}"). split.
        -- now apply pt_fixed.
        -- norm_app. reflexivity.
    + apply Lang_Group_inv, S_chr in H3. subst y2.
      exists ("{" ++ name ++ "?}"). split.
      * now apply pt_optional.
      * norm_app. reflexivity.
Qed.

Lemma S_vp_c x y :
  LS vp_c x y -> exists s, inner_segment s /\ x = "/" ++ s ++ y.
Proof.
  intros H. apply Lang_Group_inv, Lang_Seq_inv in H. destruct H as (y1 & H1 & H).
  apply S_chr in H1. subst x.
  apply Lang_Group_inv, Lang_Alt_inv in H. destruct H as [H|H].
  - apply S_literal in H. destruct H as (s & Hne & Hs & ->).
    exists s. split; [left; auto | reflexivity].
  - apply S_vp_g in H. destruct H as (s & Hs & ->).
    exists s. split; [right; auto | reflexivity].
Qed.

Lemma S_segments x y :
  LS (Star vp_c) x y ->
  exists segs, Forall inner_segment segs /\ x = concat (map (app "/") segs) ++ y.
Proof.
  apply (@Lang_Rep_closure false n0
           (fun x y => exists segs, Forall inner_segment segs /\
                                    x = concat (map (app "/") segs) ++ y) vp_c).
  - intros x'. exists []. split; [constructor | reflexivity].
  - intros x' y' z' (sa & Ha & ->) (sb & Hb & ->). exists (sa ++ sb). split.
    + apply Forall_app. auto.
    + now rewrite map_app, concat_app, app_assoc.
  - intros x' y' H. apply S_vp_c in H. destruct H as (s & Hs & ->).
    exists [s]. split; [auto|]. simpl. now rewrite app_nil_r.
Qed.

Lemma S_final x : LS (Opt vp_i) x [] -> final_part x.
Proof.
  intros H. apply Lang_Opt_iff in H. destruct H as [<-|[H _]]; [constructor|].
  apply Lang_Group_inv, Lang_Seq_inv in H. destruct H as (y1 & H1 & H).
  apply S_chr in H1. subst x.
  apply Lang_Opt_iff in H. destruct H as [<-|[H _]]; [constructor|].
  apply S_vp_j in H. destruct H as (s & Hs & ->). rewrite app_nil_r.
  now apply (fp_param Hs).
Qed.

End ValidatorSoundness.

Lemma validatePathRegex_sound template mtch :
  String_match template validatePathRegex = Some mtch ->
  exists segs tail,
    template = template_of segs tail /\
    Forall inner_segment segs /\ final_part tail.
Proof.
  unfold String_match. simpl. unfold RegExp_exec. intros H.
  destruct (exec_from validatePathRegex (length template) template)
    as [[[x0 y0] c0]|] eqn:E; [|discriminate].
  clear H. apply exec_from_sound in E. destruct E as [[w Hw] HM].
  apply Matches_Lang in HM. simpl in HM.
  assert (Hstart : forall r y, Lang false (length template) (Seq Bol r) x0 y ->
            x0 = template /\ Lang false (length template) r template y).
  { intros r y H. apply Lang_Seq_inv in H. destruct H as (y1 & H1 & H2).
    apply Lang_Bol_inv in H1. destruct H1 as [-> Hl].
    assert (w = []).
    { destruct w; [reflexivity|].
      rewrite Hw, length_app in Hl. simpl in Hl. lia. }
    subst w. simpl in Hw. subst x0. auto. }
  apply Lang_Alt_inv in HM. destruct HM as [HM|HM].
  - unfold vp_a in HM. simpl seqs in HM. apply Lang_Group_inv in HM.
    apply Hstart in HM. destruct HM as [_ HM].
    apply Lang_Seq_inv in HM. destruct HM as (y1 & H1 & H2).
    apply S_chr in H1. apply Lang_Eol_inv in H2. destruct H2 as [-> _].
    exists [], "/". split; [exact H1|]. split; constructor.
  - unfold vp_b in HM. simpl seqs in HM. apply Lang_Group_inv in HM.
    apply Hstart in HM. destruct HM as [_ HM].
    apply Lang_Seq_inv in HM. destruct HM as (y1 & H1 & H2).
    apply Lang_Seq_inv in H2. destruct H2 as (y2 & H2 & H3).
    apply Lang_Eol_inv in H3. destruct H3 as [-> _].
    apply S_segments in H1. destruct H1 as (segs & Hsegs & ->).
    apply S_final in H2. exists segs, y1. auto.
Qed.

(** X12.  The constructor's checks on the path pass exactly for the
    templates of the grammar: a non-empty text made of [/]-separated
    segments, each a non-empty literal or a token [{name}] or [{name*N}],
    optionally followed by a trailing [/] or by a last token of any of the
    forms [{name}], [{name?}], [{name*}], [{name*N}] -- and holding no
    octet of a character that is legal as it is. *)
Theorem X12_valid_templates_are_those_of_the_grammar (template : str) :
  validatePath template = Normal tt <->
  template <> [] /\
  (exists segs tail,
     template = template_of segs tail /\
     Forall inner_segment segs /\ final_part tail) /\
  (forall pre h1 h2 post,
     template = pre ++ "%"%char :: h1 :: h2 :: post ->
     needless_octet h1 h2 = false).
Proof.
  unfold validatePath. split.
  - intros H. destruct template as [|c t]; [discriminate|].
    split; [discriminate|]. simpl in H.
    destruct (String_match (c :: t) validatePathRegex) as [mtch|] eqn:Ev;
      [|discriminate].
    simpl in H.
    destruct (String_match (c :: t) validatePathEncodedRegex) as [m|] eqn:Ee;
      [discriminate|].
    split; [exact (validatePathRegex_sound _ Ev)|].
    intros pre h1 h2 post Et.
    destruct (needless_octet h1 h2) eqn:En; [|reflexivity].
    exfalso. apply (proj2 (validatePathEncodedRegex_finds (c :: t))); [|exact Ee].
    exists pre, h1, h2, post. auto.
  - intros (Hne & (segs & tail & Et & Hsegs & Htail) & Henc).
    pose proof (validatePathRegex_accepts Hsegs Htail) as Hv. rewrite <- Et in Hv.
    destruct template as [|c t]; [congruence|]. simpl.
    destruct (String_match (c :: t) validatePathRegex); [|congruence]. simpl.
    destruct (String_match (c :: t) validatePathEncodedRegex) as [m|] eqn:Ee;
      [|reflexivity].
    exfalso.
    destruct (proj1 (validatePathEncodedRegex_finds (c :: t)))
      as (pre & h1 & h2 & post & E & Hn); [congruence|].
    rewrite (Henc _ _ _ _ E) in Hn. discriminate.
Qed.


(** ** The validator and [_generateRegex] read a template alike *)

Lemma forallb_no_slash (P : ascii -> bool) w :
  P "/"%char = false -> forallb P w = true -> no_slash w.
Proof.
  intros HP Hw Hin. rewrite forallb_forall in Hw. apply Hw in Hin. congruence.
Qed.

Lemma no_slash_app a b : no_slash a -> no_slash b -> no_slash (a ++ b).
Proof. intros Ha Hb Hin. apply in_app_or in Hin. destruct Hin; auto. Qed.

Lemma no_slash_cons c w : c <> "/"%char -> no_slash w -> no_slash (c :: w).
Proof. intros Hc Hw [E|Hin]; [congruence | exact (Hw Hin)]. Qed.

Lemma literal_chars_no_slash s : literal_chars s -> no_slash s.
Proof.
  induction 1 as [|a r Ha _ IH|h1 h2 r H1 H2 _ IH].
  - intros [].
  - apply no_slash_cons; [intros ->; discriminate | exact IH].
  - apply no_slash_cons; [discriminate|].
    apply no_slash_cons; [intros ->; discriminate|].
    apply no_slash_cons; [intros ->; discriminate | exact IH].
Qed.

Lemma literal_chars_no_brace s : literal_chars s -> ~ In "{"%char s.
Proof.
  induction 1 as [|a r Ha _ IH|h1 h2 r H1 H2 _ IH].
  - intros [].
  - intros [->|Hin]; [discriminate | exact (IH Hin)].
  - intros [E|[->|[->|Hin]]]; try discriminate. exact (IH Hin).
Qed.

Lemma is_count_digits count : is_count count = true -> forallb is_digit count = true.
Proof.
  destruct count as [|c ds]; simpl; [discriminate|].
  rewrite andb_true_iff. intros [Hc ->]. rewrite andb_true_r.
  unfold is_digit, in_range in *. apply andb_prop in Hc. destruct Hc as [H1 H2].
  rewrite H2, andb_true_r. apply Nat.leb_le. apply Nat.leb_le in H1.
  change (code "1") with 49 in H1. change (code "0") with 48. lia.
Qed.

Lemma str_to_N_grows : forall ds n,
  (n <= fold_left (fun n a => 10 * n + digit_val a) ds n)%N.
Proof.
  induction ds as [|d ds IH]; intros n; cbn [fold_left]; [lia|].
  specialize (IH (10 * n + digit_val d)%N). lia.
Qed.

Lemma is_count_positive count :
  is_count count = true -> 1 <= N.to_nat (str_to_N count).
Proof.
  destruct count as [|c ds]; simpl; [discriminate|].
  rewrite andb_true_iff. intros [Hc _]. unfold str_to_N. cbn [fold_left].
  pose proof (str_to_N_grows ds (10 * 0 + digit_val c)%N) as Hg.
  assert (1 <= digit_val c)%N.
  { unfold digit_val. unfold in_range in Hc. apply andb_prop in Hc.
    destruct Hc as [H1 _]. apply Nat.leb_le in H1.
    change (code "1") with 49 in H1. lia. }
  lia.
Qed.

(** A token of the grammar, in the terms of [paramRegex]. *)
Lemma param_token_text final s :
  param_token final s ->
  exists name multi optional,
    is_name name = true /\ digits_ok multi /\
    s = token_text name multi optional /\
    token_multiCount multi <> Some 0.
Proof.
  intros H.
  destruct H as [final name Hn | final name count Hn Hc | name Hn | name Hn].
  - exists name, None, false. repeat split; auto; [|discriminate].
    intros digits E. discriminate.
  - exists name, (Some count), false. repeat split; auto.
    + intros digits E. inversion E; subst. now apply is_count_digits.
    + pose proof (is_count_positive _ Hc) as Hp.
      destruct count as [|c ds]; [discriminate|]. simpl.
      intros E. inversion E as [E']. simpl in Hp. lia.
  - exists name, None, true. repeat split; auto; [|discriminate].
    intros digits E. discriminate.
  - exists name, (Some []), false. repeat split; auto; [|discriminate].
    intros digits E. inversion E. reflexivity.
Qed.

Lemma param_token_no_slash final s : param_token final s -> no_slash s.
Proof.
  intros H. apply param_token_text in H.
  destruct H as (name & multi & optional & Hn & Hd & -> & _).
  unfold token_text. apply no_slash_cons; [discriminate|].
  apply no_slash_app.
  { unfold is_name in Hn. apply andb_prop in Hn. destruct Hn as [_ Hn].
    exact (@forallb_no_slash is_word name eq_refl Hn). }
  apply no_slash_app.
  { destruct multi as [digits|]; simpl; [|intros []].
    apply no_slash_cons; [discriminate|].
    exact (@forallb_no_slash is_digit digits eq_refl (Hd _ eq_refl)). }
  apply no_slash_app.
  { destruct optional; simpl; [|intros []].
    apply no_slash_cons; [discriminate | intros []]. }
  apply no_slash_cons; [discriminate | intros []].
Qed.

Lemma param_token_taken final s :
  param_token final s -> String_match s paramRegex <> None.
Proof.
  intros H. apply param_token_text in H.
  destruct H as (name & multi & optional & Hn & Hd & -> & _).
  rewrite (paramRegex_complete _ optional Hn Hd). discriminate.
Qed.

Lemma inner_segment_no_slash s : inner_segment s -> no_slash s.
Proof.
  intros [[_ H]|H]; [now apply literal_chars_no_slash|].
  eapply param_token_no_slash; eauto.
Qed.

Lemma split_slash_run : forall s, no_slash s -> split_slash s = [s].
Proof.
  induction s as [|a s IH]; intros H; simpl; [reflexivity|].
  destruct (Ascii.eqb a "/") eqn:E.
  - apply Ascii.eqb_eq in E. subst. exfalso. apply H. now left.
  - rewrite IH; [reflexivity|]. intros Hin. apply H. now right.
Qed.

Lemma split_slash_cut : forall s r,
  no_slash s -> split_slash (s ++ "/"%char :: r) = s :: split_slash r.
Proof.
  induction s as [|a s IH]; intros r H; simpl; [reflexivity|].
  destruct (Ascii.eqb a "/") eqn:E.
  - apply Ascii.eqb_eq in E. subst. exfalso. apply H. now left.
  - rewrite IH; [reflexivity|]. intros Hin. apply H. now right.
Qed.

Lemma split_slash_headed s Y :
  no_slash s -> slash_headed Y -> split_slash (s ++ Y) = s :: tl (split_slash Y).
Proof.
  intros Hs [->|[Y' ->]].
  - rewrite app_nil_r. simpl. now apply split_slash_run.
  - rewrite split_slash_cut by exact Hs. reflexivity.
Qed.

Lemma segments_of_join : forall segs X,
  Forall no_slash segs -> slash_headed X ->
  tl (split_slash (concat (map (app "/") segs) ++ X)) = segs ++ tl (split_slash X).
Proof.
  induction segs as [|s l IH]; intros X Hall HX; [reflexivity|].
  inversion Hall as [|? ? Hs Hl]; subst.
  change (concat (map (app "/") (s :: l)) ++ X)
    with ("/"%char :: (s ++ concat (map (app "/") l)) ++ X).
  change (split_slash ("/"%char :: (s ++ concat (map (app "/") l)) ++ X))
    with ([] :: split_slash ((s ++ concat (map (app "/") l)) ++ X)).
  cbn [tl]. rewrite <- app_assoc. rewrite split_slash_headed.
  - rewrite IH by assumption. reflexivity.
  - exact Hs.
  - destruct l as [|s' l']; [exact HX|]. right. simpl. eauto.
Qed.

Lemma final_part_segments tail :
  final_part tail ->
  slash_headed tail /\
  forall segment, In segment (tl (split_slash tail)) ->
    segment = [] \/ param_token true segment.
Proof.
  intros H. destruct H as [| |s Hs].
  - split; [now left|]. intros segment [].
  - split; [right; eauto|]. intros segment [<-|[]]. now left.
  - split; [right; simpl; eauto|].
    change (split_slash ("/" ++ s)) with ([] :: split_slash s). cbn [tl].
    rewrite (split_slash_run (param_token_no_slash Hs)).
    intros segment [<-|[]]. now right.
Qed.

(** The segments that the loop visits in a valid template. *)
Lemma valid_segments template segment :
  validatePath template = Normal tt ->
  In segment (template_segments template) ->
  literal_chars segment \/ param_token true segment.
Proof.
  unfold validatePath. intros H Hin.
  destruct template as [|c t]; [discriminate|]. simpl in H.
  destruct (String_match (c :: t) validatePathRegex) as [mtch|] eqn:Ev;
    [|discriminate].
  apply validatePathRegex_sound in Ev.
  destruct Ev as (segs & tail & Et & Hsegs & Htail).
  rewrite Et in Hin. unfold template_segments, template_of in Hin.
  destruct (final_part_segments Htail) as [Hh Hlast].
  rewrite segments_of_join in Hin; [| |exact Hh].
  - apply in_app_or in Hin. destruct Hin as [Hin|Hin].
    + rewrite Forall_forall in Hsegs. destruct (Hsegs _ Hin) as [[_ Hl]|Hp].
      * now left.
      * right. now apply param_token_final.
    + destruct (Hlast _ Hin) as [->|Hp]; [left; constructor | now right].
  - eapply Forall_impl; [|exact Hsegs]. apply inner_segment_no_slash.
Qed.

(** X13.  In a template that passes the constructor's checks, the
    validator and the compiler read every segment alike: [paramRegex] takes
    a segment for a parameter exactly when it is a parameter token of the
    grammar, and takes it for a literal exactly when it is literal text;
    and no parameter has a count of zero, so that a counted parameter is
    never compiled as an unbounded one. *)
Theorem X13_validator_and_compiler_read_segments_alike
    (template segment : str) :
  validatePath template = Normal tt ->
  In segment (template_segments template) ->
  (String_match segment paramRegex <> None <-> param_token true segment) /\
  (String_match segment paramRegex = None <-> literal_chars segment) /\
  (forall param, String_match segment paramRegex = Some param ->
     param_multiCount param <> Some 0).
Proof.
  intros Hv Hin.
  pose proof (valid_segments _ _ Hv Hin) as Hseg.
  assert (Hlit : literal_chars segment -> String_match segment paramRegex = None)
    by (intros H; apply brace_free_is_literal; now apply literal_chars_no_brace).
  split; [|split].
  - split; [|apply param_token_taken].
    intros Hp. destruct Hseg as [Hl|Ht]; [|exact Ht].
    apply Hlit in Hl. congruence.
  - split; [|exact Hlit].
    intros Hn. destruct Hseg as [Hl|Ht]; [exact Hl|].
    apply param_token_taken in Ht. congruence.
  - intros param Hp. destruct Hseg as [Hl|Ht].
    + apply Hlit in Hl. congruence.
    + apply param_token_text in Ht.
      destruct Ht as (name & multi & optional & Hn & Hd & -> & Hc).
      rewrite (paramRegex_complete _ optional Hn Hd) in Hp.
      inversion Hp as [Ep].
      destruct (@token_fields name multi optional _ Hd eq_refl) as (_ & _ & Hm & _).
      rewrite Hm. exact Hc.
Qed.

Lemma X13_witness :
  String_match "{p*3}" paramRegex <> None /\
  String_match "a%7Bb" paramRegex = None.
Proof.
  destruct (@X13_validator_and_compiler_read_segments_alike
              "/a%7Bb/{p*3}" "{p*3}" ltac:(vm_compute; reflexivity)
              ltac:(vm_compute; auto)) as (H1 & _ & _).
  destruct (@X13_validator_and_compiler_read_segments_alike
              "/a%7Bb/{p*3}" "a%7Bb" ltac:(vm_compute; reflexivity)
              ltac:(vm_compute; auto)) as (_ & H2 & _).
  split.
  - apply H1. apply (pt_fixed true "p" "3"); reflexivity.
  - apply H2. repeat (first [apply lc_octet; [reflexivity | reflexivity |]
                            | apply lc_char; [reflexivity|] | apply lc_nil]).
Defined.


(** * Properties of the constructor's checks *)

Lemma Get_Put_same v k x :
  typeof v = "object" \/ typeof v = "function" -> Get (Put v k x) k = x.
Proof.
  destruct v; simpl; intros [E|E]; try discriminate;
    now rewrite obj_get_set_same.
Qed.

Lemma Get_Put_other v k k' x : k <> k' -> Get (Put v k x) k' = Get v k'.
Proof.
  intros H. destruct v; simpl; try reflexivity;
    now rewrite (obj_get_set_other _ x H).
Qed.

Lemma typeof_Put v k x : typeof (Put v k x) = typeof v.
Proof. destruct v; reflexivity. Qed.

(** A value without properties reads [undefined] everywhere. *)
Lemma Get_primitive v k :
  typeof v <> "object" -> typeof v <> "function" -> Get v k = VUndefined.
Proof. destruct v; simpl; intros H1 H2; congruence. Qed.

Lemma among_true v strings :
  among v strings = true <-> exists s, In s strings /\ v = VString s.
Proof.
  unfold among. rewrite existsb_exists. split.
  - intros (s & Hin & H). exists s. split; [exact Hin|].
    destruct v; simpl in H; try discriminate.
    apply str_eqb_eq in H. now subst.
  - intros (s & Hin & ->). exists s. split; [exact Hin|].
    simpl. now apply str_eqb_eq.
Qed.

Lemma is_string_true v s : is_string v s = true <-> v = VString s.
Proof.
  destruct v; simpl; split; try discriminate; try congruence.
  - intros H. apply str_eqb_eq in H. now subst.
  - intros H. inversion H. now apply str_eqb_eq.
Qed.

Lemma assert_Normal c m u : assert c m = Normal u <-> c = true.
Proof. unfold assert. destruct c, u; split; congruence. Qed.

(** ** The handler *)

(** A chain of [^] over truth values tells whether their number is odd. *)
Lemma xor_chain_odd a b c d e f :
  nonzero (N.lxor (N.lxor (N.lxor (N.lxor (N.lxor
     (bit a) (bit b)) (bit c)) (bit d)) (bit e)) (bit f))
  = Nat.odd (count_true [a; b; c; d; e; f]).
Proof. destruct a, b, c, d, e, f; reflexivity. Qed.

Lemma object_marks_odd handler :
  nonzero (object_marks_xor handler) = Nat.odd (count_true (handler_marks handler)).
Proof.
  unfold object_marks_xor, handler_marks.
  destruct (ToBoolean (Get handler "proxy")), (ToBoolean (Get handler "file")),
    (ToBoolean (Get handler "directory")), (ToBoolean (Get handler "docs")),
    (ToBoolean (Get handler "view")); reflexivity.
Qed.

(** X14.  The checks on the handler count parity.  The handler is taken
    from [config] or from the options, whichever is set, and the check of
    line 37 passes exactly when one of the two is set and not the other.
    The check of line 40 passes exactly when an odd number of its six
    conditions hold -- being a function, and having [proxy], [file],
    [directory], [docs], [view] set -- and the check of line 117 on an
    object handler exactly when an odd number of the five properties are
    set: an object with three of them passes both. *)
Theorem X14_handler_checks_count_parity (settings_handler config_handler : value) :
  let handler := or_else config_handler settings_handler in
  ((exists h, resolve_handler settings_handler config_handler = Normal h) <->
   xorb (ToBoolean settings_handler) (ToBoolean config_handler) = true /\
   Nat.odd (count_true (str_eqb (typeof handler) "function"
                          :: handler_marks handler)) = true) /\
  (forall h, resolve_handler settings_handler config_handler = Normal h ->
     h = handler /\ ToBoolean h = true) /\
  (typeof handler = "object" ->
   ((exists maker, object_handler handler = Normal maker) <->
    Nat.odd (count_true (handler_marks handler)) = true)).
Proof.
  intros handler. unfold resolve_handler. fold handler.
  pose proof (xor_chain_odd (str_eqb (typeof handler) "function")
                (ToBoolean (Get handler "proxy")) (ToBoolean (Get handler "file"))
                (ToBoolean (Get handler "directory")) (ToBoolean (Get handler "docs"))
                (ToBoolean (Get handler "view"))) as Hodd.
  fold (handler_marks handler) in Hodd.
  assert (Hxor : nonzero (N.lxor (bit (ToBoolean settings_handler))
                            (bit (ToBoolean config_handler)))
                 = xorb (ToBoolean settings_handler) (ToBoolean config_handler))
    by (destruct (ToBoolean settings_handler), (ToBoolean config_handler); reflexivity).
  rewrite Hxor, Hodd. split; [|split].
  - destruct (xorb _ _); simpl.
    + destruct (Nat.odd _); simpl; split; eauto; intros [h H]; discriminate.
    + split; [intros [h H]; discriminate | intros [H _]; discriminate].
  - intros h H. destruct (xorb _ _) eqn:Ex; simpl in H; [|discriminate].
    destruct (Nat.odd _); simpl in H; [|discriminate].
    inversion H; subst h. split; [reflexivity|].
    unfold handler, or_else.
    destruct (ToBoolean config_handler) eqn:Ec; [exact Ec|].
    destruct (ToBoolean settings_handler); [reflexivity | discriminate].
  - intros Hobj. unfold object_handler. rewrite Hobj. simpl str_eqb.
    replace (str_eqb "object" "object") with true by reflexivity.
    rewrite object_marks_odd.
    destruct (Nat.odd (count_true (handler_marks handler))); simpl.
    + split; [reflexivity|]. intros _.
      destruct (ToBoolean (Get handler "proxy")); [eauto|].
      destruct (ToBoolean (Get handler "file")); [eauto|].
      destruct (ToBoolean (Get handler "directory")); [eauto|].
      destruct (ToBoolean (Get handler "docs")); [eauto|].
      destruct (ToBoolean (Get handler "view")); eauto.
    + split; [intros [m H]; discriminate | discriminate].
Qed.

Lemma X14_witness :
  let handler := VObject [("proxy", VObject []); ("file", VString "./index.html");
                          ("view", VString "index")] in
  resolve_handler VUndefined handler = Normal handler /\
  object_handler handler = Normal (MakeProxy (VObject [])) /\
  resolve_handler VUndefined
    (VObject [("proxy", VObject []); ("file", VString "./index.html")])
  = Throw (AssertError
      "Handler must be a function or an object with a proxy, docs, file, directory or view").
Proof.
  intros handler.
  destruct (@X14_handler_checks_count_parity VUndefined handler) as (H1 & H2 & H3).
  split; [|split].
  - destruct (proj2 H1 ltac:(split; reflexivity)) as [h Hh].
    rewrite Hh. f_equal. exact (proj1 (H2 h Hh)).
  - destruct (proj2 (H3 eq_refl) eq_refl) as [m Hm].
    change (or_else handler VUndefined) with handler in Hm.
    rewrite Hm. vm_compute in Hm. congruence.
  - reflexivity.
Defined.


(** ** The steps of the constructor *)

Lemma bind_Normal {A B} (x : completion A) (f : A -> completion B) b :
  bind x f = Normal b <-> exists a, x = Normal a /\ f a = Normal b.
Proof.
  destruct x as [a|e]; simpl; split.
  - eauto.
  - intros (a' & E & H). inversion E; subst. exact H.
  - discriminate.
  - intros (a' & E & _). discriminate.
Qed.

Lemma assert_then {B} c m (k : completion B) b :
  (assert c m ;;; k) = Normal b <-> c = true /\ k = Normal b.
Proof.
  unfold assert. destruct c; simpl; split; try tauto; try discriminate.
  intros [E _]. discriminate.
Qed.

Lemma Route_options_inv server settings config r :
  Route_options server settings config = Normal r ->
  validatePath (settings_path settings) = Normal tt /\
  settings_method settings <> [] /\
  toLowerCase (settings_method settings) <> "head" /\
  exists handler vp auth route cache,
    resolve_handler (settings_handler settings) (config_handler config)
      = Normal handler /\
    payload_config (toLowerCase (settings_method settings))
      (config_validate config) (config_payload config) = Normal vp /\
    auth_config server (config_auth config) = Normal auth /\
    _generateRegex (server_settings_router server) (settings_path settings)
      = Normal route /\
    cache_config (toLowerCase (settings_method settings)) (fingerprint route)
      (config_cache config) = Normal cache /\
    r = mkRouteOptions (toLowerCase (settings_method settings))
          (settings_path settings)
          (mkConfig handler (fst vp) (snd vp) auth cache (config_pre config))
          route.
Proof.
  unfold Route_options. intros H.
  apply bind_Normal in H. destruct H as ([] & Hv & H).
  apply assert_then in H. destruct H as [Hm H].
  apply assert_then in H. destruct H as [Hh H].
  apply bind_Normal in H. destruct H as (handler & H1 & H).
  apply bind_Normal in H. destruct H as (vp & H2 & H).
  apply bind_Normal in H. destruct H as (auth & H3 & H).
  apply bind_Normal in H. destruct H as (route & H4 & H).
  apply bind_Normal in H. destruct H as (cache & H5 & H).
  split; [exact Hv|]. split.
  { intros E. rewrite E in Hm. discriminate. }
  split.
  { intros E. rewrite E in Hh. discriminate. }
  exists handler, vp, auth, route, cache. inversion H. auto 10.
Qed.

(** X15.  A route that passes the constructor's checks has its method in
    lower case, its path valid and compiled; and a method that reads
    [head] in any letter case is refused as soon as the path has passed,
    whatever the other options are. *)
Theorem X15_method_is_lowered_and_head_refused
    (server : Server) (settings : Settings) (config : Config) :
  (forall r, Route_options server settings config = Normal r ->
     this_method r = toLowerCase (settings_method settings) /\
     this_method r <> "head" /\
     this_path r = settings_path settings /\
     validatePath (this_path r) = Normal tt /\
     _generateRegex (server_settings_router server) (this_path r)
       = Normal (this_route r)) /\
  (validatePath (settings_path settings) = Normal tt ->
   toLowerCase (settings_method settings) = "head" ->
   Route_options server settings config
     = Throw (AssertError "Cannot add a HEAD route")).
Proof.
  split.
  - intros r H. apply Route_options_inv in H.
    destruct H as (Hv & _ & Hh & handler & vp & auth & route & cache
                   & _ & _ & _ & Hg & _ & ->).
    simpl. auto.
  - intros Hv Hh. unfold Route_options. rewrite Hv, Hh.
    destruct (settings_method settings) as [|c m]; [discriminate|].
    reflexivity.
Qed.

Lemma X15_witness :
  Route_options (mkServer VUndefined None VUndefined (mkRouter true true))
    (mkSettings "/status" "Head" (VFunction "function (request) {}" []))
    (mkConfig VUndefined VUndefined VUndefined VUndefined VUndefined None)
  = Throw (AssertError "Cannot add a HEAD route").
Proof.
  apply (proj2 (@X15_method_is_lowered_and_head_refused
                  (mkServer VUndefined None VUndefined (mkRouter true true))
                  (mkSettings "/status" "Head" (VFunction "function (request) {}" []))
                  (mkConfig VUndefined VUndefined VUndefined VUndefined VUndefined None))).
  - vm_compute. reflexivity.
  - reflexivity.
Defined.

(** ** The payload mode *)

(** X16.  When the checks on the payload pass, the mode is one of
    [stream], [raw] and [parse]; it is the mode that was given, when one
    was given, and otherwise [parse] for a route with a validation schema
    or with the method [post] or [put], and [stream] for any other; with a
    schema it is [parse] in every case. *)
Theorem X16_payload_mode_after_the_checks
    (method : str) (validate payload validate' payload' : value) :
  payload_config method validate payload = Normal (validate', payload') ->
  validate' = or_else validate (VObject []) /\
  (exists mode, In mode ["stream"; "raw"; "parse"] /\ payload' = VString mode) /\
  (ToBoolean (Get validate' "schema") = true -> payload' = VString "parse") /\
  (ToBoolean payload = true -> payload' = payload) /\
  (ToBoolean payload = false ->
   ToBoolean (Get validate' "schema") = false ->
   payload' = VString (if str_eqb method "post" || str_eqb method "put"
                       then "parse" else "stream")).
Proof.
  unfold payload_config. intros H.
  apply assert_then in H. destruct H as [H1 H].
  apply assert_then in H. destruct H as [H2 H].
  inversion H as [[Ev Ep]]. clear H.
  set (v := or_else validate (VObject [])) in *.
  split; [reflexivity|]. split; [now apply among_true|]. split; [|split].
  - intros Hs. rewrite Hs in *. simpl in H1. unfold or_else.
    destruct (ToBoolean payload) eqn:Et; simpl in *; [|reflexivity].
    now apply is_string_true.
  - intros Ht. unfold or_else. now rewrite Ht.
  - intros Ht Hs. unfold or_else. rewrite Ht, Hs. simpl.
    destruct (str_eqb method "post" || str_eqb method "put"); reflexivity.
Qed.

Lemma X16_witness :
  payload_config "put" VUndefined VUndefined = Normal (VObject [], VString "parse") /\
  payload_config "get" (VObject [("schema", VObject [])]) (VString "stream")
  = Throw (AssertError
      "Route payload must be set to 'parse' when schema validation enabled").
Proof.
  split; [|reflexivity].
  destruct (payload_config "put" VUndefined VUndefined) as [[v p]|e] eqn:E;
    [|vm_compute in E; discriminate].
  destruct (@X16_payload_mode_after_the_checks "put" VUndefined VUndefined v p E)
    as (-> & _ & _ & _ & Hp).
  rewrite (Hp eq_refl eq_refl). reflexivity.
Defined.

(** ** Authentication *)

(** X17.  When the checks on [auth] pass, the mode is one of [required],
    [optional] and [none] -- by default [required] when the server has
    authentication configured and [none] when it has not -- and any mode
    but [none] needs authentication configured on the server; the
    strategy, [default] unless given, is a strategy of the server when the
    server lists strategies. *)
Theorem X17_auth_after_the_checks (server : Server) (auth auth' : value) :
  auth_config server auth = Normal auth' ->
  (exists mode,
     In mode ["required"; "optional"; "none"] /\
     Get auth' "mode" = VString mode /\
     (mode <> "none" -> ToBoolean (server_settings_auth server) = true)) /\
  (ToBoolean (Get (or_else auth (VObject [])) "mode") = true ->
   Get auth' "mode" = Get auth "mode") /\
  (ToBoolean (Get (or_else auth (VObject [])) "mode") = false ->
   Get auth' "mode" = VString (if ToBoolean (server_settings_auth server)
                               then "required" else "none")) /\
  Get auth' "strategy"
    = or_else (Get (or_else auth (VObject [])) "strategy") (VString "default") /\
  (forall strategies,
     server_settings_strategies server = Some strategies ->
     hasOwnProperty strategies (ToString (Get auth' "strategy")) = true).
Proof.
  unfold auth_config.
  set (a := or_else auth (VObject [])).
  set (m := or_else (Get a "mode")
              (if ToBoolean (server_settings_auth server)
               then VString "required" else VString "none")).
  set (s := or_else (Get (Put a "mode" m) "strategy") (VString "default")).
  set (a' := Put (Put a "mode" m) "strategy" s).
  intros H.
  apply assert_then in H. destruct H as [H1 H].
  apply assert_then in H. destruct H as [H2 H].
  apply bind_Normal in H. destruct H as ([] & H3 & H).
  apply assert_then in H. destruct H as [_ H].
  inversion H as [Ea]. clear H.
  assert (Hobj : typeof a = "object" \/ typeof a = "function").
  { destruct a eqn:Ea'; simpl; auto; exfalso;
      unfold a', s, m in H1; simpl in H1; discriminate. }
  assert (Hmode : Get a' "mode" = m).
  { unfold a'. rewrite Get_Put_other by discriminate.
    now apply Get_Put_same. }
  assert (Hstrategy : Get a' "strategy" = or_else (Get a "strategy") (VString "default")).
  { unfold a'. rewrite Get_Put_same by (rewrite typeof_Put; exact Hobj).
    unfold s. now rewrite Get_Put_other by discriminate. }
  rewrite Hmode in H1, H2.
  split; [|split; [|split; [|split]]].
  - apply among_true in H1. destruct H1 as (mode & Hin & Em).
    exists mode. split; [exact Hin|]. split; [now rewrite Hmode|].
    intros Hne. rewrite Em in H2. simpl in H2.
    destruct (str_eqb mode "none") eqn:E; [|exact H2].
    apply str_eqb_eq in E. congruence.
  - intros Ht. rewrite Hmode. unfold m, or_else. rewrite Ht.
    unfold a, or_else. destruct (ToBoolean auth) eqn:Eau; [reflexivity|].
    unfold a, or_else in Ht. rewrite Eau in Ht. discriminate.
  - intros Hf. rewrite Hmode. unfold m, or_else. rewrite Hf.
    destruct (ToBoolean (server_settings_auth server)); reflexivity.
  - exact Hstrategy.
  - intros strategies Es. rewrite Es in H3.
    apply bind_Normal in H3. destruct H3 as ([] & _ & H3).
    apply assert_Normal in H3. exact H3.
Qed.

Lemma X17_witness :
  exists auth',
    auth_config (mkServer (VObject []) (Some [("default", VObject [])]) VUndefined
                   (mkRouter true true))
      (VObject [("mode", VString "optional")]) = Normal auth' /\
    Get auth' "strategy" = VString "default".
Proof.
  eexists. split; [vm_compute; reflexivity|].
  destruct (@X17_auth_after_the_checks
              (mkServer (VObject []) (Some [("default", VObject [])]) VUndefined
                 (mkRouter true true))
              (VObject [("mode", VString "optional")]) _
              ltac:(vm_compute; reflexivity)) as (_ & _ & _ & H & _).
  exact H.
Defined.

(** ** The cache *)

(** X18.  In a route that passes the checks, a cache whose mode is not
    [none] belongs to a [get] route; and a cache given as an object has
    for segment the one it was given or else the fingerprint that
    [_generateRegex] computed, its other properties being left as they
    were. *)
Theorem X18_cache_is_for_get_and_named_by_the_fingerprint
    (server : Server) (settings : Settings) (config : Config) (r : RouteOptions) :
  Route_options server settings config = Normal r ->
  (ToBoolean (config_cache config) = false ->
   config_cache (this_config r) = config_cache config) /\
  (ToBoolean (config_cache config) = true ->
   Get (config_cache config) "mode" = VString "none" \/ this_method r = "get") /\
  (typeof (config_cache config) = "object" ->
   Get (config_cache (this_config r)) "segment"
     = or_else (Get (config_cache config) "segment")
         (VString (fingerprint (this_route r))) /\
   forall k, k <> "segment" ->
     Get (config_cache (this_config r)) k = Get (config_cache config) k).
Proof.
  intros H. apply Route_options_inv in H.
  destruct H as (_ & _ & _ & handler & vp & auth & route & cache
                 & _ & _ & _ & _ & Hc & ->).
  simpl. unfold cache_config in Hc.
  apply assert_then in Hc. destruct Hc as [H1 Hc].
  split; [|split].
  - intros Hf. rewrite Hf in Hc. now inversion Hc.
  - intros Ht. rewrite Ht in H1. simpl in H1.
    apply orb_prop in H1. destruct H1 as [H1|H1].
    + left. now apply is_string_true.
    + right. now apply str_eqb_eq.
  - intros Ho.
    assert (Ht : ToBoolean (config_cache config) = true)
      by (destruct (config_cache config); simpl in *; try discriminate; reflexivity).
    rewrite Ht in Hc. inversion Hc; subst cache. split.
    + apply Get_Put_same. now left.
    + intros k Hk. apply Get_Put_other. congruence.
Qed.

Lemma X18_witness :
  exists r,
    Route_options (mkServer VUndefined None VUndefined (mkRouter false true))
      (mkSettings "/Item/{id}" "GET" (VFunction "function (request) {}" []))
      (mkConfig VUndefined VUndefined VUndefined VUndefined
         (VObject [("mode", VString "server")]) None) = Normal r /\
    Get (config_cache (this_config r)) "segment" = VString "/item/?".
Proof.
  eexists. split; [vm_compute; reflexivity|].
  destruct (@X18_cache_is_for_get_and_named_by_the_fingerprint
              (mkServer VUndefined None VUndefined (mkRouter false true))
              (mkSettings "/Item/{id}" "GET" (VFunction "function (request) {}" []))
              (mkConfig VUndefined VUndefined VUndefined VUndefined
                 (VObject [("mode", VString "server")]) None) _
              ltac:(vm_compute; reflexivity)) as (_ & _ & H).
  destruct (H eq_refl) as [Hs _]. rewrite Hs. reflexivity.
Defined.

(** ** Prerequisites *)

Lemma prerequisites_loop_spec : forall items acc ps,
  prerequisites_loop items acc = Normal ps ->
  exists added,
    ps = acc ++ added /\
    Forall2 (fun item pre =>
               Get pre "method"
                 = (if str_eqb (typeof item) "object" then Get item "method"
                    else item) /\
               typeof (Get pre "method") = "function" /\
               Get pre "mode"
                 = or_else (if str_eqb (typeof item) "object" then Get item "mode"
                            else VUndefined) (VString "serial") /\
               (Get pre "mode" = VString "serial" \/
                Get pre "mode" = VString "parallel"))
      items added.
Proof.
  induction items as [|item rest IH]; intros acc ps H; simpl in H.
  - inversion H; subst. exists []. split; [now rewrite app_nil_r | constructor].
  - set (pre0 := if str_eqb (typeof item) "object" then item
                 else VObject [("method", item)]) in *.
    apply assert_then in H. destruct H as [H1 H].
    apply assert_then in H. destruct H as [H2 H].
    apply assert_then in H. destruct H as [H3 H].
    apply IH in H. destruct H as (added & -> & HF).
    set (pre := Put pre0 "mode" (or_else (Get pre0 "mode") (VString "serial"))) in *.
    exists (pre :: added). split; [now rewrite <- app_assoc|].
    assert (Hobj : typeof pre0 = "object")
      by (unfold pre0; destruct item; reflexivity).
    assert (Hmethod : Get pre0 "method"
                      = if str_eqb (typeof item) "object" then Get item "method"
                        else item)
      by (unfold pre0; destruct item; reflexivity).
    assert (Hmode0 : Get pre0 "mode"
                     = if str_eqb (typeof item) "object" then Get item "mode"
                       else VUndefined)
      by (unfold pre0; destruct item; reflexivity).
    assert (Hmode : Get pre "mode" = or_else (Get pre0 "mode") (VString "serial"))
      by (apply Get_Put_same; now left).
    constructor; [|exact HF]. split; [|split; [|split]].
    + unfold pre. rewrite Get_Put_other by discriminate. exact Hmethod.
    + unfold pre. rewrite Get_Put_other by discriminate.
      now apply str_eqb_eq.
    + now rewrite Hmode, Hmode0.
    + rewrite Hmode in *. apply orb_prop in H3.
      destruct H3 as [H3|H3]; apply is_string_true in H3; auto.
Qed.

(** X19.  When the loop over [config.pre] passes, [prerequisites] has one
    entry for each item, in order: its method is the item itself when the
    item is not an object, and the item's [method] when it is, and in both
    cases a function; its mode is the one given, [serial] when none is,
    and is [serial] or [parallel]. *)
Theorem X19_prerequisites_are_normalised (items prerequisites : list value) :
  route_prerequisites (Some items) = Normal prerequisites ->
  Forall2 (fun item pre =>
             Get pre "method"
               = (if str_eqb (typeof item) "object" then Get item "method"
                  else item) /\
             typeof (Get pre "method") = "function" /\
             Get pre "mode"
               = or_else (if str_eqb (typeof item) "object" then Get item "mode"
                          else VUndefined) (VString "serial") /\
             (Get pre "mode" = VString "serial" \/
              Get pre "mode" = VString "parallel"))
    items prerequisites.
Proof.
  simpl. intros H. apply prerequisites_loop_spec in H.
  destruct H as (added & -> & HF). exact HF.
Qed.

Lemma X19_witness :
  exists prerequisites,
    route_prerequisites
      (Some [ VFunction "function (request, next) {}" [];
              VObject [("method", VFunction "function (request, next) {}" []);
                       ("assign", VString "user"); ("mode", VString "parallel")] ])
    = Normal prerequisites /\
    length prerequisites = 2.
Proof.
  eexists. split; [vm_compute; reflexivity|].
  pose proof (@X19_prerequisites_are_normalised
                [ VFunction "function (request, next) {}" [];
                  VObject [("method", VFunction "function (request, next) {}" []);
                           ("assign", VString "user"); ("mode", VString "parallel")] ]
                _ ltac:(vm_compute; reflexivity)) as H.
  apply Forall2_length in H. symmetry. exact H.
Defined.


(** * What [match] binds *)

Lemma Matches_Alt_inv ic n0 r1 r2 i x cap y capy :
  Matches ic n0 (Alt r1 r2) i x cap y capy ->
  Matches ic n0 r1 i x cap y capy \/
  Matches ic n0 r2 (i + ngroups r1) x cap y capy.
Proof. inversion 1; subst; auto. Qed.

Lemma param_value_nonempty isMulti multiCount v :
  param_value isMulti multiCount v -> v <> [].
Proof.
  intros (runs & Hr & -> & Hl).
  assert (Hne : 1 <= length runs).
  { destruct isMulti; [|lia].
    destruct (truthy_count multiCount) eqn:T; [|exact Hl].
    destruct multiCount as [[|k]|]; try discriminate. simpl in Hl. lia. }
  destruct runs as [|w runs]; [simpl in Hne; lia|].
  rewrite join_slash_cons. simpl in Hr. apply andb_prop in Hr.
  destruct Hr as [Hw _]. unfold is_run in Hw. apply andb_prop in Hw.
  destruct Hw as [Hw _]. destruct w; [discriminate|]. discriminate.
Qed.

(** The group of a parameter holds the value that follows the separator. *)
Lemma Matches_segmentRX_capture ic n0 isMulti multiCount i x cap y capy :
  Matches ic n0 (segmentRX isMulti multiCount) i x cap y capy ->
  i < length cap ->
  nth i capy None = piece_capture (captured x y).
Proof.
  intros HM Hi.
  pose proof (Matches_Lang HM) as HL.
  apply Lang_segmentRX_value in HL. destruct HL as (v & Hv & Ex).
  apply param_value_nonempty in Hv.
  assert (Ecap : captured x y = "/" ++ v).
  { rewrite Ex. change ("/" ++ v ++ y) with (("/" ++ v) ++ y). apply captured_app. }
  rewrite Ecap. destruct v as [|c v]; [congruence|]. simpl.
  unfold segmentRX in HM. apply Matches_Seq_inv in HM.
  destruct HM as (x1 & c1 & H1 & H2).
  apply Matches_Chr_inv in H1. destruct H1 as (ch & Ex1 & _ & ->).
  simpl in H2. rewrite Nat.add_0_r in H2.
  assert (Ex' : x1 = (c :: v) ++ y).
  { rewrite Ex in Ex1. simpl in Ex1. inversion Ex1. reflexivity. }
  assert (HG : exists inner, Matches ic n0 (Group inner) i x1 cap y capy).
  { destruct isMulti; [destruct (truthy_count multiCount)|]; eauto. }
  destruct HG as (inner & HG). apply Matches_Group_inv in HG.
  destruct HG as (capr & HR & ->).
  rewrite set_cap_nth_same.
  - rewrite Ex'. now rewrite captured_app.
  - now rewrite (Matches_caps_length HR).
Qed.

Lemma Matches_paramRX_capture ic n0 tso isMulti multiCount isOptional i x cap y capy :
  Matches ic n0 (paramRX tso isMulti multiCount isOptional) i x cap y capy ->
  i < length cap -> nth i cap None = None ->
  nth i capy None = piece_capture (captured x y).
Proof.
  intros HM Hi Hnone.
  assert (Hunit : forall cap0 x0 y0 capy0,
    Matches ic n0
      (NonCap (Alt (NonCap (Chr "/")) (NonCap (segmentRX isMulti multiCount))))
      i x0 cap0 y0 capy0 ->
    i < length cap0 -> nth i cap0 None = None ->
    nth i capy0 None = piece_capture (captured x0 y0)).
  { intros cap0 x0 y0 capy0 H Hi0 Hn0.
    apply Matches_NonCap_inv, Matches_Alt_inv in H. destruct H as [H|H].
    - apply Matches_NonCap_inv, Matches_Chr_inv in H.
      destruct H as (ch & -> & _ & ->).
      rewrite Hn0. change (ch :: y0) with ([ch] ++ y0). now rewrite captured_app.
    - apply Matches_NonCap_inv in H. simpl in H. rewrite Nat.add_0_r in H.
      eapply Matches_segmentRX_capture; eauto. }
  unfold paramRX in HM.
  destruct (absence_permitted isMulti multiCount isOptional).
  - destruct tso.
    + apply Matches_Opt_inv in HM. destruct HM as [[-> ->]|[HM _]].
      * rewrite Hnone. pose proof (captured_app [] x) as E. simpl in E.
        now rewrite E.
      * assert (Hg : ngroups (NonCap (Alt (NonCap (Chr "/"))
                                   (NonCap (segmentRX isMulti multiCount)))) = 1)
          by (simpl; apply segmentRX_ngroups).
        rewrite Hg in HM. apply Hunit in HM; [exact HM | |].
        -- now rewrite clear_caps_length.
        -- simpl. apply set_cap_nth_same. exact Hi.
    + now apply Hunit in HM.
  - eapply Matches_segmentRX_capture; eauto.
Qed.

Lemma segments_pathRX_snoc tso l s :
  segments_pathRX tso (l ++ [s])
  = Seq (segments_pathRX tso l) (segment_pathRX tso s).
Proof. unfold segments_pathRX. now rewrite fold_left_app. Qed.

Lemma captures_of_snoc l pieces s w :
  length l = length pieces ->
  captures_of (l ++ [s]) (pieces ++ [w])
  = captures_of l pieces ++ segment_captures s w.
Proof.
  intros Hl. unfold captures_of.
  assert (Hc : combine (l ++ [s]) (pieces ++ [w]) = combine l pieces ++ [(s, w)]).
  { revert pieces Hl. induction l as [|a l IH]; intros [|p pieces] Hl;
      try discriminate; simpl; [reflexivity|].
    now rewrite IH by (simpl in Hl; lia). }
  rewrite Hc, flat_map_app. simpl. now rewrite app_nil_r.
Qed.

Lemma captures_of_length tso : forall l pieces,
  length l = length pieces ->
  length (captures_of l pieces) = ngroups (segments_pathRX tso l).
Proof.
  induction l as [|s l IH] using rev_ind; intros pieces Hl.
  - reflexivity.
  - destruct (exists_last (l := pieces)) as (ps & w & ->).
    { intros ->. rewrite length_app in Hl. simpl in Hl. lia. }
    rewrite !length_app in Hl. simpl in Hl.
    rewrite captures_of_snoc by lia. rewrite segments_pathRX_snoc. simpl.
    rewrite length_app, IH by lia. f_equal.
    rewrite segment_pathRX_ngroups. unfold segment_captures.
    destruct (String_match s paramRegex); reflexivity.
Qed.

(** The captures of a match are those of its pieces. *)
Lemma Matches_segments_captures router n0 : forall segments x z cap capz,
  Matches (negb (isCaseSensitive router)) n0
    (segments_pathRX (negb (isTrailingSlashSensitive router)) segments)
    0 x cap z capz ->
  (forall j, nth j cap None = None) ->
  ngroups (segments_pathRX (negb (isTrailingSlashSensitive router)) segments)
    <= length cap ->
  exists pieces,
    Forall2 (segment_piece router) segments pieces /\
    x = concat pieces ++ z /\
    forall j, nth j capz None = nth j (captures_of segments pieces) None.
Proof.
  induction segments as [|s l IH] using rev_ind; intros x z cap capz HM Hnone Hlen.
  - unfold segments_pathRX in HM. simpl in HM. inversion HM; subst.
    exists []. split; [constructor|]. split; [reflexivity|].
    intros j. rewrite Hnone. destruct j; reflexivity.
  - rewrite segments_pathRX_snoc in HM, Hlen. simpl in Hlen.
    apply Matches_Seq_inv in HM. destruct HM as (y & capy & HA & HB).
    simpl in HB.
    pose proof (Matches_caps_length HA) as Hlc.
    apply IH in HA; [|exact Hnone|lia].
    destruct HA as (pieces & HF & -> & Hcaps).
    pose proof (Forall2_length HF) as Hl.
    pose proof (captures_of_length (negb (isTrailingSlashSensitive router)) _ _ Hl)
      as Hg.
    pose proof (Matches_Lang HB) as HL.
    apply Lang_segment_piece in HL. destruct HL as (w & -> & Hw).
    exists (pieces ++ [w]). split; [apply Forall2_app; auto|]. split.
    { rewrite concat_app. simpl. now rewrite app_nil_r, <- app_assoc. }
    intros j. rewrite captures_of_snoc by exact Hl.
    pose proof (Matches_frame HB) as Hframe.
    rewrite segment_pathRX_ngroups in Hframe, Hlen.
    unfold segment_captures. unfold segment_pathRX in HB.
    destruct (String_match s paramRegex) as [param|] eqn:Es.
    + set (g := ngroups (segments_pathRX
                           (negb (isTrailingSlashSensitive router)) l)) in *.
      destruct (Nat.eq_dec j g) as [->|Hj].
      * rewrite app_nth2 by lia. rewrite Hg, Nat.sub_diag. simpl.
        rewrite (@Matches_paramRX_capture _ _ _ _ _ _ _ _ _ _ _ HB).
        -- now rewrite captured_app.
        -- rewrite Hlc. lia.
        -- rewrite Hcaps. apply nth_overflow. lia.
      * rewrite Hframe by lia. rewrite Hcaps.
        destruct (Nat.lt_ge_cases j g) as [Hlt|Hge].
        -- now rewrite app_nth1 by lia.
        -- rewrite !nth_overflow; [reflexivity | rewrite length_app; simpl; lia | lia].
    + rewrite app_nil_r.
      rewrite (@Matches_no_groups _ _ _ _ _ _ _ _ HB (literalRX_ngroups _ _)).
      apply Hcaps.
Qed.

(** X20.  The array of a match follows the pieces of the path: when the
    route's expression accepts a path, the path is a concatenation of
    pieces, one for each segment of the template, and the array holds the
    whole path and then, for each parameter from left to right, the text
    of its piece after the separator, or [undefined] when the piece is a
    bare separator or nothing. *)
Theorem X20_captures_are_the_values_of_the_pieces
    (router : RouterSettings) (template : str) (this : Route)
    (p : str) (mtch : list (option str)) :
  _generateRegex router template = Normal this ->
  RegExp_exec (regexp this) p = Some mtch ->
  exists pieces,
    Forall2 (segment_piece router) (template_segments template) pieces /\
    p = concat pieces /\
    mtch = Some p :: captures_of (template_segments template) pieces.
Proof.
  intros Hgen Hexec.
  apply _generateRegex_inv in Hgen. destruct Hgen as (st & Hloop & Hre & _).
  apply loop_pathRX in Hloop. simpl in Hloop.
  fold (template_segments template) in Hloop.
  fold (segments_pathRX (negb (isTrailingSlashSensitive router))
          (template_segments template)) in Hloop.
  rewrite Hre, Hloop in Hexec. apply exec_anchored in Hexec.
  destruct Hexec as (cap & -> & HM).
  pose proof (Matches_caps_length HM) as Hlc. rewrite repeat_length in Hlc.
  apply Matches_segments_captures in HM.
  - destruct HM as (pieces & HF & Ep & Hcaps). rewrite app_nil_r in Ep.
    exists pieces. split; [exact HF|]. split; [exact Ep|]. f_equal.
    apply nth_ext with (d := None) (d' := None).
    + rewrite Hlc. symmetry. apply captures_of_length.
      exact (Forall2_length HF).
    + intros j _. apply Hcaps.
  - intros j. destruct (Nat.lt_ge_cases j
      (ngroups (segments_pathRX (negb (isTrailingSlashSensitive router))
                  (template_segments template)))) as [Hlt|Hge].
    + apply nth_repeat_lt. exact Hlt.
    + apply nth_overflow. now rewrite repeat_length.
  - now rewrite repeat_length.
Qed.

Lemma X20_witness :
  exists this pieces,
    _generateRegex (mkRouter true false) "/files/{dir*2}/{name?}" = Normal this /\
    RegExp_exec (regexp this) "/files/a/b/" = Some [Some "/files/a/b/"; Some "a/b"; None] /\
    Forall2 (segment_piece (mkRouter true false))
      ["files"; "{dir*2}"; "{name?}"] pieces /\
    Some "/files/a/b/" :: captures_of ["files"; "{dir*2}"; "{name?}"] pieces
      = [Some "/files/a/b/"; Some "a/b"; None].
Proof.
  destruct (@X20_captures_are_the_values_of_the_pieces (mkRouter true false)
              "/files/{dir*2}/{name?}" _ "/files/a/b/"
              [Some "/files/a/b/"; Some "a/b"; None]
              ltac:(vm_compute; reflexivity) ltac:(vm_compute; reflexivity))
    as (pieces & HF & _ & Ec).
  eexists. exists pieces. split; [vm_compute; reflexivity|].
  split; [vm_compute; reflexivity|]. split; [exact HF|].
  symmetry. exact Ec.
Defined.


(** ** The names that [match] binds *)

Lemma firstn_snoc {A} (l : list A) : forall m a,
  nth_error l m = Some a -> firstn (S m) l = firstn m l ++ [a].
Proof.
  induction l as [|b l IH]; intros [|m] a H; simpl in *; try discriminate.
  - inversion H. reflexivity.
  - f_equal. now apply IH.
Qed.

Lemma NoDup_firstn_notin {A} (l : list A) m a :
  NoDup l -> nth_error l m = Some a -> ~ In a (firstn m l).
Proof.
  intros Hnd Ha Hin. apply In_nth_error in Hin. destruct Hin as [k Hk].
  assert (Hlt : k < m).
  { assert (k < length (firstn m l)) by (apply nth_error_Some; congruence).
    rewrite length_firstn in H. lia. }
  rewrite nth_error_firstn in Hk.
  destruct (Nat.ltb_spec k m) as [_|Hge]; [|lia].
  assert (k = m); [|lia].
  apply (proj1 (NoDup_nth_error l) Hnd).
  - apply nth_error_Some. congruence.
  - congruence.
Qed.

(** A loop that runs to its end has added the names it went over, in
    order. *)
Lemma match_loop_keys ps mtch :
  NoDup ps -> Forall (fun key => key <> []) ps ->
  forall n i request request',
    1 <= i -> i - 1 + n <= length ps ->
    map fst (request_params request) = firstn (i - 1) ps ->
    match_loop ps mtch n i request = (None, request') ->
    path request' = path request /\
    map fst (request_params request') = firstn (i - 1 + n) ps.
Proof.
  intros Hnd Hall. induction n as [|n IH]; intros i request request' Hi Hn Hkeys H.
  - simpl in H. inversion H; subst. rewrite Nat.add_0_r. auto.
  - simpl in H.
    assert (Hi1 : i - 1 < length ps) by lia.
    destruct (nth_error_nonempty Hall Hi1) as (a & key & Ekey).
    rewrite Ekey in H.
    destruct (match index mtch i with
              | Some s => v <- decodeURIComponent s;; Normal (JString v)
              | None => Normal JUndefined
              end) as [v|e]; [|discriminate].
    apply IH in H; [| lia | lia |].
    + destruct H as [Hp Hk]. simpl in Hp. split; [exact Hp|].
      rewrite Hk. f_equal. lia.
    + cbn [request_params]. replace (S i - 1) with (S (i - 1)) by lia.
      rewrite obj_set_new.
      * rewrite map_app, Hkeys. cbn [map fst].
        symmetry. now apply firstn_snoc.
      * rewrite Hkeys. now apply NoDup_firstn_notin.
Qed.

(** X21.  A successful [match] leaves the path of the request as it was
    and replaces what the request held as parameters: the properties of
    [request.params] are the names of the route's parameter list, created
    in that order, and nothing else. *)
Theorem X21_match_binds_the_parameter_list_and_nothing_else
    (router : RouterSettings) (template : str) (this : Route)
    (request request' : Request) :
  _generateRegex router template = Normal this ->
  Route_match this request = (Normal true, request') ->
  path request' = path request /\
  map fst (request_params request') = params this.
Proof.
  intros Hgen Hmatch.
  destruct (_generateRegex_params _ _ Hgen) as (Hnd & Hall & Hlen).
  unfold Route_match in Hmatch.
  destruct (RegExp_exec (regexp this) (path request)) as [mtch|] eqn:Hexec;
    [|inversion Hmatch].
  pose proof (RegExp_exec_length _ _ Hexec) as Hm.
  destruct (0 <? length (params this)) eqn:Hpos.
  - destruct (match_loop _ _ _ _ _) as [[b|] r'] eqn:Hloop.
    + inversion Hmatch; subst.
      apply (@match_loop_done (params this) mtch Hnd Hall) in Hloop; [|lia|lia].
      destruct Hloop as [Hd|[Hd _]]; [|discriminate].
      inversion Hd.
    + inversion Hmatch; subst r'.
      apply (@match_loop_keys (params this) mtch Hnd Hall) in Hloop;
        [| lia | lia | reflexivity].
      destruct Hloop as [Hp Hk]. simpl in Hp. split; [exact Hp|].
      rewrite Hk. replace (1 - 1 + (length mtch - 1)) with (length (params this))
        by lia.
      apply firstn_all.
  - inversion Hmatch; subst. simpl. split; [reflexivity|].
    apply Nat.ltb_ge in Hpos. destruct (params this); [reflexivity|].
    simpl in Hpos. lia.
Qed.

Lemma X21_witness :
  exists this request',
    _generateRegex (mkRouter true true) "/{a}/{b}" = Normal this /\
    Route_match this (mkRequest "/x/y" [("old", JString "1")] [JString "1"])
      = (Normal true, request') /\
    map fst (request_params request') = ["a"; "b"].
Proof.
  eexists. eexists. split; [vm_compute; reflexivity|].
  split; [vm_compute; reflexivity|].
  destruct (@X21_match_binds_the_parameter_list_and_nothing_else
              (mkRouter true true) "/{a}/{b}" _
              (mkRequest "/x/y" [("old", JString "1")] [JString "1"]) _
              ltac:(vm_compute; reflexivity) ltac:(vm_compute; reflexivity))
    as [_ H].
  exact H.
Defined.


(** * A valid template reads a path in one way *)

Lemma is_run_no_slash w : is_run w = true -> no_slash w.
Proof.
  unfold is_run. intros H. apply andb_prop in H. destruct H as [_ H].
  intros Hin. rewrite forallb_forall in H. apply H in Hin. discriminate.
Qed.

Lemma headed_concat rest r :
  slash_headed r -> slash_headed (concat (map (app "/") rest) ++ r).
Proof. destruct rest as [|w rest]; [auto|]. intros _. right. simpl. eauto. Qed.

Lemma runs_unique : forall rest1 rest2 r1 r2,
  forallb is_run rest1 = true -> forallb is_run rest2 = true ->
  length rest1 = length rest2 ->
  slash_headed r1 -> slash_headed r2 ->
  concat (map (app "/") rest1) ++ r1 = concat (map (app "/") rest2) ++ r2 ->
  rest1 = rest2.
Proof.
  induction rest1 as [|w1 rest1 IH]; intros [|w2 rest2] r1 r2 H1 H2 Hl Hr1 Hr2 E;
    try discriminate; [reflexivity|].
  simpl in H1, H2, Hl, E. apply andb_prop in H1. apply andb_prop in H2.
  destruct H1 as [Hw1 H1]. destruct H2 as [Hw2 H2].
  rewrite <- !app_assoc in E. inversion E as [E'].
  assert (w1 = w2).
  { eapply no_slash_cancel; [| | | | exact E'];
      auto using is_run_no_slash, headed_concat. }
  subst w2. apply app_inv_head in E'. f_equal.
  apply (IH rest2 r1 r2); auto.
Qed.

Lemma value_unique isMulti multiCount v1 v2 r1 r2 :
  (isMulti = true -> truthy_count multiCount = true) ->
  param_value isMulti multiCount v1 -> param_value isMulti multiCount v2 ->
  slash_headed r1 -> slash_headed r2 ->
  v1 ++ r1 = v2 ++ r2 -> v1 = v2.
Proof.
  intros Hfixed (runs1 & H1 & -> & Hl1) (runs2 & H2 & -> & Hl2) Hr1 Hr2 E.
  assert (Hl : length runs1 = length runs2).
  { destruct isMulti; [|congruence]. rewrite (Hfixed eq_refl) in *. congruence. }
  assert (Hjoin : forall runs, "/" ++ join_slash runs = concat (map (app "/") runs)
                               \/ runs = []).
  { intros [|w runs]; [now right|]. left. now rewrite join_slash_cons. }
  destruct runs1 as [|a1 l1], runs2 as [|a2 l2]; try discriminate; [reflexivity|].
  f_equal. apply (@runs_unique (a1 :: l1) (a2 :: l2) r1 r2); auto.
  rewrite !join_slash_cons in E. simpl. rewrite <- !app_assoc.
  f_equal. rewrite <- !app_assoc in E. exact E.
Qed.

Lemma text_match_length ic : forall t w,
  text_match ic t w = true -> length w = length t.
Proof.
  induction t as [|a t IH]; intros [|ch w] H; simpl in H; try discriminate;
    [reflexivity|].
  apply andb_prop in H. destruct H as [_ H]. simpl. f_equal. now apply IH.
Qed.

Lemma app_same_length {A} : forall (w1 w2 r1 r2 : list A),
  length w1 = length w2 -> w1 ++ r1 = w2 ++ r2 -> w1 = w2.
Proof.
  induction w1 as [|a w1 IH]; intros [|b w2] r1 r2 Hl E; simpl in *;
    try discriminate; [reflexivity|].
  inversion E; subst. f_equal. eapply IH; eauto.
Qed.

Lemma segment_piece_headed router segment w :
  segment_piece router segment w -> slash_headed w.
Proof.
  unfold segment_piece.
  destruct (String_match segment paramRegex) as [param|].
  - intros [(v & _ & ->)|[_ [->|[_ ->]]]]; [right | right | left]; simpl; eauto.
  - destruct segment as [|a rest].
    + intros [->|[_ ->]]; [right | left]; simpl; eauto.
    + intros H. destruct w as [|ch w]; [discriminate|].
      simpl in H. apply andb_prop in H. destruct H as [Hc _].
      apply char_slash in Hc. subst ch. right. eauto.
Qed.

(** A token that may stand anywhere has a value of fixed size. *)
Lemma inner_token_fields s param :
  param_token false s ->
  String_match s paramRegex = Some param ->
  param_isOptional param = false /\
  (param_isMulti param = true -> truthy_count (param_multiCount param) = true).
Proof.
  intros Ht Hp. remember false as final eqn:Ef.
  destruct Ht as [final name Hn | final name count Hn Hc | name Hn | name Hn];
    try discriminate; subst final.
  - assert (Hd : digits_ok None) by (intros d E; discriminate).
    pose proof (@paramRegex_complete name None false Hn Hd) as E.
    change ("{" ++ name ++ "}") with (token_text name None false) in Hp.
    rewrite E in Hp.
    assert (Ep : param = Some (token_text name None false)
                           :: token_captures name None false) by congruence.
    destruct (@token_fields name None false param Hd Ep) as (_ & Hm & _ & Ho).
    rewrite Ho, Hm. split; [reflexivity | discriminate].
  - assert (Hd : digits_ok (Some count))
      by (intros d E; inversion E; subst; now apply is_count_digits).
    pose proof (@paramRegex_complete name (Some count) false Hn Hd) as E.
    assert (Et : token_text name (Some count) false = "{" ++ name ++ "*" ++ count ++ "}")
      by (unfold token_text, multi_text, optional_text; norm_app; reflexivity).
    rewrite <- Et in Hp. rewrite E in Hp.
    assert (Ep : param = Some (token_text name (Some count) false)
                           :: token_captures name (Some count) false)
      by congruence.
    destruct (@token_fields name (Some count) false param Hd Ep)
      as (_ & _ & Hc' & Ho).
    rewrite Ho, Hc'. split; [reflexivity|]. intros _.
    pose proof (is_count_positive _ Hc) as Hpos.
    destruct count as [|c ds]; [discriminate|]. simpl.
    destruct (N.to_nat (str_to_N (c :: ds))); [lia | reflexivity].
Qed.

Lemma inner_piece_unique router s w1 w2 r1 r2 :
  inner_segment s ->
  segment_piece router s w1 -> segment_piece router s w2 ->
  slash_headed r1 -> slash_headed r2 ->
  w1 ++ r1 = w2 ++ r2 -> w1 = w2.
Proof.
  intros [[Hne Hl]|Ht] H1 H2 Hr1 Hr2 E.
  - unfold segment_piece in H1, H2.
    rewrite (@brace_free_is_literal s (literal_chars_no_brace Hl)) in H1, H2.
    destruct s as [|a rest]; [congruence|].
    apply text_match_length in H1. apply text_match_length in H2.
    eapply app_same_length; [|exact E]. congruence.
  - unfold segment_piece in H1, H2.
    destruct (String_match s paramRegex) as [param|] eqn:Ep.
    + destruct (inner_token_fields Ht Ep) as [Ho Hfixed].
      assert (Habs : absence_permitted (param_isMulti param)
                       (param_multiCount param) (param_isOptional param) = false).
      { unfold absence_permitted. rewrite Ho. simpl.
        destruct (param_isMulti param); [|reflexivity].
        now rewrite (Hfixed eq_refl). }
      rewrite Habs in H1, H2.
      destruct H1 as [(v1 & Hv1 & ->)|[H1 _]]; [|discriminate].
      destruct H2 as [(v2 & Hv2 & ->)|[H2 _]]; [|discriminate].
      f_equal. simpl in E. inversion E as [E'].
      exact (@value_unique (param_isMulti param) (param_multiCount param)
               v1 v2 r1 r2 Hfixed Hv1 Hv2 Hr1 Hr2 E').
    + exfalso. apply (param_token_taken Ht). exact Ep.
Qed.

Lemma inner_pieces_unique router : forall segs ps1 ps2 r1 r2,
  Forall inner_segment segs ->
  Forall2 (segment_piece router) segs ps1 ->
  Forall2 (segment_piece router) segs ps2 ->
  slash_headed r1 -> slash_headed r2 ->
  concat ps1 ++ r1 = concat ps2 ++ r2 ->
  ps1 = ps2 /\ r1 = r2.
Proof.
  induction segs as [|s segs IH]; intros ps1 ps2 r1 r2 Hall H1 H2 Hr1 Hr2 E.
  - inversion H1; inversion H2; subst. auto.
  - inversion Hall as [|? ? Hs Hrest]; subst.
    inversion H1 as [|? w1 ? l1 Hw1 Hl1]; subst.
    inversion H2 as [|? w2 ? l2 Hw2 Hl2]; subst.
    simpl in E. rewrite <- !app_assoc in E.
    assert (Hh : forall l r, Forall2 (segment_piece router) segs l ->
              slash_headed r -> slash_headed (concat l ++ r)).
    { intros l r HF Hr. destruct HF as [|s' w' segs' l' Hw' HF']; [exact Hr|].
      simpl. apply segment_piece_headed in Hw'.
      destruct Hw' as [->|[g ->]]; simpl.
      - clear - HF' Hr. induction HF' as [|s'' w'' ? ? Hw'' ? IH']; [exact Hr|].
        simpl. apply segment_piece_headed in Hw''.
        destruct Hw'' as [->|[g ->]]; simpl; [exact IH' | right; eauto].
      - right. eauto. }
    assert (w1 = w2).
    { exact (@inner_piece_unique router s w1 w2 (concat l1 ++ r1) (concat l2 ++ r2)
               Hs Hw1 Hw2 (Hh _ _ Hl1 Hr1) (Hh _ _ Hl2 Hr2) E). }
    subst w2. apply app_inv_head in E.
    destruct (IH l1 l2 r1 r2 Hrest Hl1 Hl2 Hr1 Hr2 E) as [-> ->]. auto.
Qed.

Lemma final_part_last tail :
  final_part tail ->
  tl (split_slash tail) = [] \/ exists l, tl (split_slash tail) = [l].
Proof.
  intros H. destruct H as [| |s Hs].
  - now left.
  - right. exists []. reflexivity.
  - right. exists s.
    change (split_slash ("/" ++ s)) with ([] :: split_slash s). cbn [tl].
    apply split_slash_run. eapply param_token_no_slash; eauto.
Qed.

(** The segments of a valid template: segments that may stand anywhere,
    and at most one more. *)
Lemma valid_template_segments template :
  validatePath template = Normal tt ->
  exists segs lasts,
    template_segments template = segs ++ lasts /\
    Forall inner_segment segs /\ length lasts <= 1.
Proof.
  unfold validatePath. intros H.
  destruct template as [|c t]; [discriminate|]. simpl in H.
  destruct (String_match (c :: t) validatePathRegex) as [mtch|] eqn:Ev;
    [|discriminate].
  apply validatePathRegex_sound in Ev.
  destruct Ev as (segs & tail & Et & Hsegs & Htail).
  exists segs, (tl (split_slash tail)). split; [|split].
  - rewrite Et. unfold template_segments, template_of.
    apply segments_of_join.
    + eapply Forall_impl; [|exact Hsegs]. apply inner_segment_no_slash.
    + apply (final_part_segments Htail).
  - exact Hsegs.
  - destruct (final_part_last Htail) as [->|[l ->]]; simpl; lia.
Qed.

(** X22.  A template that passes the constructor's checks reads a path in
    one way only: an accepted path is cut into the pieces of the segments
    in exactly one way, so that the values of the parameters are determined
    by the path. *)
Theorem X22_valid_templates_cut_a_path_in_one_way
    (router : RouterSettings) (template : str) (pieces1 pieces2 : list str) :
  validatePath template = Normal tt ->
  Forall2 (segment_piece router) (template_segments template) pieces1 ->
  Forall2 (segment_piece router) (template_segments template) pieces2 ->
  concat pieces1 = concat pieces2 ->
  pieces1 = pieces2.
Proof.
  intros Hv H1 H2 E.
  destruct (valid_template_segments _ Hv) as (segs & lasts & Es & Hsegs & Hl).
  rewrite Es in H1, H2.
  apply Forall2_app_inv_l in H1. destruct H1 as (a1 & b1 & Ha1 & Hb1 & ->).
  apply Forall2_app_inv_l in H2. destruct H2 as (a2 & b2 & Ha2 & Hb2 & ->).
  rewrite !concat_app in E.
  assert (Hh : forall b, Forall2 (segment_piece router) lasts b ->
            slash_headed (concat b)).
  { intros b Hb. destruct Hb as [|l w lasts' b' Hw Hb']; [now left|].
    destruct Hb'; [|simpl in Hl; lia]. simpl. rewrite app_nil_r.
    eapply segment_piece_headed; eauto. }
  destruct (@inner_pieces_unique router segs a1 a2 (concat b1) (concat b2)
              Hsegs Ha1 Ha2 (Hh _ Hb1) (Hh _ Hb2) E) as [-> Eb].
  f_equal.
  destruct Hb1 as [|l w1 lasts' b1' Hw1 Hb1'].
  - inversion Hb2. reflexivity.
  - inversion Hb2 as [|? w2 ? b2' Hw2 Hb2']; subst.
    destruct Hb1'; [|simpl in Hl; lia]. inversion Hb2'; subst.
    simpl in Eb. rewrite !app_nil_r in Eb. now subst.
Qed.

Lemma X22_witness :
  validatePath "/a/{p*2}/{q?}" = Normal tt /\
  Forall2 (segment_piece (mkRouter true false))
    (template_segments "/a/{p*2}/{q?}") ["/a"; "/x/y"; "/z"] /\
  ["/a"; "/x/y"; "/z"] = ["/a"; "/x/y"; "/z"].
Proof.
  assert (HF : Forall2 (segment_piece (mkRouter true false))
                 (template_segments "/a/{p*2}/{q?}") ["/a"; "/x/y"; "/z"]).
  { repeat (apply Forall2_cons); try apply Forall2_nil.
    - reflexivity.
    - left. exists "x/y". split; [|reflexivity].
      exists ["x"; "y"]. repeat split.
    - left. exists "z". split; [|reflexivity].
      exists ["z"]. repeat split. }
  split; [vm_compute; reflexivity|]. split; [exact HF|].
  exact (@X22_valid_templates_cut_a_path_in_one_way (mkRouter true false)
           "/a/{p*2}/{q?}" ["/a"; "/x/y"; "/z"] ["/a"; "/x/y"; "/z"]
           ltac:(vm_compute; reflexivity) HF HF eq_refl).
Defined.
